(** * FMultiGrid: the multigrid facade of BoxLib/AMReX

    A shallow embedding of [FMultiGrid.cpp]: the three constructors, the
    boundary and coefficient setters, [solve], [compute_residual],
    [get_grad_phi], the [Copy] helpers, [Boundary::set_bndry_values],
    [ABecCoeff::set_coeffs] and [init_mgt_solver].

    Conventions.
    - A call either returns or stops the process; [result] is the error
      monad that threads this through the code.
    - [Real] is the IEEE binary64 number of the default build, as a
      primitive float.
    - [MultiFab&] arguments are addresses into a [Store] of field
      containers; [MultiFab*] members are nullable addresses.  The facade
      never copies a field, it only keeps addresses.
    - The numerical kernel behind [MGT_Solver] and the layout types are
      the classes [Kernel] and [Layout]: the facade is verified for every
      instance of them. *)

From Stdlib Require Import ZArith PrimFloat Uint63.
From stdpp Require Import base list strings.

Local Open Scope string_scope.
Local Open Scope list_scope.
Local Open Scope stdpp_scope.

#[local] Set Warnings "-inexact-float".

(** ** Failures *)

Inductive failure : Type :=
  | AssertionFailed (expr : string)   (* BoxLib::Assert, from BL_ASSERT *)
  | Aborted (msg : string)            (* BoxLib::Abort *)
  | NullDereference                   (* a null pointer is dereferenced *)
  | OutOfBounds                       (* an index past the end of an array *)
  | DanglingReference.                (* an address with no live MultiFab *)

Inductive result (A : Type) : Type :=
  | Ok (a : A)
  | Fail (f : failure).
Arguments Ok {A} a.
Arguments Fail {A} f.

#[global] Instance result_ret : MRet result := @Ok.
#[global] Instance result_bind : MBind result := λ A B k m,
  match m with
  | Ok a => k a
  | Fail f => Fail f
  end.

(** Modelled from the spec: the macro [BL_ASSERT] (BLassert.H is not among
    the sources) is the checked precondition of the spec: a false condition
    stops the call and reports the text of the failed expression. *)
Definition BL_ASSERT (cond : bool) (expr : string) : result unit :=
  if cond then Ok () else Fail (AssertionFailed expr).

(** [BoxLib::Abort(msg)] never returns. *)
Definition Abort {A : Type} (msg : string) : result A := Fail (Aborted msg).

Definition failed {A : Type} (r : result A) : Prop :=
  match r with
  | Ok _ => False
  | Fail _ => True
  end.

Definition assertion_failed {A : Type} (r : result A) : Prop :=
  match r with
  | Fail (AssertionFailed _) => True
  | _ => False
  end.

(** ** Containers *)

(** The container classes are declared in headers that are not among the
    sources; they are taken with the meaning their use in FMultiGrid.cpp
    relies on: [size], [resize] (new slots default-constructed, null for
    [PArray]), indexing inside the bounds, [PArray::set]. *)

(** [Array<T>]: a growable array of values. *)
Abbreviation Array := list (only parsing).

(** [PArray<T>]: a growable array of pointers; a slot is null until [set]. *)
Abbreviation PArray A := (list (option A)) (only parsing).

Definition Array_at {A : Type} (l : Array A) (i : nat) : result A :=
  match l !! i with
  | Some x => Ok x
  | None => Fail OutOfBounds
  end.

Definition Array_resize {A : Type} (n : nat) (d : A) (l : Array A) : Array A :=
  take n l ++ replicate (n - length l) d.

(** [PArray::operator[]] dereferences the slot. *)
Definition PArray_at {A : Type} (l : PArray A) (i : nat) : result A :=
  match l !! i with
  | Some (Some x) => Ok x
  | Some None => Fail NullDereference
  | None => Fail OutOfBounds
  end.

Definition PArray_resize {A : Type} (n : nat) (l : PArray A) : PArray A :=
  Array_resize n None l.

Definition PArray_set {A : Type} (i : nat) (x : A) (l : PArray A) : PArray A :=
  <[i := Some x]> l.

(** [for (int i = 0; i < n; ++i) body], threading the loop-carried state. *)
Fixpoint for_each {S : Type} (idx : list nat) (body : nat → S → result S)
    (s : S) : result S :=
  match idx with
  | [] => Ok s
  | i :: rest => s' ← body i s; for_each rest body s'
  end.

Definition for_loop {S : Type} (n : nat) (body : nat → S → result S)
    (s : S) : result S :=
  for_each (seq 0 n) body s.

(** ** Numbers *)

Definition Real : Type := float.

(** The conversion of an [int] operand to [Real] in a mixed product. *)
Definition Real_of_int (z : Z) : Real :=
  if (z <? 0)%Z then PrimFloat.opp (PrimFloat.of_uint63 (Uint63.of_Z (- z)))
  else PrimFloat.of_uint63 (Uint63.of_Z z).

(** [IntVect]: [int vect[BL_SPACEDIM]]; a component is read only at an
    index below [BL_SPACEDIM]. *)
Abbreviation IntVect := (list Z) (only parsing).

Definition IntVect_at (v : IntVect) (n : nat) : Z := nth n v 0%Z.

(** [Geometry]: only the cell size is read by the facade; [CellSize()]
    returns the [BL_SPACEDIM] entries of [dx]. *)
Record Geometry : Type := mkGeometry { CellSize : list Real }.

Definition dx_at (dx : list Real) (n : nat) : Real := nth n dx 0%float.

Definition addr : Type := nat.

Inductive Stencil : Type :=
  | CC_CROSS_STENCIL
  | OTHER_STENCIL (code : Z).

Inductive EqType : Type :=
  | invalid_eq
  | const_gravity_eq
  | gravity_eq
  | general_eq.

#[global] Instance EqType_eq_dec : EqDecision EqType.
Proof. solve_decision. Defined.

(** [BCRec]: low and high physical boundary codes per dimension. *)
Record BCRec : Type := mkBCRec { bc_lo : Array Z; bc_hi : Array Z }.

(** ** The coefficient descriptor, [FMultiGrid::ABecCoeff] *)

Record ABecCoeff : Type := mkABecCoeff {
  eq_type : EqType;
  alpha : Real;
  beta : Real;
  a : PArray addr;
  b : Array (PArray addr);
  alpha_set : bool;
  a_set : bool;
  beta_set : bool;
  b_set : bool
}.

(** Modelled from the spec: the default constructor of [ABecCoeff]
    (FMultiGrid.H is not among the sources) starts Uninitialized, with no
    sub-value set. *)
Definition ABecCoeff_default : ABecCoeff :=
  {| eq_type := invalid_eq; alpha := 0%float; beta := 0%float;
     a := []; b := [];
     alpha_set := false; a_set := false; beta_set := false; b_set := false |}.

(** ** The boundary descriptor, [FMultiGrid::Boundary] *)

Record Boundary : Type := mkBoundary {
  initilized : bool;
  mg_bc : list Z;
  crse_phi : option addr;
  phi : option addr
}.

(** Modelled from the spec: the constructors of [Boundary] (FMultiGrid.H is
    not among the sources).  The default one describes nothing yet; the
    other captures the boundary codes and the two nullable field
    references, and marks the descriptor as set. *)
Definition Boundary_default : Boundary :=
  {| initilized := false; mg_bc := []; crse_phi := None; phi := None |}.

Definition Boundary_new (mg_bc_ : list Z) (crse_phi_ phi_ : option addr)
    : Boundary :=
  {| initilized := true; mg_bc := mg_bc_; crse_phi := crse_phi_; phi := phi_ |}.

Definition get_mg_bc (bc : Boundary) : list Z := mg_bc bc.

(** ** [FMultiGrid::Copy] *)

(** [Copy(PArray<MultiFab>& dst, MultiFab& src)] *)
Definition Copy_MultiFab (dst : PArray addr) (src : addr) : PArray addr :=
  let dst := PArray_resize 1 dst in
  PArray_set 0 src dst.

(** [Copy(PArray<MultiFab>& dst, PArray<MultiFab>& src)] *)
Definition Copy_PArray (dst : PArray addr) (src : PArray addr)
    : result (PArray addr) :=
  let nlevels := length src in
  let dst := PArray_resize nlevels dst in
  for_loop nlevels (λ ilev dst,
    p ← PArray_at src ilev;
    mret (PArray_set ilev p dst)) dst.

(** [Copy(Array<PArray<MultiFab> >& dst, PArray<MultiFab>& src)] *)
Definition Copy_Array_PArray (dst : Array (PArray addr)) (src : PArray addr)
    : result (Array (PArray addr)) :=
  let ndim := length src in
  let dst := Array_resize 1 [] dst in
  let dst := alter (PArray_resize ndim) 0 dst in
  for_loop ndim (λ idim dst,
    p ← PArray_at src idim;
    mret (alter (PArray_set idim p) 0 dst)) dst.

(** [Copy(Array<PArray<MultiFab> >& dst, Array<PArray<MultiFab> >& src)] *)
Definition Copy_Array_Array (dst : Array (PArray addr))
    (src : Array (PArray addr)) : result (Array (PArray addr)) :=
  let nlevels := length src in
  src0 ← Array_at src 0;
  let ndim := length src0 in
  let dst := Array_resize nlevels [] dst in
  for_loop nlevels (λ ilev dst,
    let dst := alter (PArray_resize ndim) ilev dst in
    for_loop ndim (λ idim dst,
      src_lev ← Array_at src ilev;
      p ← PArray_at src_lev idim;
      mret (alter (PArray_set idim p) ilev dst)) dst) dst.

(** [Copy(Array<PArray<MultiFab> >& dst, MultiFab* src, int ndim)]: [src]
    points to [ndim] consecutive fields. *)
Definition Copy_Array_ptr (dst : Array (PArray addr)) (src : addr)
    (ndim : nat) : Array (PArray addr) :=
  let dst := Array_resize 1 [] dst in
  let dst := alter (PArray_resize ndim) 0 dst in
  foldl (λ dst idim, alter (PArray_set idim (src + idim)) 0 dst)
        dst (seq 0 ndim).

(** ** The framework around the facade *)

(** What the build and the framework fix: the space dimension, the layout
    and field payload types, [BoxArray::coarsen], and the private state of
    the numerical kernel with its value after construction. *)
Class Layout : Type := {
  BL_SPACEDIM : nat;
  BoxArray : Type;
  DistributionMapping : Type;
  FabData : Type;
  KernelState : Type;
  BoxArray_coarsen : BoxArray → IntVect → BoxArray;
  kernel_init : KernelState
}.

(** ** The facade over an arbitrary kernel *)

Section Model.

Context `{L : Layout}.

(** [IntVect::TheZeroVector()] *)
Definition TheZeroVector : IntVect := replicate BL_SPACEDIM 0%Z.

(** [IntVect::operator==]: all [BL_SPACEDIM] components agree. *)
Definition IntVect_eqb (v w : IntVect) : bool :=
  forallb (λ n, (IntVect_at v n =? IntVect_at w n)%Z) (seq 0 BL_SPACEDIM).

(** The field container, as far as the facade looks into it. *)
Record MultiFab : Type := mkMultiFab {
  nComp : Z;
  nGrow : Z;
  boxArray : BoxArray;
  DistributionMap : DistributionMapping;
  fabs : FabData
}.

Abbreviation Store := (list MultiFab) (only parsing).

Definition deref (st : Store) (p : addr) : result MultiFab :=
  match st !! p with
  | Some mf => Ok mf
  | None => Fail DanglingReference
  end.

(** *** The boundary register and [MacBndry]

    The objects of the boundary library are kept as the record of how they
    were built: which constructor, then which setter with which arguments. *)

Record BndryRegister : Type := mkBndryRegister {
  br_grids : BoxArray;
  br_in_rad : Z;
  br_out_rad : Z;
  br_extent_rad : Z;
  br_ncomp : Z;
  (* copyFrom(src, nghost, src_comp, dest_comp, num_comp) *)
  br_copied : option (addr * Z * Z * Z * Z)
}.

Definition BndryRegister_copyFrom (br : BndryRegister) (src : addr)
    (nghost src_comp dest_comp num_comp : Z) : BndryRegister :=
  {| br_grids := br_grids br; br_in_rad := br_in_rad br;
     br_out_rad := br_out_rad br; br_extent_rad := br_extent_rad br;
     br_ncomp := br_ncomp br;
     br_copied := Some (src, nghost, src_comp, dest_comp, num_comp) |}.

Inductive BndryValues : Type :=
  | NoValues
  (* setHomogValues(phys_bc, ref_ratio) *)
  | HomogValues (phys_bc : BCRec) (ref_ratio : IntVect)
  (* setBndryValues(mf, mf_start, bnd_start, num_comp, phys_bc) *)
  | FineValues (mf : addr) (mf_start bnd_start num_comp : Z) (phys_bc : BCRec)
  (* setBndryValues(crse, c_start, fine, f_start, bnd_start, num_comp,
                    ratio, phys_bc) *)
  | CrseFineValues (crse : BndryRegister) (c_start : Z) (fine : addr)
      (f_start bnd_start num_comp : Z) (ratio : IntVect) (phys_bc : BCRec).

Record MacBndry : Type := mkMacBndry {
  bndry_grids : BoxArray;
  bndry_ncomp : Z;
  bndry_geom : Geometry;
  bndry_values : BndryValues
}.

(** [MacBndry (ba, ncomp, geom)] *)
Definition MacBndry_new (ba : BoxArray) (ncomp : Z) (geom : Geometry)
    : MacBndry :=
  {| bndry_grids := ba; bndry_ncomp := ncomp; bndry_geom := geom;
     bndry_values := NoValues |}.

Definition MacBndry_set (bndry : MacBndry) (v : BndryValues) : MacBndry :=
  {| bndry_grids := bndry_grids bndry; bndry_ncomp := bndry_ncomp bndry;
     bndry_geom := bndry_geom bndry; bndry_values := v |}.

(** *** The solver handle, [MGT_Solver]

    Kept as the record of its construction and of the coefficient form it
    was configured with, next to the kernel's private state. *)

Inductive KernelCoeffs : Type :=
  (* set_const_gravity_coeffs(xa, xb) *)
  | ConstGravityCoeffs (xa xb : Array (Array Real))
  (* set_gravity_coefficients(b, xa, xb) *)
  | GravityCoeffs (b : Array (PArray addr)) (xa xb : Array (Array Real))
  (* set_abeclap_coeffs(alpha, a, beta, b, xa, xb) *)
  | ABecLapCoeffs (alpha : Real) (a : PArray addr) (beta : Real)
      (b : Array (PArray addr)) (xa xb : Array (Array Real)).

(** The distances a coefficient form was configured with. *)
Definition coeffs_distances (k : KernelCoeffs)
    : Array (Array Real) * Array (Array Real) :=
  match k with
  | ConstGravityCoeffs xa xb => (xa, xb)
  | GravityCoeffs _ xa xb => (xa, xb)
  | ABecLapCoeffs _ _ _ _ xa xb => (xa, xb)
  end.

Record MGT_Solver : Type := mkMGT_Solver {
  mgt_geom : list Geometry;
  mgt_bc : list Z;
  mgt_grids : list BoxArray;
  mgt_dmap : list DistributionMapping;
  mgt_nodal : bool;
  mgt_stencil : Stencil;
  mgt_have_nodal : bool;
  mgt_nc : Z;
  mgt_ncomp : Z;
  mgt_verbose : Z;
  mgt_coeffs : option KernelCoeffs;
  mgt_state : KernelState
}.

(** The numerical kernel behind the handle: [solve] and [compute_residual]
    write through the field pointers they are given, [get_fluxes] writes
    the flux fields. *)
Class Kernel : Type := {
  kernel_solve :
    MGT_Solver → Store → list addr → list addr → MacBndry →
    Real → Real → Z → Z → KernelState * Store * Real;
  kernel_compute_residual :
    MGT_Solver → Store → list addr → list addr → list addr → MacBndry →
    KernelState * Store;
  kernel_get_fluxes :
    MGT_Solver → Store → nat → PArray addr → list Real → Store
}.

Context `{K : Kernel}.

Definition MGT_Solver_new (geom : list Geometry) (bc : list Z)
    (grids : list BoxArray) (dmap : list DistributionMapping) (nodal : bool)
    (stencil : Stencil) (have_nodal : bool) (nc ncomp verbose : Z)
    : MGT_Solver :=
  {| mgt_geom := geom; mgt_bc := bc; mgt_grids := grids; mgt_dmap := dmap;
     mgt_nodal := nodal; mgt_stencil := stencil; mgt_have_nodal := have_nodal;
     mgt_nc := nc; mgt_ncomp := ncomp; mgt_verbose := verbose;
     mgt_coeffs := None; mgt_state := kernel_init |}.

Definition MGT_with_coeffs (mgt : MGT_Solver) (c : KernelCoeffs)
    : MGT_Solver :=
  {| mgt_geom := mgt_geom mgt; mgt_bc := mgt_bc mgt;
     mgt_grids := mgt_grids mgt; mgt_dmap := mgt_dmap mgt;
     mgt_nodal := mgt_nodal mgt; mgt_stencil := mgt_stencil mgt;
     mgt_have_nodal := mgt_have_nodal mgt; mgt_nc := mgt_nc mgt;
     mgt_ncomp := mgt_ncomp mgt; mgt_verbose := mgt_verbose mgt;
     mgt_coeffs := Some c; mgt_state := mgt_state mgt |}.

Definition MGT_with_state (mgt : MGT_Solver) (k : KernelState) : MGT_Solver :=
  {| mgt_geom := mgt_geom mgt; mgt_bc := mgt_bc mgt;
     mgt_grids := mgt_grids mgt; mgt_dmap := mgt_dmap mgt;
     mgt_nodal := mgt_nodal mgt; mgt_stencil := mgt_stencil mgt;
     mgt_have_nodal := mgt_have_nodal mgt; mgt_nc := mgt_nc mgt;
     mgt_ncomp := mgt_ncomp mgt; mgt_verbose := mgt_verbose mgt;
     mgt_coeffs := mgt_coeffs mgt; mgt_state := k |}.

(** *** The facade object *)

Record FMultiGrid : Type := mkFMultiGrid {
  m_nlevels : nat;
  m_baselevel : Z;
  m_crse_ratio : IntVect;
  m_stencil : Stencil;
  m_verbose : Z;
  m_geom : list Geometry;
  m_bndry : option MacBndry;
  m_mgt_solver : option MGT_Solver;
  m_bc : Boundary;
  m_coeff : ABecCoeff
}.

Definition with_bc (s : FMultiGrid) (bc : Boundary) : FMultiGrid :=
  {| m_nlevels := m_nlevels s; m_baselevel := m_baselevel s;
     m_crse_ratio := m_crse_ratio s; m_stencil := m_stencil s;
     m_verbose := m_verbose s; m_geom := m_geom s; m_bndry := m_bndry s;
     m_mgt_solver := m_mgt_solver s; m_bc := bc; m_coeff := m_coeff s |}.

Definition with_coeff (s : FMultiGrid) (c : ABecCoeff) : FMultiGrid :=
  {| m_nlevels := m_nlevels s; m_baselevel := m_baselevel s;
     m_crse_ratio := m_crse_ratio s; m_stencil := m_stencil s;
     m_verbose := m_verbose s; m_geom := m_geom s; m_bndry := m_bndry s;
     m_mgt_solver := m_mgt_solver s; m_bc := m_bc s; m_coeff := c |}.

Definition with_geom (s : FMultiGrid) (g : list Geometry) : FMultiGrid :=
  {| m_nlevels := m_nlevels s; m_baselevel := m_baselevel s;
     m_crse_ratio := m_crse_ratio s; m_stencil := m_stencil s;
     m_verbose := m_verbose s; m_geom := g; m_bndry := m_bndry s;
     m_mgt_solver := m_mgt_solver s; m_bc := m_bc s; m_coeff := m_coeff s |}.

Definition with_solver (s : FMultiGrid) (mgt : option MGT_Solver)
    : FMultiGrid :=
  {| m_nlevels := m_nlevels s; m_baselevel := m_baselevel s;
     m_crse_ratio := m_crse_ratio s; m_stencil := m_stencil s;
     m_verbose := m_verbose s; m_geom := m_geom s; m_bndry := m_bndry s;
     m_mgt_solver := mgt; m_bc := m_bc s; m_coeff := m_coeff s |}.

Definition with_bndry (s : FMultiGrid) (bndry : option MacBndry)
    : FMultiGrid :=
  {| m_nlevels := m_nlevels s; m_baselevel := m_baselevel s;
     m_crse_ratio := m_crse_ratio s; m_stencil := m_stencil s;
     m_verbose := m_verbose s; m_geom := m_geom s; m_bndry := bndry;
     m_mgt_solver := m_mgt_solver s; m_bc := m_bc s; m_coeff := m_coeff s |}.

(** *** Constructors *)

(** [Geometry()], the placeholder entries of [m_geom(m_nlevels)]; every
    constructor overwrites all of them. *)
Definition Geometry_default : Geometry :=
  {| CellSize := replicate BL_SPACEDIM 0%float |}.

(** The member initialisers shared by the three constructors. *)
Definition FMultiGrid_members (nlevels : nat) (baselevel : Z)
    (crse_ratio : IntVect) : FMultiGrid :=
  {| m_nlevels := nlevels; m_baselevel := baselevel;
     m_crse_ratio := crse_ratio; m_stencil := CC_CROSS_STENCIL;
     m_verbose := 0; m_geom := replicate nlevels Geometry_default;
     m_bndry := None; m_mgt_solver := None;
     m_bc := Boundary_default; m_coeff := ABecCoeff_default |}.

(** [FMultiGrid (const Geometry&, int, IntVect)] *)
Definition FMultiGrid_Geometry (geom : Geometry) (baselevel : Z)
    (crse_ratio : IntVect) : result FMultiGrid :=
  let s := FMultiGrid_members 1 baselevel crse_ratio in
  let s := with_geom s (<[0%nat := geom]> (m_geom s)) in
  if (0 <? m_baselevel s)%Z && IntVect_eqb (m_crse_ratio s) TheZeroVector
  then Abort "FMultiGrid: must set crse_ratio if baselevel > 0"
  else Ok s.

(** [FMultiGrid (const std::vector<Geometry>&, int, IntVect)] *)
Definition FMultiGrid_vector (geom : list Geometry) (baselevel : Z)
    (crse_ratio : IntVect) : result FMultiGrid :=
  let s := FMultiGrid_members (length geom) baselevel crse_ratio in
  let s := with_geom s geom in
  if (0 <? m_baselevel s)%Z && IntVect_eqb (m_crse_ratio s) TheZeroVector
  then Abort "FMultiGrid: must set crse_ratio if baselevel > 0"
  else Ok s.

(** [FMultiGrid (const PArray<Geometry>&, int, IntVect)] *)
Definition FMultiGrid_PArray (geom : PArray Geometry) (baselevel : Z)
    (crse_ratio : IntVect) : result FMultiGrid :=
  let s := FMultiGrid_members (length geom) baselevel crse_ratio in
  g ← for_loop (m_nlevels s) (λ ilev g,
         gl ← PArray_at geom ilev;
         mret (<[ilev := gl]> g)) (m_geom s);
  let s := with_geom s g in
  if (0 <? m_baselevel s)%Z && IntVect_eqb (m_crse_ratio s) TheZeroVector
  then Abort "FMultiGrid: must set crse_ratio if baselevel > 0"
  else Ok s.

(** *** [set_bc] *)

(** [set_bc (int* mg_bc)] *)
Definition set_bc (s : FMultiGrid) (mg_bc : list Z) : result FMultiGrid :=
  BL_ASSERT (negb (initilized (m_bc s))) "!m_bc.initilized";;
  mret (with_bc s (Boundary_new mg_bc None None)).

(** [set_bc (int* mg_bc, MultiFab& phi)] *)
Definition set_bc_phi (s : FMultiGrid) (mg_bc : list Z) (phi : addr)
    : result FMultiGrid :=
  BL_ASSERT (negb (initilized (m_bc s))) "!m_bc.initilized";;
  mret (with_bc s (Boundary_new mg_bc None (Some phi))).

(** [set_bc (int* mg_bc, MultiFab& crse_phi, MultiFab& phi)] *)
Definition set_bc_crse_phi (s : FMultiGrid) (mg_bc : list Z)
    (crse_phi phi : addr) : result FMultiGrid :=
  BL_ASSERT (negb (IntVect_eqb (m_crse_ratio s) TheZeroVector))
            "m_crse_ratio != IntVect::TheZeroVector()";;
  BL_ASSERT (negb (initilized (m_bc s))) "!m_bc.initilized";;
  mret (with_bc s (Boundary_new mg_bc (Some crse_phi) (Some phi))).

(** *** Coefficient setters *)

Definition is_invalid_or_general (t : EqType) : bool :=
  bool_decide (t = invalid_eq) || bool_decide (t = general_eq).

(** [m_coeff.eq_type = t; m_coeff.b_set = true; Copy(m_coeff.b, ...)] *)
Definition coeff_with_b (c : ABecCoeff) (t : EqType)
    (b' : Array (PArray addr)) : ABecCoeff :=
  {| eq_type := t; alpha := alpha c; beta := beta c; a := a c; b := b';
     alpha_set := alpha_set c; a_set := a_set c; beta_set := beta_set c;
     b_set := true |}.

(** [m_coeff.eq_type = general_eq; m_coeff.a_set = true; Copy(m_coeff.a, ...)] *)
Definition coeff_with_a (c : ABecCoeff) (a' : PArray addr) : ABecCoeff :=
  {| eq_type := general_eq; alpha := alpha c; beta := beta c; a := a';
     b := b c;
     alpha_set := alpha_set c; a_set := true; beta_set := beta_set c;
     b_set := b_set c |}.

(** [set_const_gravity_coeffs ()] *)
Definition set_const_gravity_coeffs (s : FMultiGrid) : result FMultiGrid :=
  let c := m_coeff s in
  BL_ASSERT (bool_decide (eq_type c = invalid_eq))
            "m_coeff.eq_type == invalid_eq";;
  mret (with_coeff s
    {| eq_type := const_gravity_eq; alpha := alpha c; beta := beta c;
       a := a c; b := b c;
       alpha_set := alpha_set c; a_set := a_set c; beta_set := beta_set c;
       b_set := b_set c |}).

(** [set_gravity_coeffs (PArray<MultiFab>& b)] *)
Definition set_gravity_coeffs_PArray (s : FMultiGrid) (b_ : PArray addr)
    : result FMultiGrid :=
  let c := m_coeff s in
  BL_ASSERT (bool_decide (eq_type c = invalid_eq))
            "m_coeff.eq_type == invalid_eq";;
  BL_ASSERT (bool_decide (m_nlevels s = 1%nat)) "m_nlevels == 1";;
  BL_ASSERT (bool_decide (length b_ = BL_SPACEDIM))
            "b.size() == BL_SPACEDIM";;
  b' ← Copy_Array_PArray (b c) b_;
  mret (with_coeff s (coeff_with_b c gravity_eq b')).

(** [set_gravity_coeffs (Array< PArray<MultiFab> >& b)] *)
Definition set_gravity_coeffs_Array (s : FMultiGrid)
    (b_ : Array (PArray addr)) : result FMultiGrid :=
  let c := m_coeff s in
  BL_ASSERT (bool_decide (eq_type c = invalid_eq))
            "m_coeff.eq_type == invalid_eq";;
  BL_ASSERT (bool_decide (length b_ = m_nlevels s)) "b.size() == m_nlevels";;
  b0 ← Array_at b_ 0;
  BL_ASSERT (bool_decide (length b0 = BL_SPACEDIM))
            "b[0].size() == BL_SPACEDIM";;
  b' ← Copy_Array_Array (b c) b_;
  mret (with_coeff s (coeff_with_b c gravity_eq b')).

(** [set_alpha (Real alpha)] *)
Definition set_alpha (s : FMultiGrid) (alpha_ : Real) : result FMultiGrid :=
  let c := m_coeff s in
  BL_ASSERT (is_invalid_or_general (eq_type c))
    "m_coeff.eq_type == invalid_eq || m_coeff.eq_type == general_eq";;
  BL_ASSERT (negb (alpha_set c)) "!m_coeff.alpha_set";;
  mret (with_coeff s
    {| eq_type := general_eq; alpha := alpha_; beta := beta c;
       a := a c; b := b c;
       alpha_set := true; a_set := a_set c; beta_set := beta_set c;
       b_set := b_set c |}).

(** [set_acoef (MultiFab& a)] *)
Definition set_acoef_MultiFab (s : FMultiGrid) (a_ : addr)
    : result FMultiGrid :=
  let c := m_coeff s in
  BL_ASSERT (is_invalid_or_general (eq_type c))
    "m_coeff.eq_type == invalid_eq || m_coeff.eq_type == general_eq";;
  BL_ASSERT (negb (a_set c)) "!m_coeff.a_set";;
  BL_ASSERT (bool_decide (m_nlevels s = 1%nat)) "m_nlevels == 1";;
  mret (with_coeff s (coeff_with_a c (Copy_MultiFab (a c) a_))).

(** [set_acoef (PArray<MultiFab>& a)] *)
Definition set_acoef_PArray (s : FMultiGrid) (a_ : PArray addr)
    : result FMultiGrid :=
  let c := m_coeff s in
  BL_ASSERT (is_invalid_or_general (eq_type c))
    "m_coeff.eq_type == invalid_eq || m_coeff.eq_type == general_eq";;
  BL_ASSERT (negb (a_set c)) "!m_coeff.a_set";;
  BL_ASSERT (bool_decide (m_nlevels s = length a_)) "m_nlevels == a.size()";;
  a' ← Copy_PArray (a c) a_;
  mret (with_coeff s (coeff_with_a c a')).

(** [set_beta (Real beta)] *)
Definition set_beta (s : FMultiGrid) (beta_ : Real) : result FMultiGrid :=
  let c := m_coeff s in
  BL_ASSERT (is_invalid_or_general (eq_type c))
    "m_coeff.eq_type == invalid_eq || m_coeff.eq_type == general_eq";;
  BL_ASSERT (negb (beta_set c)) "!m_coeff.beta_set";;
  mret (with_coeff s
    {| eq_type := general_eq; alpha := alpha c; beta := beta_;
       a := a c; b := b c;
       alpha_set := alpha_set c; a_set := a_set c; beta_set := true;
       b_set := b_set c |}).

(** [set_bcoef (MultiFab* b)] *)
Definition set_bcoef_ptr (s : FMultiGrid) (b_ : addr) : result FMultiGrid :=
  let c := m_coeff s in
  BL_ASSERT (is_invalid_or_general (eq_type c))
    "m_coeff.eq_type == invalid_eq || m_coeff.eq_type == general_eq";;
  BL_ASSERT (negb (b_set c)) "!m_coeff.b_set";;
  BL_ASSERT (bool_decide (m_nlevels s = 1%nat)) "m_nlevels == 1";;
  mret (with_coeff s
    (coeff_with_b c general_eq (Copy_Array_ptr (b c) b_ BL_SPACEDIM))).

(** [set_bcoef (PArray<MultiFab>& b)] *)
Definition set_bcoef_PArray (s : FMultiGrid) (b_ : PArray addr)
    : result FMultiGrid :=
  let c := m_coeff s in
  BL_ASSERT (is_invalid_or_general (eq_type c))
    "m_coeff.eq_type == invalid_eq || m_coeff.eq_type == general_eq";;
  BL_ASSERT (negb (b_set c)) "!m_coeff.b_set";;
  BL_ASSERT (bool_decide (m_nlevels s = 1%nat)) "m_nlevels == 1";;
  BL_ASSERT (bool_decide (length b_ = BL_SPACEDIM))
            "b.size() == BL_SPACEDIM";;
  b' ← Copy_Array_PArray (b c) b_;
  mret (with_coeff s (coeff_with_b c general_eq b')).

(** [set_bcoef (Array<PArray<MultiFab> >& b)] *)
Definition set_bcoef_Array (s : FMultiGrid) (b_ : Array (PArray addr))
    : result FMultiGrid :=
  let c := m_coeff s in
  BL_ASSERT (is_invalid_or_general (eq_type c))
    "m_coeff.eq_type == invalid_eq || m_coeff.eq_type == general_eq";;
  BL_ASSERT (negb (b_set c)) "!m_coeff.b_set";;
  BL_ASSERT (bool_decide (m_nlevels s = length b_)) "m_nlevels == b.size()";;
  b0 ← Array_at b_ 0;
  BL_ASSERT (bool_decide (length b0 = BL_SPACEDIM))
            "b[0].size() == BL_SPACEDIM";;
  b' ← Copy_Array_Array (b c) b_;
  mret (with_coeff s (coeff_with_b c general_eq b')).

(** *** [Boundary::set_bndry_values] *)

Definition set_bndry_values (bc : Boundary) (st : Store) (bndry : MacBndry)
    (crse_ratio : IntVect) : result MacBndry :=
  let ref_ratio := TheZeroVector in
  let lo_bc := replicate BL_SPACEDIM 0%Z in
  let hi_bc := replicate BL_SPACEDIM 0%Z in
  let phys_bc := mkBCRec lo_bc hi_bc in
  match crse_phi bc, phi bc with
  | None, None =>
      mret (MacBndry_set bndry (HomogValues phys_bc ref_ratio))
  | None, Some phi =>
      mf ← deref st phi;
      mret (MacBndry_set bndry (FineValues phi 0 0 (nComp mf) phys_bc))
  | Some crse_phi, Some phi =>
      BL_ASSERT (negb (IntVect_eqb crse_ratio TheZeroVector))
                "crse_ratio != IntVect::TheZeroVector()";;
      mf ← deref st phi;
      let ncomp := nComp mf in
      let in_rad := 0%Z in
      let out_rad := 1%Z in
      let extent_rad := 2%Z in
      let crse_boxes := boxArray mf in
      let crse_boxes := BoxArray_coarsen crse_boxes crse_ratio in
      let crse_br :=
        mkBndryRegister crse_boxes in_rad out_rad extent_rad ncomp None in
      crse_mf ← deref st crse_phi;
      let crse_br :=
        BndryRegister_copyFrom crse_br crse_phi (nGrow crse_mf) 0 0 ncomp in
      mret (MacBndry_set bndry
              (CrseFineValues crse_br 0 phi 0 0 ncomp crse_ratio phys_bc))
  | Some _, None =>
      Abort "FMultiGrid::Boundary::build_bndry: How did we get here?"
  end.

(** *** [ABecCoeff::set_coeffs] *)

(** The body of the loop over [n] in one branch: [xa[lev][n] = v n;
    xb[lev][n] = v n]. *)
Definition fill_level (lev : nat) (v : nat → Real)
    (x : Array (Array Real) * Array (Array Real))
    : Array (Array Real) * Array (Array Real) :=
  foldl (λ '(xa, xb) n,
           (alter (<[n := v n]>) lev xa, alter (<[n := v n]>) lev xb))
        x (seq 0 BL_SPACEDIM).

(** The loop over the levels that fills [xa] and [xb]. *)
Definition transition_distances (fmg : FMultiGrid)
    : result (Array (Array Real) * Array (Array Real)) :=
  let xa := replicate (m_nlevels fmg) ([] : Array Real) in
  let xb := replicate (m_nlevels fmg) ([] : Array Real) in
  for_loop (m_nlevels fmg) (λ lev '(xa, xb),
    let xa := alter (Array_resize BL_SPACEDIM 0%float) lev xa in
    let xb := alter (Array_resize BL_SPACEDIM 0%float) lev xb in
    if (Z.of_nat lev + m_baselevel fmg =? 0)%Z then
      mret (fill_level lev (λ _, 0%float) (xa, xb))
    else if bool_decide (lev = 0%nat) then
      g ← Array_at (m_geom fmg) 0;
      let dx := CellSize g in
      mret (fill_level lev
              (λ n, (0.5 * Real_of_int (IntVect_at (m_crse_ratio fmg) n)
                     * dx_at dx n)%float) (xa, xb))
    else
      g ← Array_at (m_geom fmg) (lev - 1);
      let dx_crse := CellSize g in
      mret (fill_level lev (λ n, (0.5 * dx_at dx_crse n)%float) (xa, xb)))
    (xa, xb).

Definition set_coeffs (c : ABecCoeff) (mgt_solver : MGT_Solver)
    (fmg : FMultiGrid) : result MGT_Solver :=
  BL_ASSERT (0 <=? m_baselevel fmg)%Z "fmg.m_baselevel >= 0";;
  BL_ASSERT ((m_baselevel fmg =? 0)%Z
             || negb (IntVect_eqb (m_crse_ratio fmg) TheZeroVector))
    "fmg.m_baselevel == 0 || fmg.m_crse_ratio != IntVect::TheZeroVector()";;
  '(xa, xb) ← transition_distances fmg;
  if bool_decide (eq_type c = const_gravity_eq) then
    mret (MGT_with_coeffs mgt_solver (ConstGravityCoeffs xa xb))
  else if bool_decide (eq_type c = gravity_eq) then
    BL_ASSERT (b_set c) "b_set";;
    mret (MGT_with_coeffs mgt_solver (GravityCoeffs (b c) xa xb))
  else if bool_decide (eq_type c = general_eq) then
    BL_ASSERT (alpha_set c && a_set c && beta_set c && b_set c)
              "alpha_set && a_set && beta_set && b_set";;
    mret (MGT_with_coeffs mgt_solver
            (ABecLapCoeffs (alpha c) (a c) (beta c) (b c) xa xb))
  else
    Abort "FMultiGrid::ABecCoeff::set_coeffs: How did we get here?".

(** *** [init_mgt_solver] *)

Definition is_null {A : Type} (p : option A) : bool :=
  match p with
  | None => true
  | Some _ => false
  end.

(** [p->...] on an owning pointer. *)
Definition ptr_deref {A : Type} (p : option A) : result A :=
  match p with
  | Some x => Ok x
  | None => Fail NullDereference
  end.

(** The vectors [dmap] and [ba] are written at [ilev] in increasing order,
    so each write extends the part filled so far. *)
Definition init_mgt_solver (s : FMultiGrid) (st : Store) (phi : PArray addr)
    : result FMultiGrid :=
  BL_ASSERT (initilized (m_bc s)) "m_bc.initilized";;
  BL_ASSERT (negb (bool_decide (eq_type (m_coeff s) = invalid_eq)))
            "m_coeff.eq_type != invalid_eq";;
  BL_ASSERT (is_null (m_mgt_solver s)) "m_mgt_solver == 0";;
  phi0 ← PArray_at phi 0;
  mf0 ← deref st phi0;
  let ncomp := nComp mf0 in
  '(dmap, ba) ← for_loop (m_nlevels s) (λ ilev '(dmap, ba),
      p ← PArray_at phi ilev;
      mf ← deref st p;
      mret (dmap ++ [DistributionMap mf], ba ++ [boxArray mf])) ([], []);
  let nodal := false in
  let nc := 0%Z in
  let mgt := MGT_Solver_new (m_geom s) (get_mg_bc (m_bc s)) ba dmap nodal
               (m_stencil s) nodal nc ncomp (m_verbose s) in
  let s := with_solver s (Some mgt) in
  ba0 ← Array_at ba 0;
  g0 ← Array_at (m_geom s) 0;
  let bndry := MacBndry_new ba0 ncomp g0 in
  let s := with_bndry s (Some bndry) in
  bndry ← set_bndry_values (m_bc s) st bndry (m_crse_ratio s);
  let s := with_bndry s (Some bndry) in
  mgt ← set_coeffs (m_coeff s) mgt s;
  mret (with_solver s (Some mgt)).

(** *** [solve] and [compute_residual] *)

(** [solve (PArray<MultiFab>& phi, PArray<MultiFab>& rhs, ...)].  The
    pointer arrays [phi_p] and [rhs_p] are written at [ilev] in increasing
    order. *)
Definition solve_PArray (s : FMultiGrid) (st : Store) (phi rhs : PArray addr)
    (rel_tol abs_tol : Real) (always_use_bnorm need_grad_phi verbose : Z)
    : result (FMultiGrid * Store * Real) :=
  BL_ASSERT (initilized (m_bc s)) "m_bc.initilized";;
  BL_ASSERT (negb (bool_decide (eq_type (m_coeff s) = invalid_eq)))
            "m_coeff.eq_type != invalid_eq";;
  BL_ASSERT (is_null (m_mgt_solver s)) "m_mgt_solver == 0";;
  BL_ASSERT (is_null (m_bndry s)) "m_bndry == 0";;
  '(phi_p, rhs_p) ← for_loop (m_nlevels s) (λ ilev '(phi_p, rhs_p),
      p ← PArray_at phi ilev;
      r ← PArray_at rhs ilev;
      mret (phi_p ++ [p], rhs_p ++ [r])) ([], []);
  s ← init_mgt_solver s st phi;
  mgt ← ptr_deref (m_mgt_solver s);
  bndry ← ptr_deref (m_bndry s);
  let '(k, st, final_resnorm) :=
    kernel_solve mgt st phi_p rhs_p bndry rel_tol abs_tol
                 always_use_bnorm need_grad_phi in
  mret (with_solver s (Some (MGT_with_state mgt k)), st, final_resnorm).

(** [solve (MultiFab& phi, MultiFab& rhs, ...)] *)
Definition solve_MultiFab (s : FMultiGrid) (st : Store) (phi rhs : addr)
    (rel_tol abs_tol : Real) (always_use_bnorm need_grad_phi verbose : Z)
    : result (FMultiGrid * Store * Real) :=
  let phi_p := Copy_MultiFab [] phi in
  let rhs_p := Copy_MultiFab [] rhs in
  solve_PArray s st phi_p rhs_p rel_tol abs_tol
               always_use_bnorm need_grad_phi verbose.

(** [compute_residual (PArray<MultiFab>&, PArray<MultiFab>&,
    PArray<MultiFab>&)] *)
Definition compute_residual_PArray (s : FMultiGrid) (st : Store)
    (phi rhs res : PArray addr) : result (FMultiGrid * Store) :=
  BL_ASSERT (initilized (m_bc s)) "m_bc.initilized";;
  BL_ASSERT (negb (bool_decide (eq_type (m_coeff s) = invalid_eq)))
            "m_coeff.eq_type != invalid_eq";;
  BL_ASSERT (is_null (m_mgt_solver s)) "m_mgt_solver == 0";;
  BL_ASSERT (is_null (m_bndry s)) "m_bndry == 0";;
  '(phi_p, rhs_p, res_p) ← for_loop (m_nlevels s)
    (λ ilev '(phi_p, rhs_p, res_p),
      p ← PArray_at phi ilev;
      r ← PArray_at rhs ilev;
      q ← PArray_at res ilev;
      mret (phi_p ++ [p], rhs_p ++ [r], res_p ++ [q])) ([], [], []);
  s ← init_mgt_solver s st phi;
  mgt ← ptr_deref (m_mgt_solver s);
  bndry ← ptr_deref (m_bndry s);
  let '(k, st) := kernel_compute_residual mgt st phi_p rhs_p res_p bndry in
  mret (with_solver s (Some (MGT_with_state mgt k)), st).

(** [compute_residual (MultiFab& phi, MultiFab& rhs, MultiFab& res)] *)
Definition compute_residual_MultiFab (s : FMultiGrid) (st : Store)
    (phi rhs res : addr) : result (FMultiGrid * Store) :=
  let phi_p := Copy_MultiFab [] phi in
  let rhs_p := Copy_MultiFab [] rhs in
  let res_p := Copy_MultiFab [] res in
  compute_residual_PArray s st phi_p rhs_p res_p.

(** *** [get_grad_phi]

    In [m_mgt_solver->get_fluxes(ilev, grad_phi[ilev], dx)] the arguments
    are evaluated, then the call goes through the handle. *)

(** [get_grad_phi (PArray<MultiFab>& grad_phi)] *)
Definition get_grad_phi_PArray (s : FMultiGrid) (st : Store)
    (grad_phi : PArray addr) : result Store :=
  BL_ASSERT (bool_decide (m_nlevels s = 1%nat)) "m_nlevels == 1";;
  g ← Array_at (m_geom s) 0;
  let dx := CellSize g in
  mgt ← ptr_deref (m_mgt_solver s);
  mret (kernel_get_fluxes mgt st 0 grad_phi dx).

(** [get_grad_phi (Array<PArray<MultiFab> >& grad_phi)] *)
Definition get_grad_phi_Array (s : FMultiGrid) (st : Store)
    (grad_phi : Array (PArray addr)) : result Store :=
  for_loop (m_nlevels s) (λ ilev st,
    g ← Array_at (m_geom s) ilev;
    let dx := CellSize g in
    gp ← Array_at grad_phi ilev;
    mgt ← ptr_deref (m_mgt_solver s);
    mret (kernel_get_fluxes mgt st ilev gp dx)) st.

(** [get_grad_phi (PArray<PArray<MultiFab> >& grad_phi)] *)
Definition get_grad_phi_PArray_PArray (s : FMultiGrid) (st : Store)
    (grad_phi : PArray (PArray addr)) : result Store :=
  for_loop (m_nlevels s) (λ ilev st,
    g ← Array_at (m_geom s) ilev;
    let dx := CellSize g in
    gp ← PArray_at grad_phi ilev;
    mgt ← ptr_deref (m_mgt_solver s);
    mret (kernel_get_fluxes mgt st ilev gp dx)) st.

(** *** The public interface as a transition system *)

Inductive Call : Type :=
  | call_set_bc (mg_bc : list Z)
  | call_set_bc_phi (mg_bc : list Z) (phi : addr)
  | call_set_bc_crse_phi (mg_bc : list Z) (crse_phi phi : addr)
  | call_set_const_gravity_coeffs
  | call_set_gravity_coeffs_PArray (b : PArray addr)
  | call_set_gravity_coeffs_Array (b : Array (PArray addr))
  | call_set_alpha (alpha : Real)
  | call_set_acoef_MultiFab (a : addr)
  | call_set_acoef_PArray (a : PArray addr)
  | call_set_beta (beta : Real)
  | call_set_bcoef_ptr (b : addr)
  | call_set_bcoef_PArray (b : PArray addr)
  | call_set_bcoef_Array (b : Array (PArray addr))
  | call_solve_MultiFab (phi rhs : addr) (rel_tol abs_tol : Real)
      (always_use_bnorm need_grad_phi verbose : Z)
  | call_solve_PArray (phi rhs : PArray addr) (rel_tol abs_tol : Real)
      (always_use_bnorm need_grad_phi verbose : Z)
  | call_get_grad_phi_PArray (grad_phi : PArray addr)
  | call_get_grad_phi_Array (grad_phi : Array (PArray addr))
  | call_get_grad_phi_PArray_PArray (grad_phi : PArray (PArray addr))
  | call_compute_residual_MultiFab (phi rhs res : addr)
  | call_compute_residual_PArray (phi rhs res : PArray addr).

Definition keep_store (st : Store) (r : result FMultiGrid)
    : result (FMultiGrid * Store) :=
  s ← r; mret (s, st).

Definition keep_object (s : FMultiGrid) (r : result Store)
    : result (FMultiGrid * Store) :=
  st ← r; mret (s, st).

(** One public call on the object [s], with the caller's fields in [st]. *)
Definition run_call (s : FMultiGrid) (st : Store) (c : Call)
    : result (FMultiGrid * Store) :=
  match c with
  | call_set_bc mg_bc => keep_store st (set_bc s mg_bc)
  | call_set_bc_phi mg_bc phi => keep_store st (set_bc_phi s mg_bc phi)
  | call_set_bc_crse_phi mg_bc crse_phi phi =>
      keep_store st (set_bc_crse_phi s mg_bc crse_phi phi)
  | call_set_const_gravity_coeffs =>
      keep_store st (set_const_gravity_coeffs s)
  | call_set_gravity_coeffs_PArray b =>
      keep_store st (set_gravity_coeffs_PArray s b)
  | call_set_gravity_coeffs_Array b =>
      keep_store st (set_gravity_coeffs_Array s b)
  | call_set_alpha alpha => keep_store st (set_alpha s alpha)
  | call_set_acoef_MultiFab a => keep_store st (set_acoef_MultiFab s a)
  | call_set_acoef_PArray a => keep_store st (set_acoef_PArray s a)
  | call_set_beta beta => keep_store st (set_beta s beta)
  | call_set_bcoef_ptr b => keep_store st (set_bcoef_ptr s b)
  | call_set_bcoef_PArray b => keep_store st (set_bcoef_PArray s b)
  | call_set_bcoef_Array b => keep_store st (set_bcoef_Array s b)
  | call_solve_MultiFab phi rhs rel_tol abs_tol bnorm need verbose =>
      '(s, st, _) ← solve_MultiFab s st phi rhs rel_tol abs_tol
                                   bnorm need verbose;
      mret (s, st)
  | call_solve_PArray phi rhs rel_tol abs_tol bnorm need verbose =>
      '(s, st, _) ← solve_PArray s st phi rhs rel_tol abs_tol
                                 bnorm need verbose;
      mret (s, st)
  | call_get_grad_phi_PArray grad_phi =>
      keep_object s (get_grad_phi_PArray s st grad_phi)
  | call_get_grad_phi_Array grad_phi =>
      keep_object s (get_grad_phi_Array s st grad_phi)
  | call_get_grad_phi_PArray_PArray grad_phi =>
      keep_object s (get_grad_phi_PArray_PArray s st grad_phi)
  | call_compute_residual_MultiFab phi rhs res =>
      compute_residual_MultiFab s st phi rhs res
  | call_compute_residual_PArray phi rhs res =>
      compute_residual_PArray s st phi rhs res
  end.

(** The objects a program can hold: built by a constructor, then driven by
    public calls that returned, over whatever fields the caller has. *)
Inductive reachable : FMultiGrid → Prop :=
  | reach_Geometry geom baselevel crse_ratio s :
      FMultiGrid_Geometry geom baselevel crse_ratio = Ok s → reachable s
  | reach_vector geom baselevel crse_ratio s :
      FMultiGrid_vector geom baselevel crse_ratio = Ok s → reachable s
  | reach_PArray geom baselevel crse_ratio s :
      FMultiGrid_PArray geom baselevel crse_ratio = Ok s → reachable s
  | reach_call s st c s' st' :
      reachable s → run_call s st c = Ok (s', st') → reachable s'.

(** *** The transition distances as the specification states them

    [cell_size_of_level fmg k] is the cell size of local level [k]. *)
Definition cell_size_of_level (fmg : FMultiGrid) (k : nat) : list Real :=
  CellSize (nth k (m_geom fmg) Geometry_default).

(** The distance of level [L] in dimension [dim], by the three cases of the
    specification. *)
Definition transition_distance_spec (fmg : FMultiGrid) (L dim : nat) : Real :=
  if (Z.of_nat L + m_baselevel fmg =? 0)%Z then 0%float
  else if bool_decide (L = 0%nat) then
    (0.5 * Real_of_int (IntVect_at (m_crse_ratio fmg) dim)
     * dx_at (cell_size_of_level fmg 0) dim)%float
  else (0.5 * dx_at (cell_size_of_level fmg (L - 1)) dim)%float.

(** The inner loop over [n] on one row. *)
Definition fill_row (v : nat → Real) (row : Array Real) : Array Real :=
  foldl (λ r n, <[n := v n]> r) row (seq 0 BL_SPACEDIM).

(** *** Consistency of an object

    What every constructor establishes and every public call keeps. *)

(** The sub-value flags agree with the variant tag. *)
Definition coeff_consistent (c : ABecCoeff) : Prop :=
  match eq_type c with
  | invalid_eq | const_gravity_eq =>
      alpha_set c = false ∧ a_set c = false ∧ beta_set c = false
      ∧ b_set c = false
  | gravity_eq =>
      alpha_set c = false ∧ a_set c = false ∧ beta_set c = false
      ∧ b_set c = true
  | general_eq => True
  end.

(** A coarse field comes with a fine field, and only once set. *)
Definition bc_consistent (bc : Boundary) : Prop :=
  (is_Some (crse_phi bc) → is_Some (phi bc))
  ∧ (initilized bc = false → crse_phi bc = None ∧ phi bc = None).

Definition consistent (s : FMultiGrid) : Prop :=
  length (m_geom s) = m_nlevels s
  ∧ coeff_consistent (m_coeff s)
  ∧ bc_consistent (m_bc s)
  ∧ ((0 < m_baselevel s)%Z →
     IntVect_eqb (m_crse_ratio s) TheZeroVector = false)
  ∧ (is_Some (crse_phi (m_bc s)) →
     IntVect_eqb (m_crse_ratio s) TheZeroVector = false)
  ∧ (is_Some (m_mgt_solver s) ↔ is_Some (m_bndry s))
  ∧ (is_Some (m_mgt_solver s) →
     initilized (m_bc s) = true ∧ eq_type (m_coeff s) ≠ invalid_eq).

(** Everything but the two owned handles is the same in [s] and [s']. *)
Definition same_configuration (s s' : FMultiGrid) : Prop :=
  m_nlevels s' = m_nlevels s ∧ m_baselevel s' = m_baselevel s
  ∧ m_crse_ratio s' = m_crse_ratio s ∧ m_stencil s' = m_stencil s
  ∧ m_verbose s' = m_verbose s ∧ m_geom s' = m_geom s
  ∧ m_bc s' = m_bc s ∧ m_coeff s' = m_coeff s.

(** *** Groups of public calls *)

Definition is_set_bc (c : Call) : bool :=
  match c with
  | call_set_bc _ | call_set_bc_phi _ _ | call_set_bc_crse_phi _ _ _ => true
  | _ => false
  end.

Definition is_coeff_setter (c : Call) : bool :=
  match c with
  | call_set_const_gravity_coeffs
  | call_set_gravity_coeffs_PArray _ | call_set_gravity_coeffs_Array _
  | call_set_alpha _ | call_set_acoef_MultiFab _ | call_set_acoef_PArray _
  | call_set_beta _
  | call_set_bcoef_ptr _ | call_set_bcoef_PArray _ | call_set_bcoef_Array _ =>
      true
  | _ => false
  end.

(** The variant a coefficient setter asks for: the tag it stores. *)
Definition requested_variant (c : Call) : EqType :=
  match c with
  | call_set_const_gravity_coeffs => const_gravity_eq
  | call_set_gravity_coeffs_PArray _ | call_set_gravity_coeffs_Array _ =>
      gravity_eq
  | _ => general_eq
  end.

(** Whether the sub-value a coefficient setter provides is marked as set;
    the constant-gravity setter provides none. *)
Definition sub_value_set (c : Call) (co : ABecCoeff) : bool :=
  match c with
  | call_set_alpha _ => alpha_set co
  | call_set_acoef_MultiFab _ | call_set_acoef_PArray _ => a_set co
  | call_set_beta _ => beta_set co
  | call_set_gravity_coeffs_PArray _ | call_set_gravity_coeffs_Array _
  | call_set_bcoef_ptr _ | call_set_bcoef_PArray _ | call_set_bcoef_Array _ =>
      b_set co
  | _ => false
  end.

Definition is_solve_or_residual (c : Call) : bool :=
  match c with
  | call_solve_MultiFab _ _ _ _ _ _ _ | call_solve_PArray _ _ _ _ _ _ _
  | call_compute_residual_MultiFab _ _ _
  | call_compute_residual_PArray _ _ _ => true
  | _ => false
  end.

(** The overloads that take the fields of one level. *)
Definition is_single_level (c : Call) : bool :=
  match c with
  | call_set_acoef_MultiFab _ | call_set_bcoef_ptr _ | call_set_bcoef_PArray _
  | call_set_gravity_coeffs_PArray _ | call_get_grad_phi_PArray _ => true
  | _ => false
  end.

(** The fields of the first [n] levels are there: no null slot, no dangling
    address. *)
Definition fields_live (st : Store) (l : PArray addr) (n : nat) : Prop :=
  ∀ i, i < n → ∃ p mf, l !! i = Some (Some p) ∧ st !! p = Some mf.

(** The conditions under which the lazy construction goes through. *)
Definition ready_to_solve (s : FMultiGrid) (st : Store)
    (fields : PArray addr) : Prop :=
  initilized (m_bc s) = true ∧ eq_type (m_coeff s) ≠ invalid_eq
  ∧ m_mgt_solver s = None
  ∧ 0 < m_nlevels s ∧ (0 ≤ m_baselevel s)%Z
  ∧ fields_live st fields (m_nlevels s)
  ∧ (∀ p, crse_phi (m_bc s) = Some p → is_Some (st !! p))
  ∧ (∀ p, phi (m_bc s) = Some p → is_Some (st !! p))
  ∧ (eq_type (m_coeff s) = general_eq →
     alpha_set (m_coeff s) && a_set (m_coeff s) && beta_set (m_coeff s)
     && b_set (m_coeff s) = true).

(** *** Sequences of calls *)

(** The calls of a list, one after the other. *)
Fixpoint run_calls (s : FMultiGrid) (st : Store) (cs : list Call)
    : result (FMultiGrid * Store) :=
  match cs with
  | [] => Ok (s, st)
  | c :: cs => '(s, st) ← run_call s st c; run_calls s st cs
  end.

(** The four sub-values of the general variant, and the one a setter of
    the general variant provides. *)
Inductive SubValue : Type := sv_alpha | sv_a | sv_beta | sv_b.

Definition general_sub_value (c : Call) : option SubValue :=
  match c with
  | call_set_alpha _ => Some sv_alpha
  | call_set_acoef_MultiFab _ | call_set_acoef_PArray _ => Some sv_a
  | call_set_beta _ => Some sv_beta
  | call_set_bcoef_ptr _ | call_set_bcoef_PArray _ | call_set_bcoef_Array _ =>
      Some sv_b
  | _ => None
  end.



(** A result that is not a [BoxLib::Abort]. *)
Definition no_abort {A : Type} (r : result A) : Prop :=
  ∀ msg, r ≠ Fail (Aborted msg).


End Model.

Abbreviation Store := (list MultiFab) (only parsing).

(** * A two-dimensional instance

    A build with [BL_SPACEDIM = 2] over a kernel that only counts its
    calls: [solve] reports a residual norm of 0 and no operation writes a
    field.  Box arrays are lists of boxes given by their two corners, and
    coarsening divides the corners by the ratio. *)

Definition Box2D : Type := list Z * list Z.

Definition coarsen2D (ba : list Box2D) (ratio : IntVect) : list Box2D :=
  map (λ '(lo, hi), (zip_with Z.div lo ratio, zip_with Z.div hi ratio)) ba.

Definition layout2D : Layout := {|
  BL_SPACEDIM := 2;
  BoxArray := list Box2D;
  DistributionMapping := list Z;
  FabData := unit;
  KernelState := nat;
  BoxArray_coarsen := coarsen2D;
  kernel_init := 0%nat
|}.

(** The number of kernel calls a handle has seen. *)
Definition calls2D (mgt : @MGT_Solver layout2D) : nat := mgt_state mgt.

Definition kernel2D : @Kernel layout2D := {|
  kernel_solve := λ mgt st _ _ _ _ _ _ _, (S (calls2D mgt), st, 0%float);
  kernel_compute_residual := λ mgt st _ _ _ _, (S (calls2D mgt), st);
  kernel_get_fluxes := λ _ st _ _ _, st
|}.

(** One level of cell size (0.1, 0.1), and one of cell size (0.05, 0.05). *)
Definition geom_tenth : Geometry := mkGeometry [0.1; 0.1]%float.
Definition geom_twentieth : Geometry := mkGeometry [0.05; 0.05]%float.

(** A one-component field with one ghost cell on the box (0,0)-(7,7). *)
Definition field2D : @MultiFab layout2D :=
  {| nComp := 1; nGrow := 1;
     boxArray := [([0; 0]%Z, [7; 7]%Z)] : @BoxArray layout2D;
     DistributionMap := [0%Z] : @DistributionMapping layout2D;
     fabs := () : @FabData layout2D |}.

(** The caller's fields: addresses 0 to 3. *)
Definition fields2D : list (@MultiFab layout2D) :=
  [field2D; field2D; field2D; field2D].

(** Boundary codes for the four faces. *)
Definition mg_bc2D : list Z := [0; 0; 0; 0]%Z.

(** A program: construct on one level at the root, set the boundary, choose
    the constant-gravity variant, solve for the field at address 0 with the
    right-hand side at address 1. *)
Definition fresh2D : result (@FMultiGrid layout2D) :=
  FMultiGrid_Geometry (L := layout2D) geom_tenth 0 [0; 0]%Z.

Definition configured2D : result (@FMultiGrid layout2D) :=
  s ← fresh2D;
  s ← set_bc s mg_bc2D;
  set_const_gravity_coeffs s.

Definition solved2D
    : result (@FMultiGrid layout2D * list (@MultiFab layout2D) * Real) :=
  s ← configured2D;
  solve_PArray (K := kernel2D) s fields2D [Some 0%nat] [Some 1%nat]
               1e-10%float 1e-10%float 0 1 0.

(** A fresh object on two levels. *)
Definition fresh_two_levels2D : result (@FMultiGrid layout2D) :=
  FMultiGrid_vector (L := layout2D) [geom_tenth; geom_twentieth] 0 [0; 0]%Z.

(** A handle and a boundary object as [init_mgt_solver] builds them for one
    level over [fields2D]. *)
Definition solver2D : @MGT_Solver layout2D :=
  MGT_Solver_new [geom_tenth] mg_bc2D [boxArray field2D]
                 [DistributionMap field2D] false CC_CROSS_STENCIL false 0 1 0.

Definition bndry2D : @MacBndry layout2D :=
  MacBndry_new (boxArray field2D) 1 geom_tenth.

(** * Properties *)

Section Properties.

Context `{L : Layout} `{K : Kernel}.

(** ** The error monad and the loops *)

Lemma bind_Ok {A B : Type} (m : result A) (k : A → result B) (y : B) :
  m ≫= k = Ok y ↔ ∃ x, m = Ok x ∧ k x = Ok y.
Proof.
  destruct m as [x|f]; simpl.
  - split; [intros H; exists x; auto | intros (x' & [= <-] & H); exact H].
  - split; [discriminate | intros (x' & [=] & _)].
Qed.

Lemma BL_ASSERT_Ok (cond : bool) (expr : string) (u : unit) :
  BL_ASSERT cond expr = Ok u ↔ cond = true.
Proof. destruct cond, u; simpl; split; congruence. Qed.

Lemma BL_ASSERT_true {A : Type} (cond : bool) (expr : string)
    (k : result A) :
  cond = true → (BL_ASSERT cond expr;; k) = k.
Proof. intros ->. reflexivity. Qed.

Lemma BL_ASSERT_false {A : Type} (cond : bool) (expr : string)
    (k : result A) :
  cond = false → (BL_ASSERT cond expr;; k) = Fail (AssertionFailed expr).
Proof. intros ->. reflexivity. Qed.

(** Splits the chains of binds that returned. *)
Ltac inv_ok_step :=
  match goal with
  | H : (BL_ASSERT ?c ?e ≫= _) = Ok _ |- _ =>
      let Hc := fresh "Hassert" in
      destruct c eqn:Hc; [simpl in H | discriminate H]
  | H : (?m ≫= _) = Ok _ |- _ =>
      apply bind_Ok in H; destruct H as (? & ? & H)
  | H : match ?p with pair _ _ => _ end = Ok _ |- _ => destruct p
  | H : mret _ = Ok _ |- _ => injection H; clear H; intros
  | H : Ok _ = Ok _ |- _ => injection H; clear H; intros
  | H : (_, _) = (_, _) |- _ => injection H; clear H; intros
  end.

Ltac inv_ok := repeat inv_ok_step.

Lemma for_each_app {S : Type} (l1 l2 : list nat) (body : nat → S → result S)
    (s : S) :
  for_each (l1 ++ l2) body s = (s' ← for_each l1 body s; for_each l2 body s').
Proof.
  revert s. induction l1 as [|i l1 IH]; intros s; simpl; [reflexivity|].
  destruct (body i s) as [s1|f]; simpl; [apply IH | reflexivity].
Qed.

Lemma for_loop_S {S : Type} (n : nat) (body : nat → S → result S) (s : S) :
  for_loop (Datatypes.S n) body s = (s' ← for_loop n body s; body n s').
Proof.
  unfold for_loop. rewrite seq_S, for_each_app. simpl.
  destruct (for_each (seq 0 n) body s) as [s1|f]; simpl; [|reflexivity].
  destruct (body n s1); reflexivity.
Qed.

(** A loop whose body returns under the invariant returns, and
    establishes the invariant at the bound. *)
Lemma for_loop_total {S : Type} (I : nat → S → Prop) (n : nat)
    (body : nat → S → result S) (s0 : S) :
  I 0%nat s0 →
  (∀ i s, i < n → I i s → ∃ s', body i s = Ok s' ∧ I (Datatypes.S i) s') →
  ∃ s', for_loop n body s0 = Ok s' ∧ I n s'.
Proof.
  intros H0 Hstep. induction n as [|n IH].
  - exists s0. split; [reflexivity | exact H0].
  - destruct IH as (s1 & Hrun & HI).
    { intros i s Hi. apply Hstep. lia. }
    destruct (Hstep n s1 (Nat.lt_succ_diag_r n) HI) as (s2 & Hbody & HI2).
    exists s2. split; [|exact HI2].
    rewrite for_loop_S, Hrun. exact Hbody.
Qed.

(** A loop that returned kept every invariant its body keeps. *)
Lemma for_loop_inv {S : Type} (I : nat → S → Prop) (n : nat)
    (body : nat → S → result S) (s0 s' : S) :
  I 0%nat s0 →
  (∀ i s s1, i < n → I i s → body i s = Ok s1 → I (Datatypes.S i) s1) →
  for_loop n body s0 = Ok s' → I n s'.
Proof.
  intros H0 Hstep. revert s'. induction n as [|n IH]; intros s' Hrun.
  - injection Hrun as <-. exact H0.
  - rewrite for_loop_S in Hrun. apply bind_Ok in Hrun.
    destruct Hrun as (s1 & Hrun & Hbody).
    apply (Hstep n s1 s'); [lia | | exact Hbody].
    apply IH; [|exact Hrun]. intros i s s2 Hi. apply Hstep. lia.
Qed.

(** ** [IntVect] comparison *)

Lemma IntVect_eqb_true (v w : IntVect) :
  IntVect_eqb v w = true ↔
  ∀ n, n < BL_SPACEDIM → IntVect_at v n = IntVect_at w n.
Proof.
  unfold IntVect_eqb. rewrite forallb_forall. split.
  - intros H n Hn. apply Z.eqb_eq, H, in_seq. lia.
  - intros H n Hn. apply Z.eqb_eq, H. apply in_seq in Hn. lia.
Qed.

Lemma TheZeroVector_at (n : nat) : IntVect_at TheZeroVector n = 0%Z.
Proof.
  unfold IntVect_at, TheZeroVector.
  destruct (decide (n < BL_SPACEDIM)) as [Hn|Hn].
  - apply nth_lookup_Some with (d := 0%Z). apply lookup_replicate. auto.
  - apply nth_overflow. rewrite length_replicate. lia.
Qed.

(** The comparison the constructors and [set_bc] make holds exactly when
    every component is zero. *)
Lemma IntVect_eqb_zero (v : IntVect) :
  IntVect_eqb v TheZeroVector = true ↔
  ∀ n, n < BL_SPACEDIM → IntVect_at v n = 0%Z.
Proof.
  rewrite IntVect_eqb_true. split; intros H n Hn.
  - rewrite <- (TheZeroVector_at n). auto.
  - rewrite TheZeroVector_at. auto.
Qed.

(** ** The transition distances *)

Lemma fill_level_alter (lev : nat) (v : nat → Real)
    (xa xb : Array (Array Real)) :
  fill_level lev v (xa, xb)
  = (alter (fill_row v) lev xa, alter (fill_row v) lev xb).
Proof.
  unfold fill_level, fill_row. generalize (seq 0 BL_SPACEDIM) as l.
  intros l. revert xa xb. induction l as [|n l IH]; intros xa xb; simpl.
  - f_equal; symmetry; apply list_alter_id; reflexivity.
  - rewrite IH. f_equal; rewrite list_alter_alter_eq; reflexivity.
Qed.

Lemma foldl_insert_length (v : nat → Real) (l : list nat) (r : Array Real) :
  length (foldl (λ r n, <[n := v n]> r) r l) = length r.
Proof.
  revert r. induction l as [|m l IH]; intros r; simpl; [reflexivity|].
  rewrite IH. apply length_insert.
Qed.

Lemma foldl_insert_other (v : nat → Real) (l : list nat) (r : Array Real)
    (n : nat) :
  n ∉ l → foldl (λ r n, <[n := v n]> r) r l !! n = r !! n.
Proof.
  revert r. induction l as [|m l IH]; intros r Hn; simpl; [reflexivity|].
  apply not_elem_of_cons in Hn as [Hne Hn].
  rewrite IH by exact Hn. apply list_lookup_insert_ne. congruence.
Qed.

Lemma foldl_insert_lookup (v : nat → Real) (l : list nat) (r : Array Real)
    (n : nat) :
  n ∈ l → n < length r →
  foldl (λ r n, <[n := v n]> r) r l !! n = Some (v n).
Proof.
  revert r. induction l as [|m l IH]; intros r Hn Hlen; simpl.
  - apply elem_of_nil in Hn. contradiction.
  - destruct (decide (n ∈ l)) as [Hin|Hout].
    + apply IH; [exact Hin | rewrite length_insert; exact Hlen].
    + apply elem_of_cons in Hn as [->|Hin]; [|contradiction].
      rewrite foldl_insert_other by exact Hout.
      apply list_lookup_insert_eq. exact Hlen.
Qed.

Lemma fill_row_length (v : nat → Real) (r : Array Real) :
  length (fill_row v r) = length r.
Proof. apply foldl_insert_length. Qed.

Lemma fill_row_lookup (v : nat → Real) (r : Array Real) (n : nat) :
  n < BL_SPACEDIM → n < length r → fill_row v r !! n = Some (v n).
Proof.
  intros Hn Hlen. apply foldl_insert_lookup; [|exact Hlen].
  apply elem_of_seq. lia.
Qed.

Lemma Array_resize_length {A : Type} (n : nat) (d : A) (l : Array A) :
  length (Array_resize n d l) = n.
Proof.
  unfold Array_resize. rewrite length_app, length_take, length_replicate. lia.
Qed.

Lemma Array_at_Ok {A : Type} (l : Array A) (i : nat) (x : A) :
  Array_at l i = Ok x ↔ l !! i = Some x.
Proof.
  unfold Array_at. destruct (l !! i); split; congruence.
Qed.

Lemma PArray_at_Ok {A : Type} (l : PArray A) (i : nat) (x : A) :
  l !! i = Some (Some x) → PArray_at l i = Ok x.
Proof. unfold PArray_at. intros ->. reflexivity. Qed.

Lemma Array_at_nth {A : Type} (l : Array A) (i : nat) (d : A) :
  i < length l → Array_at l i = Ok (nth i l d).
Proof.
  intros Hi. apply Array_at_Ok.
  destruct (nth_lookup_or_length l i d) as [H|H]; [exact H | lia].
Qed.

(** What the loop over the levels has established after [k] rounds. *)
Definition distances_filled (fmg : FMultiGrid) (k : nat)
    (x : Array (Array Real) * Array (Array Real)) : Prop :=
  length x.1 = m_nlevels fmg ∧ length x.2 = m_nlevels fmg ∧
  ∀ lev, lev < k →
    ∃ row, x.1 !! lev = Some row ∧ x.2 !! lev = Some row ∧
           length row = BL_SPACEDIM ∧
           ∀ n, n < BL_SPACEDIM →
                row !! n = Some (transition_distance_spec fmg lev n).

Lemma distances_step (fmg : FMultiGrid) (lev : nat) (v : nat → Real)
    (xa xb : Array (Array Real)) :
  lev < m_nlevels fmg →
  (∀ n, v n = transition_distance_spec fmg lev n) →
  distances_filled fmg lev (xa, xb) →
  distances_filled fmg (S lev)
    (fill_level lev v
       (alter (Array_resize BL_SPACEDIM 0%float) lev xa,
        alter (Array_resize BL_SPACEDIM 0%float) lev xb)).
Proof.
  intros Hlev Hv (Hla & Hlb & Hrows). simpl in Hla, Hlb.
  rewrite fill_level_alter, !list_alter_alter_eq.
  split; [|split]; simpl.
  - rewrite length_alter. exact Hla.
  - rewrite length_alter. exact Hlb.
  - intros l Hl. destruct (decide (l = lev)) as [->|Hne].
    + destruct (lookup_lt_is_Some_2 xa lev) as [ra Hra]; [lia|].
      destruct (lookup_lt_is_Some_2 xb lev) as [rb Hrb]; [lia|].
      exists (fill_row v (Array_resize BL_SPACEDIM 0%float ra)).
      assert (Hsame : fill_row v (Array_resize BL_SPACEDIM 0%float rb)
                    = fill_row v (Array_resize BL_SPACEDIM 0%float ra)).
      { apply list_eq. intros n.
        destruct (decide (n < BL_SPACEDIM)) as [Hn|Hn].
        - rewrite !fill_row_lookup; auto; rewrite Array_resize_length; auto.
        - rewrite !lookup_ge_None_2; auto;
            rewrite fill_row_length, Array_resize_length; lia. }
      repeat split.
      * rewrite list_lookup_alter_eq, Hra. reflexivity.
      * rewrite list_lookup_alter_eq, Hrb. simpl. f_equal. exact Hsame.
      * rewrite fill_row_length. apply Array_resize_length.
      * intros n Hn. rewrite fill_row_lookup, Hv; auto.
        rewrite Array_resize_length. exact Hn.
    + destruct (Hrows l) as (row & Ha & Hb & Hrow); [lia|].
      exists row. rewrite !list_lookup_alter_ne by congruence. auto.
Qed.

(** The loop returns on every object whose geometry array has one entry
    per level, and each entry of [xa] and [xb] is the distance the
    specification gives. *)
Lemma transition_distances_correct (fmg : FMultiGrid) :
  length (m_geom fmg) = m_nlevels fmg →
  ∃ xa xb, transition_distances fmg = Ok (xa, xb) ∧
           distances_filled fmg (m_nlevels fmg) (xa, xb).
Proof.
  intros Hgeom. unfold transition_distances.
  match goal with |- context [for_loop ?n ?body ?s0] =>
    destruct (for_loop_total (distances_filled fmg) n body s0)
      as ([xa xb] & Hrun & HI)
  end.
  - split; [|split]; simpl; try apply length_replicate. intros lev Hlev. lia.
  - intros lev [xa xb] Hlev HI.
    destruct (Z.of_nat lev + m_baselevel fmg =? 0)%Z eqn:Hroot.
    + eexists. split; [reflexivity|]. apply distances_step; auto.
      intros n. unfold transition_distance_spec. rewrite Hroot. reflexivity.
    + case_bool_decide as Hzero.
      * rewrite (Array_at_nth _ _ Geometry_default) by lia. simpl.
        eexists. split; [reflexivity|]. apply distances_step; auto.
        intros n. unfold transition_distance_spec. rewrite Hroot.
        rewrite bool_decide_eq_true_2 by exact Hzero. reflexivity.
      * rewrite (Array_at_nth _ _ Geometry_default) by lia. simpl.
        eexists. split; [reflexivity|]. apply distances_step; auto.
        intros n. unfold transition_distance_spec. rewrite Hroot.
        rewrite bool_decide_eq_false_2 by exact Hzero. reflexivity.
  - exists xa, xb. auto.
Qed.

(** ** Consistency is an invariant *)

Lemma members_consistent (nlevels : nat) (baselevel : Z) (r : IntVect)
    (g : list Geometry) :
  length g = nlevels →
  (0 <? baselevel)%Z && IntVect_eqb r TheZeroVector = false →
  consistent (with_geom (FMultiGrid_members nlevels baselevel r) g).
Proof.
  intros Hg Hr. unfold consistent, coeff_consistent, bc_consistent. simpl.
  split_and!; auto; try (intros [? [=]]).
  - intros Hb. apply Z.ltb_lt in Hb. rewrite Hb in Hr. exact Hr.
  - split; intros [? [=]].
Qed.

Lemma FMultiGrid_Geometry_consistent geom baselevel r s :
  FMultiGrid_Geometry geom baselevel r = Ok s → consistent s.
Proof.
  unfold FMultiGrid_Geometry. case_match; [discriminate|]. intros [= <-].
  apply members_consistent; [reflexivity | assumption].
Qed.

Lemma FMultiGrid_vector_consistent geom baselevel r s :
  FMultiGrid_vector geom baselevel r = Ok s → consistent s.
Proof.
  unfold FMultiGrid_vector. case_match; [discriminate|]. intros [= <-].
  apply members_consistent; [reflexivity | assumption].
Qed.

Lemma FMultiGrid_PArray_consistent geom baselevel r s :
  FMultiGrid_PArray geom baselevel r = Ok s → consistent s.
Proof.
  unfold FMultiGrid_PArray. intros H. apply bind_Ok in H as (g & Hg & H).
  case_match; [discriminate|]. injection H as <-.
  apply members_consistent; [|assumption].
  revert Hg. apply (for_loop_inv (λ _ g, length g = length geom)).
  - simpl. apply length_replicate.
  - intros i g0 g1 _ Hlen Hbody. inv_ok. subst g1.
    rewrite length_insert. exact Hlen.
Qed.

Lemma with_coeff_consistent (s : FMultiGrid) (c : ABecCoeff) :
  consistent s → coeff_consistent c →
  (eq_type (m_coeff s) ≠ invalid_eq → eq_type c ≠ invalid_eq) →
  consistent (with_coeff s c).
Proof.
  intros (Hg & Hc & Hb & Hr & Hcr & Hh & Hs) Hc' Htag.
  unfold consistent. simpl. split_and!; auto.
  intros Hsome. destruct (Hs Hsome). auto.
Qed.

Lemma with_bc_consistent (s : FMultiGrid) (bc : Boundary) :
  consistent s → bc_consistent bc → initilized bc = true →
  (is_Some (crse_phi bc) →
   IntVect_eqb (m_crse_ratio s) TheZeroVector = false) →
  consistent (with_bc s bc).
Proof.
  intros (Hg & Hc & Hb & Hr & Hcr & Hh & Hs) Hb' Hinit Hcr'.
  unfold consistent. simpl. split_and!; auto.
  intros Hsome. destruct (Hs Hsome). auto.
Qed.

Lemma deref_Ok (st : Store) (p : addr) (mf : MultiFab) :
  st !! p = Some mf → deref st p = Ok mf.
Proof. unfold deref. intros ->. reflexivity. Qed.

(** What [init_mgt_solver] checks and what it leaves behind. *)
Lemma init_mgt_solver_Ok (s : FMultiGrid) (st : Store) (phi : PArray addr)
    (s' : FMultiGrid) :
  init_mgt_solver s st phi = Ok s' →
  initilized (m_bc s) = true ∧ eq_type (m_coeff s) ≠ invalid_eq
  ∧ m_mgt_solver s = None
  ∧ same_configuration s s'
  ∧ is_Some (m_mgt_solver s') ∧ is_Some (m_bndry s').
Proof.
  unfold init_mgt_solver. intros H. inv_ok. subst s'. simpl.
  apply negb_true_iff, bool_decide_eq_false in Hassert0.
  destruct (m_mgt_solver s); [discriminate|].
  unfold same_configuration. simpl. split_and!; eauto.
Qed.

Lemma solve_PArray_Ok s st phi rhs rel_tol abs_tol bnorm need verbose
    s' st' resnorm :
  solve_PArray s st phi rhs rel_tol abs_tol bnorm need verbose
    = Ok (s', st', resnorm) →
  initilized (m_bc s) = true ∧ eq_type (m_coeff s) ≠ invalid_eq
  ∧ m_mgt_solver s = None ∧ m_bndry s = None
  ∧ same_configuration s s'
  ∧ is_Some (m_mgt_solver s') ∧ is_Some (m_bndry s').
Proof.
  unfold solve_PArray. intros H. inv_ok.
  subst.
  match goal with Hinit : init_mgt_solver _ _ _ = Ok _ |- _ =>
    apply init_mgt_solver_Ok in Hinit as (Hi & Ht & Hn & Hsame & Hm & Hb)
  end.
  destruct (m_bndry s); [discriminate|].
  unfold same_configuration in *. simpl. split_and!; try tauto; eauto.
Qed.

Lemma compute_residual_PArray_Ok s st phi rhs res s' st' :
  compute_residual_PArray s st phi rhs res = Ok (s', st') →
  initilized (m_bc s) = true ∧ eq_type (m_coeff s) ≠ invalid_eq
  ∧ m_mgt_solver s = None ∧ m_bndry s = None
  ∧ same_configuration s s'
  ∧ is_Some (m_mgt_solver s') ∧ is_Some (m_bndry s').
Proof.
  unfold compute_residual_PArray. intros H. inv_ok.
  subst.
  match goal with Hinit : init_mgt_solver _ _ _ = Ok _ |- _ =>
    apply init_mgt_solver_Ok in Hinit as (Hi & Ht & Hn & Hsame & Hm & Hb)
  end.
  destruct (m_bndry s); [discriminate|].
  unfold same_configuration in *. simpl. split_and!; try tauto; eauto.
Qed.

Lemma same_configuration_consistent (s s' : FMultiGrid) :
  consistent s → same_configuration s s' →
  initilized (m_bc s) = true → eq_type (m_coeff s) ≠ invalid_eq →
  is_Some (m_mgt_solver s') → is_Some (m_bndry s') →
  consistent s'.
Proof.
  intros (Hg & Hc & Hb & Hr & Hcr & Hh & Hs).
  intros (En & Ebl & Er & _ & _ & Eg & Eb & Ec) Hi Ht Hm Hbd.
  unfold consistent. rewrite En, Ebl, Er, Eg, Eb, Ec.
  split_and!; auto. tauto.
Qed.

Lemma is_invalid_or_general_true (t : EqType) :
  is_invalid_or_general t = true ↔ t = invalid_eq ∨ t = general_eq.
Proof. destruct t; unfold is_invalid_or_general; simpl; intuition congruence. Qed.

(** A setter of a general sub-value keeps the flags consistent. *)
Lemma general_consistent (c' : ABecCoeff) :
  eq_type c' = general_eq → coeff_consistent c'.
Proof. unfold coeff_consistent. intros ->. exact I. Qed.

Ltac coeff_setter :=
  inv_ok; subst;
  apply with_coeff_consistent; [assumption | | simpl; congruence];
  try (apply general_consistent; reflexivity).

Lemma run_call_consistent (s : FMultiGrid) (st : Store) (c : Call)
    (s' : FMultiGrid) (st' : Store) :
  consistent s → run_call s st c = Ok (s', st') → consistent s'.
Proof.
  intros Hs H.
  destruct c; simpl in H; unfold keep_store, keep_object in H.
  - unfold set_bc in H. inv_ok. subst.
    apply with_bc_consistent; [assumption | | reflexivity | intros [? [=]]].
    split; simpl; [intros [? [=]] | discriminate].
  - unfold set_bc_phi in H. inv_ok. subst.
    apply with_bc_consistent; [assumption | | reflexivity | intros [? [=]]].
    split; simpl; [eauto | discriminate].
  - unfold set_bc_crse_phi in H. inv_ok. subst.
    apply with_bc_consistent; [assumption | | reflexivity | ].
    + split; simpl; [eauto | discriminate].
    + intros _. apply negb_true_iff. assumption.
  - unfold set_const_gravity_coeffs in H. coeff_setter.
    apply bool_decide_eq_true in Hassert.
    destruct Hs as (_ & Hc & _). unfold coeff_consistent in *.
    rewrite Hassert in Hc. simpl. exact Hc.
  - unfold set_gravity_coeffs_PArray in H. coeff_setter.
    apply bool_decide_eq_true in Hassert.
    destruct Hs as (_ & Hc & _). unfold coeff_consistent in *.
    rewrite Hassert in Hc. simpl. tauto.
  - unfold set_gravity_coeffs_Array in H. coeff_setter.
    apply bool_decide_eq_true in Hassert.
    destruct Hs as (_ & Hc & _). unfold coeff_consistent in *.
    rewrite Hassert in Hc. simpl. tauto.
  - unfold set_alpha in H. coeff_setter.
  - unfold set_acoef_MultiFab in H. coeff_setter.
  - unfold set_acoef_PArray in H. coeff_setter.
  - unfold set_beta in H. coeff_setter.
  - unfold set_bcoef_ptr in H. coeff_setter.
  - unfold set_bcoef_PArray in H. coeff_setter.
  - unfold set_bcoef_Array in H. coeff_setter.
  - unfold solve_MultiFab in H. inv_ok. subst.
    match goal with Hr : solve_PArray _ _ _ _ _ _ _ _ _ = Ok _ |- _ =>
      apply solve_PArray_Ok in Hr as (Hi & Ht & _ & _ & Hsame & Hm & Hb)
    end.
    eapply same_configuration_consistent; eauto.
  - inv_ok. subst.
    match goal with Hr : solve_PArray _ _ _ _ _ _ _ _ _ = Ok _ |- _ =>
      apply solve_PArray_Ok in Hr as (Hi & Ht & _ & _ & Hsame & Hm & Hb)
    end.
    eapply same_configuration_consistent; eauto.
  - inv_ok. subst. assumption.
  - inv_ok. subst. assumption.
  - inv_ok. subst. assumption.
  - unfold compute_residual_MultiFab in H.
    apply compute_residual_PArray_Ok in H
      as (Hi & Ht & _ & _ & Hsame & Hm & Hb).
    eapply same_configuration_consistent; eauto.
  - apply compute_residual_PArray_Ok in H
      as (Hi & Ht & _ & _ & Hsame & Hm & Hb).
    eapply same_configuration_consistent; eauto.
Qed.

(** Every object a program can hold is consistent. *)
Lemma reachable_consistent (s : FMultiGrid) : reachable s → consistent s.
Proof.
  induction 1 as [g bl r s H | g bl r s H | g bl r s H | s st c s' st' _ IH H].
  - eapply FMultiGrid_Geometry_consistent, H.
  - eapply FMultiGrid_vector_consistent, H.
  - eapply FMultiGrid_PArray_consistent, H.
  - eapply run_call_consistent; eauto.
Qed.

(** ** Transition distances (C1) *)

(** C1.  On an object whose geometry array has one entry per level, the
    loop at the head of [ABecCoeff::set_coeffs] returns, and for every level
    [L] and dimension [dim] the entries [xa[L][dim]] and [xb[L][dim]] are
    equal and are: 0 when [L + B = 0]; otherwise, for [L = 0],
    [0.5 * refinement_ratio[dim] * cell_size_of_level(0)[dim]]; otherwise
    [0.5 * cell_size_of_level(L-1)[dim]].  In two dimensions: with base
    level 0 and one level of cell size (0.1, 0.1) both are (0, 0); with base
    level 1, ratio (2, 2) and cell size (0.05, 0.05) both are
    (0.05, 0.05).  A [set_coeffs] that returns has checked that the base
    level is not below zero (so at [L = 0] the second case means [B > 0])
    and has configured the kernel with these [xa] and [xb]. *)
Theorem transition_distances_as_specified (fmg : FMultiGrid)
    (Hgeom : length (m_geom fmg) = m_nlevels fmg) :
  (∃ xa xb,
     transition_distances fmg = Ok (xa, xb)
     ∧ length xa = m_nlevels fmg ∧ length xb = m_nlevels fmg
     ∧ ∀ L, L < m_nlevels fmg →
         ∃ row, xa !! L = Some row ∧ xb !! L = Some row
                ∧ length row = BL_SPACEDIM
                ∧ ∀ dim, dim < BL_SPACEDIM →
                    row !! dim = Some (transition_distance_spec fmg L dim))
  ∧ (BL_SPACEDIM = 2%nat → m_nlevels fmg = 1%nat → m_baselevel fmg = 0%Z →
     m_geom fmg = [mkGeometry [0.1; 0.1]%float] →
     transition_distances fmg
     = Ok ([[0; 0]%float], [[0; 0]%float]))
  ∧ (BL_SPACEDIM = 2%nat → m_nlevels fmg = 1%nat → m_baselevel fmg = 1%Z →
     m_crse_ratio fmg = [2; 2]%Z →
     m_geom fmg = [mkGeometry [0.05; 0.05]%float] →
     transition_distances fmg
     = Ok ([[0.05; 0.05]%float], [[0.05; 0.05]%float]))
  ∧ (∀ c mgt mgt', set_coeffs c mgt fmg = Ok mgt' →
       (0 ≤ m_baselevel fmg)%Z
       ∧ ∃ k, mgt_coeffs mgt' = Some k
              ∧ transition_distances fmg = Ok (coeffs_distances k)).
Proof.
  split_and!.
  - destruct (transition_distances_correct fmg Hgeom)
      as (xa & xb & Hrun & Hla & Hlb & Hrows).
    exists xa, xb. auto.
  - intros HD Hn Hb Hg. unfold transition_distances, fill_level.
    rewrite Hn, Hb, HD. reflexivity.
  - intros HD Hn Hb Hr Hg. unfold transition_distances, fill_level.
    rewrite Hn, Hb, Hr, Hg, HD. reflexivity.
  - intros c mgt mgt' H. unfold set_coeffs in H. inv_ok.
    split; [apply Z.leb_le; assumption|].
    repeat case_bool_decide; inv_ok; try discriminate H; subst mgt';
      eexists; (split; [reflexivity | assumption]).
Qed.

(** ** Loops over pointer arrays *)

Lemma for_each_fails_at {S : Type} (idx : list nat)
    (body : nat → S → result S) (s : S) (f : failure) :
  for_each idx body s = Fail f → ∃ i s', i ∈ idx ∧ body i s' = Fail f.
Proof.
  revert s. induction idx as [|i idx IH]; intros s H; simpl in H.
  - discriminate H.
  - destruct (body i s) as [s1|f1] eqn:Hb; simpl in H.
    + destruct (IH _ H) as (j & s' & Hj & Hf).
      exists j, s'. split; [right; exact Hj | exact Hf].
    + injection H as ->. exists i, s. split; [left | exact Hb].
Qed.

Lemma for_each_Ok_bodies {S : Type} (idx : list nat)
    (body : nat → S → result S) (s s' : S) :
  for_each idx body s = Ok s' →
  ∀ i, i ∈ idx → ∃ si si', body i si = Ok si'.
Proof.
  revert s. induction idx as [|j idx IH]; intros s H i Hi; simpl in H.
  - apply elem_of_nil in Hi. contradiction.
  - apply bind_Ok in H as (s1 & Hb & H).
    apply elem_of_cons in Hi as [->|Hi]; [eauto | eapply IH; eauto].
Qed.

(** A pointer array with a null slot has a first one. *)
Lemma null_slot {A : Type} (l : PArray A) :
  ¬ Forall is_Some l → ∃ i, i < length l ∧ l !! i = Some None.
Proof.
  intros H. apply not_Forall_Exists in H; [|apply _].
  apply Exists_exists in H as (x & Hx & Hnone).
  apply list_elem_of_lookup in Hx as (i & Hi).
  exists i. split; [eapply lookup_lt_Some; eauto|].
  destruct x; [exfalso; apply Hnone; eauto | exact Hi].
Qed.

(** A loop that reads every slot of a pointer array runs into its first
    null slot. *)
Lemma slots_loop_null {A S : Type} (src : PArray A)
    (g : nat → A → S → S) (s0 : S) :
  ¬ Forall is_Some src →
  for_loop (length src) (λ i s, p ← PArray_at src i; mret (g i p s)) s0
  = Fail NullDereference.
Proof.
  intros Hnull. apply null_slot in Hnull as (i & Hi & Hnone).
  unfold for_loop.
  destruct (for_each _ _ _) as [d|f] eqn:Hrun.
  - eapply for_each_Ok_bodies with (i := i) in Hrun
      as (si & si' & Hbody); [|apply elem_of_seq; lia].
    unfold PArray_at in Hbody. rewrite Hnone in Hbody. discriminate Hbody.
  - apply for_each_fails_at in Hrun as (j & s' & Hj & Hbody).
    apply elem_of_seq in Hj.
    destruct (lookup_lt_is_Some_2 src j) as [o Ho]; [lia|].
    unfold PArray_at in Hbody. rewrite Ho in Hbody.
    destruct o; simpl in Hbody; [discriminate Hbody|].
    injection Hbody as <-. reflexivity.
Qed.

(** ** Construction (C3) *)

(** The [PArray] constructor reads every slot of the geometry array before
    it comes to the check of the ratio. *)
Lemma FMultiGrid_PArray_null (geom : PArray Geometry) (baselevel : Z)
    (crse_ratio : IntVect) :
  ¬ Forall is_Some geom →
  FMultiGrid_PArray geom baselevel crse_ratio = Fail NullDereference.
Proof.
  intros Hnull. unfold FMultiGrid_PArray. simpl.
  rewrite (slots_loop_null geom (λ ilev gl g, <[ilev := gl]> g)) by exact Hnull.
  reflexivity.
Qed.


(** C3, amended.  The constructors from one geometry and from a vector of
    geometries abort with "must set crse_ratio if baselevel > 0" exactly
    when [baselevel > 0] and the ratio is the zero vector, zero in every
    dimension; a ratio with a zero in some dimension only is accepted.
    Otherwise they return; in particular with [baselevel = 0] they return
    whatever the ratio.  The [PArray] constructor first reads the geometry
    every slot points to: when no slot is null it aborts and returns as the
    other two do; when a slot is null it fails on the null dereference,
    whatever the base level and the ratio. *)
Theorem constructors_reject_zero_vector (baselevel : Z)
    (crse_ratio : IntVect) :
  let unset :=
    (0 < baselevel)%Z
    ∧ ∀ n, n < BL_SPACEDIM → IntVect_at crse_ratio n = 0%Z in
  let msg := "FMultiGrid: must set crse_ratio if baselevel > 0" in
  (unset →
     (∀ geom, FMultiGrid_Geometry geom baselevel crse_ratio
              = Fail (Aborted msg))
     ∧ (∀ geom, FMultiGrid_vector geom baselevel crse_ratio
                = Fail (Aborted msg))
     ∧ (∀ geom, Forall is_Some geom →
                FMultiGrid_PArray geom baselevel crse_ratio
                = Fail (Aborted msg)))
  ∧ (¬ unset →
     (∀ geom, ∃ s, FMultiGrid_Geometry geom baselevel crse_ratio = Ok s)
     ∧ (∀ geom, ∃ s, FMultiGrid_vector geom baselevel crse_ratio = Ok s)
     ∧ (∀ geom, Forall is_Some geom →
                ∃ s, FMultiGrid_PArray geom baselevel crse_ratio = Ok s))
  ∧ (baselevel = 0%Z → ¬ unset)
  ∧ (∀ geom : PArray Geometry, ¬ Forall is_Some geom →
       FMultiGrid_PArray geom baselevel crse_ratio = Fail NullDereference).
Proof.
  intros unset msg.
  assert (Hloop : ∀ geom : PArray Geometry, Forall is_Some geom →
    ∃ g, for_loop (length geom) (λ ilev g,
           gl ← PArray_at geom ilev; mret (<[ilev := gl]> g))
           (replicate (length geom) Geometry_default) = Ok g).
  { intros geom Hall.
    match goal with |- context [for_loop ?n ?body ?s0] =>
      destruct (for_loop_total (λ _ _, True) n body s0) as (g & Hg & _)
    end; [exact I | | eauto].
    intros i g Hi _. destruct (lookup_lt_is_Some_2 geom i Hi) as [o Ho].
    pose proof (Forall_lookup_1 _ _ _ _ Hall Ho) as [gl ->].
    unfold PArray_at. rewrite Ho. simpl. eauto. }
  assert (Hcheck : (0 <? baselevel)%Z && IntVect_eqb crse_ratio TheZeroVector
                   = true ↔ unset).
  { rewrite andb_true_iff, Z.ltb_lt, IntVect_eqb_zero. reflexivity. }
  split_and!.
  - intros Hu. apply Hcheck in Hu. split_and!.
    + intros geom. unfold FMultiGrid_Geometry. simpl. rewrite Hu. reflexivity.
    + intros geom. unfold FMultiGrid_vector. simpl. rewrite Hu. reflexivity.
    + intros geom Hall. unfold FMultiGrid_PArray. simpl.
      destruct (Hloop geom Hall) as (g & ->). simpl. rewrite Hu. reflexivity.
  - intros Hu.
    assert (Hf : (0 <? baselevel)%Z && IntVect_eqb crse_ratio TheZeroVector
                 = false).
    { apply not_true_is_false. rewrite Hcheck. exact Hu. }
    split_and!.
    + intros geom. unfold FMultiGrid_Geometry. simpl. rewrite Hf. eauto.
    + intros geom. unfold FMultiGrid_vector. simpl. rewrite Hf. eauto.
    + intros geom Hall. unfold FMultiGrid_PArray. simpl.
      destruct (Hloop geom Hall) as (g & ->). simpl. rewrite Hf. eauto.
  - intros -> [Hlt _]. lia.
  - intros geom Hnull. apply FMultiGrid_PArray_null. exact Hnull.
Qed.

(** ** [get_grad_phi] before [solve] (C2) *)

Lemma for_loop_first_fails {S : Type} (n : nat) (body : nat → S → result S)
    (s : S) (f : failure) :
  0 < n → body 0%nat s = Fail f → for_loop n body s = Fail f.
Proof.
  intros Hn Hbody. destruct n as [|n]; [lia|].
  unfold for_loop. simpl. rewrite Hbody. reflexivity.
Qed.

(** C2, amended.  On an object that holds no solver handle yet,
    [get_grad_phi] makes no check of the handle.  The single-level overload
    checks [m_nlevels == 1] and nothing else: it fails that assertion on an
    object with another number of levels, and on a one-level object it
    dereferences the null handle.  The two multi-level overloads check
    nothing: with no level they return at once; with a level they read
    entry 0 of [grad_phi] before they go through the handle, so on an array
    with no entry 0 they index past its end, on a [PArray] whose slot 0 is
    null they dereference that slot, and with entry 0 present they
    dereference the null handle. *)
Theorem get_grad_phi_before_solve (s : FMultiGrid) (st : Store)
    (Hreach : reachable s) (Hnone : m_mgt_solver s = None) :
  (∀ gp, m_nlevels s ≠ 1%nat →
         get_grad_phi_PArray s st gp
         = Fail (AssertionFailed "m_nlevels == 1"))
  ∧ (∀ gp, m_nlevels s = 1%nat →
           get_grad_phi_PArray s st gp = Fail NullDereference)
  ∧ (∀ gp, m_nlevels s = 0%nat → get_grad_phi_Array s st gp = Ok st)
  ∧ (∀ gp, m_nlevels s = 0%nat →
           get_grad_phi_PArray_PArray s st gp = Ok st)
  ∧ (∀ gp gp0, 0 < m_nlevels s → gp !! 0%nat = Some gp0 →
               get_grad_phi_Array s st gp = Fail NullDereference)
  ∧ (∀ gp gp0, 0 < m_nlevels s → gp !! 0%nat = Some (Some gp0) →
               get_grad_phi_PArray_PArray s st gp = Fail NullDereference)
  ∧ (∀ gp, 0 < m_nlevels s → gp !! 0%nat = None →
           get_grad_phi_Array s st gp = Fail OutOfBounds)
  ∧ (∀ gp, 0 < m_nlevels s → gp !! 0%nat = None →
           get_grad_phi_PArray_PArray s st gp = Fail OutOfBounds)
  ∧ (∀ gp, 0 < m_nlevels s → gp !! 0%nat = Some None →
           get_grad_phi_PArray_PArray s st gp = Fail NullDereference).
Proof.
  pose proof (reachable_consistent s Hreach) as (Hgeom & _).
  split_and!.
  - intros gp Hn. unfold get_grad_phi_PArray.
    rewrite BL_ASSERT_false; [reflexivity|].
    apply bool_decide_eq_false_2. exact Hn.
  - intros gp Hn. unfold get_grad_phi_PArray.
    rewrite BL_ASSERT_true by (apply bool_decide_eq_true_2; exact Hn).
    rewrite (Array_at_nth _ _ Geometry_default) by lia.
    rewrite Hnone. reflexivity.
  - intros gp Hn. unfold get_grad_phi_Array. rewrite Hn. reflexivity.
  - intros gp Hn. unfold get_grad_phi_PArray_PArray. rewrite Hn. reflexivity.
  - intros gp gp0 Hn Hgp. unfold get_grad_phi_Array.
    apply for_loop_first_fails; [exact Hn|].
    rewrite (Array_at_nth _ _ Geometry_default) by lia.
    unfold Array_at. rewrite Hgp, Hnone. reflexivity.
  - intros gp gp0 Hn Hgp. unfold get_grad_phi_PArray_PArray.
    apply for_loop_first_fails; [exact Hn|].
    rewrite (Array_at_nth _ _ Geometry_default) by lia.
    unfold PArray_at. rewrite Hgp, Hnone. reflexivity.
  - intros gp Hn Hgp. unfold get_grad_phi_Array.
    apply for_loop_first_fails; [exact Hn|].
    rewrite (Array_at_nth _ _ Geometry_default) by lia.
    unfold Array_at. rewrite Hgp. reflexivity.
  - intros gp Hn Hgp. unfold get_grad_phi_PArray_PArray.
    apply for_loop_first_fails; [exact Hn|].
    rewrite (Array_at_nth _ _ Geometry_default) by lia.
    unfold PArray_at. rewrite Hgp. reflexivity.
  - intros gp Hn Hgp. unfold get_grad_phi_PArray_PArray.
    apply for_loop_first_fails; [exact Hn|].
    rewrite (Array_at_nth _ _ Geometry_default) by lia.
    unfold PArray_at. rewrite Hgp. reflexivity.
Qed.

(** ** Variant dispatch (C4) *)

(** C4.  When [set_coeffs] applies the coefficient model to the kernel (its
    two entry checks on the base level and the ratio passed, the geometry
    array has one entry per level), with [xa] and [xb] the transition
    distances: the constant-gravity variant configures
    [set_const_gravity_coeffs(xa, xb)]; the gravity variant requires [b_set]
    and configures [set_gravity_coefficients(b, xa, xb)]; the general
    variant requires [alpha_set && a_set && beta_set && b_set] and
    configures [set_abeclap_coeffs(alpha, a, beta, b, xa, xb)]; the invalid
    variant aborts.  And [solve] and [compute_residual] fail on an object
    whose variant is still invalid. *)
Theorem set_coeffs_dispatch (c : ABecCoeff) (mgt : MGT_Solver)
    (fmg : FMultiGrid)
    (Hbase : (0 ≤ m_baselevel fmg)%Z)
    (Hratio : m_baselevel fmg = 0%Z
              ∨ IntVect_eqb (m_crse_ratio fmg) TheZeroVector = false)
    (Hgeom : length (m_geom fmg) = m_nlevels fmg) :
  ∃ xa xb,
    transition_distances fmg = Ok (xa, xb)
    ∧ (eq_type c = const_gravity_eq →
       set_coeffs c mgt fmg
       = Ok (MGT_with_coeffs mgt (ConstGravityCoeffs xa xb)))
    ∧ (eq_type c = gravity_eq →
       set_coeffs c mgt fmg
       = if b_set c
         then Ok (MGT_with_coeffs mgt (GravityCoeffs (b c) xa xb))
         else Fail (AssertionFailed "b_set"))
    ∧ (eq_type c = general_eq →
       set_coeffs c mgt fmg
       = if alpha_set c && a_set c && beta_set c && b_set c
         then Ok (MGT_with_coeffs mgt
                    (ABecLapCoeffs (alpha c) (a c) (beta c) (b c) xa xb))
         else Fail (AssertionFailed
                      "alpha_set && a_set && beta_set && b_set"))
    ∧ (eq_type c = invalid_eq →
       set_coeffs c mgt fmg
       = Fail (Aborted
                 "FMultiGrid::ABecCoeff::set_coeffs: How did we get here?"))
    ∧ (∀ s st phi rhs res rel_tol abs_tol bnorm need verbose,
         eq_type (m_coeff s) = invalid_eq →
         failed (solve_PArray s st phi rhs rel_tol abs_tol bnorm need verbose)
         ∧ failed (compute_residual_PArray s st phi rhs res)).
Proof.
  destruct (transition_distances_correct fmg Hgeom)
    as (xa & xb & Hrun & _).
  exists xa, xb. split; [exact Hrun|].
  assert (Hhead : ∀ k : result MGT_Solver,
    (BL_ASSERT (0 <=? m_baselevel fmg)%Z "fmg.m_baselevel >= 0";;
     BL_ASSERT ((m_baselevel fmg =? 0)%Z
                || negb (IntVect_eqb (m_crse_ratio fmg) TheZeroVector))
       "fmg.m_baselevel == 0 || fmg.m_crse_ratio != IntVect::TheZeroVector()";;
     k) = k).
  { intros k. rewrite BL_ASSERT_true by (apply Z.leb_le; exact Hbase).
    apply BL_ASSERT_true. apply orb_true_iff.
    destruct Hratio as [->| ->]; [left | right]; reflexivity. }
  split_and!.
  - intros Ht. unfold set_coeffs. rewrite Hhead, Hrun, Ht. reflexivity.
  - intros Ht. unfold set_coeffs. rewrite Hhead, Hrun, Ht. simpl.
    destruct (b_set c); reflexivity.
  - intros Ht. unfold set_coeffs. rewrite Hhead, Hrun, Ht. simpl.
    destruct (alpha_set c && a_set c && beta_set c && b_set c); reflexivity.
  - intros Ht. unfold set_coeffs. rewrite Hhead, Hrun, Ht. reflexivity.
  - intros s st phi rhs res rel_tol abs_tol bnorm need verbose Ht.
    unfold solve_PArray, compute_residual_PArray. rewrite Ht.
    destruct (initilized (m_bc s)); simpl; auto.
Qed.

(** ** The boundary coupler (C5) *)

(** C5.  [set_bndry_values] by the two field references of the descriptor:
    both null, homogeneous values are registered; fine only, the values are
    taken from the fine field; both set, the ratio must not be the zero
    vector, the box layout of the fine field is coarsened by the ratio, a
    boundary register over it is filled from the coarse field, and the
    values are interpolated from that register and the fine field with the
    ratio; coarse only, the call aborts.  No object a program can hold has
    a coarse field without a fine one. *)
Theorem set_bndry_values_cases (bc : Boundary) (st : Store)
    (bndry : MacBndry) (crse_ratio : IntVect) :
  let phys_bc :=
    mkBCRec (replicate BL_SPACEDIM 0%Z) (replicate BL_SPACEDIM 0%Z) in
  (crse_phi bc = None → phi bc = None →
   set_bndry_values bc st bndry crse_ratio
   = Ok (MacBndry_set bndry (HomogValues phys_bc TheZeroVector)))
  ∧ (∀ p mf, crse_phi bc = None → phi bc = Some p → st !! p = Some mf →
     set_bndry_values bc st bndry crse_ratio
     = Ok (MacBndry_set bndry (FineValues p 0 0 (nComp mf) phys_bc)))
  ∧ (∀ c p, crse_phi bc = Some c → phi bc = Some p →
     IntVect_eqb crse_ratio TheZeroVector = true →
     set_bndry_values bc st bndry crse_ratio
     = Fail (AssertionFailed "crse_ratio != IntVect::TheZeroVector()"))
  ∧ (∀ c p mf crse_mf, crse_phi bc = Some c → phi bc = Some p →
     IntVect_eqb crse_ratio TheZeroVector = false →
     st !! p = Some mf → st !! c = Some crse_mf →
     let crse_boxes := BoxArray_coarsen (boxArray mf) crse_ratio in
     let crse_br :=
       BndryRegister_copyFrom
         (mkBndryRegister crse_boxes 0 1 2 (nComp mf) None)
         c (nGrow crse_mf) 0 0 (nComp mf) in
     set_bndry_values bc st bndry crse_ratio
     = Ok (MacBndry_set bndry
             (CrseFineValues crse_br 0 p 0 0 (nComp mf) crse_ratio phys_bc)))
  ∧ (∀ c, crse_phi bc = Some c → phi bc = None →
     set_bndry_values bc st bndry crse_ratio
     = Fail (Aborted
               "FMultiGrid::Boundary::build_bndry: How did we get here?"))
  ∧ (∀ s, reachable s →
          ¬ (is_Some (crse_phi (m_bc s)) ∧ phi (m_bc s) = None)).
Proof.
  intros phys_bc. unfold set_bndry_values. split_and!.
  - intros -> ->. reflexivity.
  - intros p mf -> -> Hp. unfold deref. rewrite Hp. reflexivity.
  - intros c p -> -> ->. reflexivity.
  - intros c p mf crse_mf -> -> -> Hp Hc. unfold deref.
    rewrite Hp. simpl. rewrite Hc. reflexivity.
  - intros c -> ->. reflexivity.
  - intros s Hs [Hc Hp]. apply reachable_consistent in Hs.
    destruct Hs as (_ & _ & [Hb _] & _). apply Hb in Hc.
    rewrite Hp in Hc. destruct Hc as [? [=]].
Qed.

(** ** [set_bc] (C6) *)

(** C6.  A [set_bc] call that returns marks the boundary descriptor as set,
    and the mark stays through every later call; on an object whose
    descriptor is set every [set_bc] overload fails an assertion, the
    assertion [!m_bc.initilized] unless the ratio check of the coarse-field
    overload fails first.  The coarse-field overload fails the assertion
    [m_crse_ratio != IntVect::TheZeroVector()] whenever the ratio is the
    zero vector, whatever the state of the descriptor. *)
Theorem set_bc_at_most_once (s : FMultiGrid) (st : Store) :
  (∀ c s' st', is_set_bc c = true → run_call s st c = Ok (s', st') →
     initilized (m_bc s) = false ∧ initilized (m_bc s') = true)
  ∧ (∀ c s' st', run_call s st c = Ok (s', st') →
       initilized (m_bc s) = true → initilized (m_bc s') = true)
  ∧ (initilized (m_bc s) = true →
     (∀ mg_bc, set_bc s mg_bc = Fail (AssertionFailed "!m_bc.initilized"))
     ∧ (∀ mg_bc phi, set_bc_phi s mg_bc phi
                     = Fail (AssertionFailed "!m_bc.initilized"))
     ∧ (∀ mg_bc crse_phi phi,
          IntVect_eqb (m_crse_ratio s) TheZeroVector = false →
          set_bc_crse_phi s mg_bc crse_phi phi
          = Fail (AssertionFailed "!m_bc.initilized")))
  ∧ (IntVect_eqb (m_crse_ratio s) TheZeroVector = true →
     ∀ mg_bc crse_phi phi,
       set_bc_crse_phi s mg_bc crse_phi phi
       = Fail (AssertionFailed "m_crse_ratio != IntVect::TheZeroVector()"))
  ∧ (∀ c1 s1 st1 c2 st2, is_set_bc c1 = true → is_set_bc c2 = true →
       run_call s st c1 = Ok (s1, st1) →
       assertion_failed (run_call s1 st2 c2)).
Proof.
  assert (Hset : ∀ s0 st0 c s' st', is_set_bc c = true →
            run_call s0 st0 c = Ok (s', st') →
            initilized (m_bc s0) = false ∧ initilized (m_bc s') = true).
  { intros s0 st0 c s' st' Hc H. destruct c; try discriminate Hc;
      simpl in H; unfold keep_store, set_bc, set_bc_phi, set_bc_crse_phi in H;
      inv_ok; subst; simpl; split; try reflexivity;
      apply negb_true_iff; assumption. }
  assert (Hfail : ∀ s0 st0 c, is_set_bc c = true →
            initilized (m_bc s0) = true → assertion_failed (run_call s0 st0 c)).
  { intros s0 st0 c Hc Hi. destruct c; try discriminate Hc; simpl;
      unfold keep_store, set_bc, set_bc_phi, set_bc_crse_phi; rewrite Hi;
      simpl; try exact I.
    destruct (IntVect_eqb (m_crse_ratio s0) TheZeroVector); exact I. }
  split_and!.
  - apply Hset.
  - intros c s' st' H Hi.
    destruct (is_set_bc c) eqn:Hc.
    { apply Hset in H as [Hf _]; [congruence | exact Hc]. }
    destruct c; try discriminate Hc; simpl in H; unfold keep_store,
      keep_object, set_const_gravity_coeffs, set_gravity_coeffs_PArray,
      set_gravity_coeffs_Array, set_alpha, set_acoef_MultiFab,
      set_acoef_PArray, set_beta, set_bcoef_ptr, set_bcoef_PArray,
      set_bcoef_Array, solve_MultiFab, compute_residual_MultiFab in H;
      inv_ok; subst; simpl; try assumption.
    + match goal with Hr : solve_PArray _ _ _ _ _ _ _ _ _ = Ok _ |- _ =>
        apply solve_PArray_Ok in Hr as (_ & _ & _ & _ & Hsame & _) end.
      destruct Hsame as (_ & _ & _ & _ & _ & _ & -> & _). exact Hi.
    + match goal with Hr : solve_PArray _ _ _ _ _ _ _ _ _ = Ok _ |- _ =>
        apply solve_PArray_Ok in Hr as (_ & _ & _ & _ & Hsame & _) end.
      destruct Hsame as (_ & _ & _ & _ & _ & _ & -> & _). exact Hi.
    + apply compute_residual_PArray_Ok in H as (_ & _ & _ & _ & Hsame & _).
      destruct Hsame as (_ & _ & _ & _ & _ & _ & -> & _). exact Hi.
    + apply compute_residual_PArray_Ok in H as (_ & _ & _ & _ & Hsame & _).
      destruct Hsame as (_ & _ & _ & _ & _ & _ & -> & _). exact Hi.
  - intros Hi. unfold set_bc, set_bc_phi, set_bc_crse_phi. rewrite Hi.
    split_and!; try reflexivity. intros mg_bc c p ->. reflexivity.
  - intros Hz mg_bc c p. unfold set_bc_crse_phi. rewrite Hz. reflexivity.
  - intros c1 s1 st1 c2 st2 Hc1 Hc2 H. apply Hfail; [exact Hc2|].
    apply Hset in H as [_ Hi]; [exact Hi | exact Hc1].
Qed.

(** ** Single-field overloads (C10) *)

(** C10.  [solve(phi, rhs, ...)] is [solve] on the one-element arrays
    [[&phi]] and [[&rhs]], and [compute_residual(phi, rhs, res)] is
    [compute_residual] on [[&phi]], [[&rhs]], [[&res]]: same outcome, same
    object, same fields written, same residual norm. *)
Theorem single_field_overloads_wrap (s : FMultiGrid) (st : Store)
    (phi rhs res : addr) (rel_tol abs_tol : Real)
    (always_use_bnorm need_grad_phi verbose : Z) :
  Copy_MultiFab [] phi = [Some phi]
  ∧ solve_MultiFab s st phi rhs rel_tol abs_tol
                   always_use_bnorm need_grad_phi verbose
    = solve_PArray s st [Some phi] [Some rhs] rel_tol abs_tol
                   always_use_bnorm need_grad_phi verbose
  ∧ compute_residual_MultiFab s st phi rhs res
    = compute_residual_PArray s st [Some phi] [Some rhs] [Some res]
  ∧ (∀ s' st' resnorm,
       solve_MultiFab s st phi rhs rel_tol abs_tol
                      always_use_bnorm need_grad_phi verbose
       = Ok (s', st', resnorm)
       ↔ solve_PArray s st [Some phi] [Some rhs] rel_tol abs_tol
                      always_use_bnorm need_grad_phi verbose
         = Ok (s', st', resnorm)).
Proof.
  assert (Hcopy : ∀ x, Copy_MultiFab [] x = [Some x]) by reflexivity.
  split_and!.
  - apply Hcopy.
  - unfold solve_MultiFab. rewrite !Hcopy. reflexivity.
  - unfold compute_residual_MultiFab. rewrite !Hcopy. reflexivity.
  - intros s' st' r. unfold solve_MultiFab. rewrite !Hcopy. reflexivity.
Qed.

(** ** Coefficient setters (C7) *)

Ltac unfold_setters :=
  unfold keep_store, keep_object, set_const_gravity_coeffs,
    set_gravity_coeffs_PArray, set_gravity_coeffs_Array, set_alpha,
    set_acoef_MultiFab, set_acoef_PArray, set_beta, set_bcoef_ptr,
    set_bcoef_PArray, set_bcoef_Array, is_invalid_or_general in *.

(** C7.  On every object a program can hold, a coefficient setter fails an
    assertion when the variant tag is neither Uninitialized nor the variant
    the setter asks for, and when the sub-value it provides is already
    marked as set.  A setter that returns found the tag Uninitialized or
    equal to the variant it asks for and its sub-value unset, stores that
    variant, and marks the sub-value.  In particular [set_alpha] after
    [set_const_gravity_coeffs] fails the tag assertion, and a second
    [set_acoef] fails the assertion [!m_coeff.a_set]. *)
Theorem coefficient_setters_guarded (s : FMultiGrid) (st : Store)
    (Hreach : reachable s) :
  (∀ c, is_coeff_setter c = true →
     (eq_type (m_coeff s) ≠ invalid_eq
      ∧ eq_type (m_coeff s) ≠ requested_variant c)
     ∨ sub_value_set c (m_coeff s) = true →
     assertion_failed (run_call s st c))
  ∧ (∀ c s' st', is_coeff_setter c = true →
       run_call s st c = Ok (s', st') →
       (eq_type (m_coeff s) = invalid_eq
        ∨ eq_type (m_coeff s) = requested_variant c)
       ∧ sub_value_set c (m_coeff s) = false
       ∧ eq_type (m_coeff s') = requested_variant c
       ∧ (c ≠ call_set_const_gravity_coeffs →
          sub_value_set c (m_coeff s') = true))
  ∧ (∀ s1 alpha_, set_const_gravity_coeffs s = Ok s1 →
       set_alpha s1 alpha_
       = Fail (AssertionFailed
           "m_coeff.eq_type == invalid_eq || m_coeff.eq_type == general_eq"))
  ∧ (∀ a1 s1, set_acoef_MultiFab s a1 = Ok s1 →
       (∀ a2, set_acoef_MultiFab s1 a2
              = Fail (AssertionFailed "!m_coeff.a_set"))
       ∧ (∀ a2, set_acoef_PArray s1 a2
                = Fail (AssertionFailed "!m_coeff.a_set")))
  ∧ (∀ a1 s1, set_acoef_PArray s a1 = Ok s1 →
       (∀ a2, set_acoef_MultiFab s1 a2
              = Fail (AssertionFailed "!m_coeff.a_set"))
       ∧ (∀ a2, set_acoef_PArray s1 a2
                = Fail (AssertionFailed "!m_coeff.a_set"))).
Proof.
  pose proof (reachable_consistent s Hreach) as (_ & Hco & _).
  unfold coeff_consistent in Hco.
  split_and!.
  - intros c Hc Hbad.
    destruct c; try discriminate Hc; simpl in *; unfold_setters;
      destruct (eq_type (m_coeff s)) eqn:Ht; simpl;
      try exact I;
      try (destruct Hbad as [[Hn1 Hn2] | Hset]; try congruence;
           try (rewrite Hset; exact I);
           destruct Hco as (_ & _ & _ & Hb); congruence).
  - intros c s' st' Hc H.
    destruct c; try discriminate Hc; simpl in *; unfold_setters;
      inv_ok; subst; simpl;
      repeat match goal with
      | Hd : bool_decide _ = true |- _ => apply bool_decide_eq_true in Hd
      | Ho : _ || _ = true |- _ => apply orb_true_iff in Ho
      | Hn : negb _ = true |- _ => apply negb_true_iff in Hn
      end;
      split_and!; auto; try tauto; try congruence;
      try match goal with
      | Ht : eq_type (m_coeff s) = invalid_eq |- _ =>
          rewrite Ht in Hco; tauto
      end;
      rewrite !bool_decide_eq_true in *; tauto.
  - intros s1 alpha_ H. unfold_setters. inv_ok. subst. reflexivity.
  - intros a1 s1 H. unfold_setters. inv_ok. subst. split; reflexivity.
  - intros a1 s1 H. unfold_setters. inv_ok. subst. split; reflexivity.
Qed.

(** ** The solver handle (C8) *)

Lemma set_coeffs_returns (c : ABecCoeff) (mgt : MGT_Solver)
    (fmg : FMultiGrid) :
  (0 ≤ m_baselevel fmg)%Z →
  ((0 < m_baselevel fmg)%Z →
   IntVect_eqb (m_crse_ratio fmg) TheZeroVector = false) →
  length (m_geom fmg) = m_nlevels fmg →
  coeff_consistent c → eq_type c ≠ invalid_eq →
  (eq_type c = general_eq →
   alpha_set c && a_set c && beta_set c && b_set c = true) →
  ∃ mgt', set_coeffs c mgt fmg = Ok mgt'.
Proof.
  intros Hbase Hratio Hgeom Hco Hvalid Hgen.
  destruct (transition_distances_correct fmg Hgeom) as (xa & xb & Hrun & _).
  unfold set_coeffs.
  rewrite BL_ASSERT_true by (apply Z.leb_le; exact Hbase).
  rewrite BL_ASSERT_true.
  2:{ destruct (m_baselevel fmg =? 0)%Z eqn:Hz; [reflexivity|].
      apply Z.eqb_neq in Hz. rewrite Hratio by lia. reflexivity. }
  rewrite Hrun. simpl. unfold coeff_consistent in Hco.
  destruct (eq_type c) eqn:Ht; simpl.
  - congruence.
  - eauto.
  - destruct Hco as (_ & _ & _ & ->). simpl. eauto.
  - rewrite Hgen by reflexivity. simpl. eauto.
Qed.

Lemma set_bndry_values_returns (bc : Boundary) (st : Store)
    (bndry : MacBndry) (crse_ratio : IntVect) :
  bc_consistent bc →
  (is_Some (crse_phi bc) → IntVect_eqb crse_ratio TheZeroVector = false) →
  (∀ p, phi bc = Some p → is_Some (st !! p)) →
  (∀ p, crse_phi bc = Some p → is_Some (st !! p)) →
  ∃ bndry', set_bndry_values bc st bndry crse_ratio = Ok bndry'.
Proof.
  intros [Hb _] Hr Hphi Hcrse. unfold set_bndry_values, deref.
  destruct (crse_phi bc) as [c|], (phi bc) as [p|].
  - rewrite Hr by eauto. simpl.
    destruct (Hphi p eq_refl) as [mf ->]. simpl.
    destruct (Hcrse c eq_refl) as [cmf ->]. simpl. eauto.
  - destruct Hb as [? [=]]. eauto.
  - destruct (Hphi p eq_refl) as [mf ->]. simpl. eauto.
  - simpl. eauto.
Qed.

Lemma init_mgt_solver_returns (s : FMultiGrid) (st : Store)
    (phi : PArray addr) :
  consistent s → ready_to_solve s st phi →
  ∃ s', init_mgt_solver s st phi = Ok s'.
Proof.
  intros (Hgeom & Hco & Hbc & Hr & Hcr & Hh & _).
  intros (Hi & Ht & Hnone & Hn & Hbase & Hlive & Hcl & Hpl & Hgen).
  unfold init_mgt_solver.
  rewrite BL_ASSERT_true by exact Hi.
  rewrite BL_ASSERT_true
    by (apply negb_true_iff, bool_decide_eq_false_2; exact Ht).
  rewrite BL_ASSERT_true by (rewrite Hnone; reflexivity).
  destruct (Hlive 0%nat Hn) as (p0 & mf0 & Hp0 & Hmf0).
  rewrite (PArray_at_Ok _ _ _ Hp0). simpl.
  rewrite (deref_Ok _ _ _ Hmf0). simpl.
  match goal with |- context [for_loop ?n ?body ?s0] =>
    destruct (for_loop_total (λ i x, length x.2 = i) n body s0)
      as ([dmap ba] & -> & Hba)
  end.
  { reflexivity. }
  { intros i [dmap ba] Hlt Hlen.
    destruct (Hlive i Hlt) as (p & mf & Hp & Hmf).
    unfold PArray_at, deref. rewrite Hp. simpl. rewrite Hmf. simpl.
    eexists. split; [reflexivity|]. simpl in *.
    rewrite length_app. simpl. lia. }
  simpl in Hba. simpl.
  destruct (lookup_lt_is_Some_2 ba 0%nat) as [ba0 Hba0]; [lia|].
  rewrite (proj2 (Array_at_Ok _ _ _) Hba0). simpl.
  destruct (lookup_lt_is_Some_2 (m_geom s) 0%nat) as [g0 Hg0]; [lia|].
  rewrite (proj2 (Array_at_Ok _ _ _) Hg0). simpl.
  match goal with |- context [set_bndry_values ?bc ?st ?bd ?r] =>
    destruct (set_bndry_values_returns bc st bd r) as (bndry & ->); auto
  end.
  simpl.
  match goal with |- context [set_coeffs ?c ?m ?f] =>
    destruct (set_coeffs_returns c m f) as (mgt & ->); auto
  end.
  simpl. eauto.
Qed.

Lemma pointer_arrays_returns (n : nat) (st : Store) (l1 l2 : PArray addr) :
  fields_live st l1 n → fields_live st l2 n →
  ∃ x, for_loop n (λ ilev '(phi_p, rhs_p),
         p ← PArray_at l1 ilev;
         r ← PArray_at l2 ilev;
         mret (phi_p ++ [p], rhs_p ++ [r])) ([], []) = Ok x.
Proof.
  intros H1 H2.
  match goal with |- context [for_loop ?n ?body ?s0] =>
    destruct (for_loop_total (λ _ _, True) n body s0) as (x & Hx & _)
  end; [exact I | | eauto].
  intros i [pp rp] Hi _.
  destruct (H1 i Hi) as (p & ? & Hp & _), (H2 i Hi) as (r & ? & Hr & _).
  unfold PArray_at. rewrite Hp, Hr. simpl. eauto.
Qed.

Lemma pointer_arrays3_returns (n : nat) (st : Store)
    (l1 l2 l3 : PArray addr) :
  fields_live st l1 n → fields_live st l2 n → fields_live st l3 n →
  ∃ x, for_loop n (λ ilev '(phi_p, rhs_p, res_p),
         p ← PArray_at l1 ilev;
         r ← PArray_at l2 ilev;
         q ← PArray_at l3 ilev;
         mret (phi_p ++ [p], rhs_p ++ [r], res_p ++ [q])) ([], [], [])
       = Ok x.
Proof.
  intros H1 H2 H3.
  match goal with |- context [for_loop ?n ?body ?s0] =>
    destruct (for_loop_total (λ _ _, True) n body s0) as (x & Hx & _)
  end; [exact I | | eauto].
  intros i [[pp rp] qp] Hi _.
  destruct (H1 i Hi) as (p & ? & Hp & _), (H2 i Hi) as (r & ? & Hr & _),
    (H3 i Hi) as (q & ? & Hq & _).
  unfold PArray_at. rewrite Hp, Hr, Hq. simpl. eauto.
Qed.

(** Calls other than [solve] and [compute_residual] leave the handle
    alone. *)
Lemma run_call_keeps_solver (s : FMultiGrid) (st : Store) (c : Call)
    (s' : FMultiGrid) (st' : Store) :
  is_solve_or_residual c = false → run_call s st c = Ok (s', st') →
  m_mgt_solver s' = m_mgt_solver s.
Proof.
  intros Hc H. destruct c; try discriminate Hc; simpl in H;
    unfold_setters; unfold set_bc, set_bc_phi, set_bc_crse_phi in H;
    inv_ok; subst; reflexivity.
Qed.

Lemma solve_PArray_returns (s : FMultiGrid) (st : Store)
    (phi rhs : PArray addr) (rel_tol abs_tol : Real)
    (bnorm need verbose : Z) :
  consistent s → ready_to_solve s st phi →
  fields_live st rhs (m_nlevels s) →
  ∃ s' st' resnorm,
    solve_PArray s st phi rhs rel_tol abs_tol bnorm need verbose
    = Ok (s', st', resnorm).
Proof.
  intros Hs Hready Hrhs.
  destruct (init_mgt_solver_returns s st phi Hs Hready) as (s1 & Hinit).
  pose proof (init_mgt_solver_Ok _ _ _ _ Hinit)
    as (_ & _ & _ & _ & [mgt Hm] & [bndry Hb]).
  destruct Hs as (_ & _ & _ & _ & _ & Hh & _).
  destruct Hready as (Hi & Ht & Hnone & _ & _ & Hlive & _).
  unfold solve_PArray.
  rewrite BL_ASSERT_true by exact Hi.
  rewrite BL_ASSERT_true
    by (apply negb_true_iff, bool_decide_eq_false_2; exact Ht).
  rewrite BL_ASSERT_true by (rewrite Hnone; reflexivity).
  rewrite BL_ASSERT_true.
  2:{ destruct (m_bndry s) eqn:Hbd; [|reflexivity].
      destruct (proj2 Hh) as [? Hsome]; [eauto | congruence]. }
  destruct (pointer_arrays_returns _ st phi rhs Hlive Hrhs)
    as ([phi_p rhs_p] & ->).
  simpl. rewrite Hinit. simpl. rewrite Hm, Hb. simpl.
  destruct (kernel_solve _ _ _ _ _ _ _ _ _) as [[k st1] r]. simpl. eauto.
Qed.

Lemma compute_residual_PArray_returns (s : FMultiGrid) (st : Store)
    (phi rhs res : PArray addr) :
  consistent s → ready_to_solve s st phi →
  fields_live st rhs (m_nlevels s) → fields_live st res (m_nlevels s) →
  ∃ s' st', compute_residual_PArray s st phi rhs res = Ok (s', st').
Proof.
  intros Hs Hready Hrhs Hres.
  destruct (init_mgt_solver_returns s st phi Hs Hready) as (s1 & Hinit).
  pose proof (init_mgt_solver_Ok _ _ _ _ Hinit)
    as (_ & _ & _ & _ & [mgt Hm] & [bndry Hb]).
  destruct Hs as (_ & _ & _ & _ & _ & Hh & _).
  destruct Hready as (Hi & Ht & Hnone & _ & _ & Hlive & _).
  unfold compute_residual_PArray.
  rewrite BL_ASSERT_true by exact Hi.
  rewrite BL_ASSERT_true
    by (apply negb_true_iff, bool_decide_eq_false_2; exact Ht).
  rewrite BL_ASSERT_true by (rewrite Hnone; reflexivity).
  rewrite BL_ASSERT_true.
  2:{ destruct (m_bndry s) eqn:Hbd; [|reflexivity].
      destruct (proj2 Hh) as [? Hsome]; [eauto | congruence]. }
  destruct (pointer_arrays3_returns _ st phi rhs res Hlive Hrhs Hres)
    as ([[phi_p rhs_p] res_p] & ->).
  simpl. rewrite Hinit. simpl. rewrite Hm, Hb. simpl.
  destruct (kernel_compute_residual _ _ _ _ _ _) as [k st1]. simpl. eauto.
Qed.

(** C8.  On every object a program can hold: [solve] and
    [compute_residual] check, in this order, that the boundary descriptor
    is set, that the variant is not invalid and that there is no solver
    handle yet, and fail the assertion of the first check that does not
    hold; a call of them that returns found no handle and leaves one;
    no other call creates a handle, and no call that returns changes or
    drops an existing one, so on an object with a handle every [solve] and
    [compute_residual] fails the assertion [m_mgt_solver == 0].  The fourth
    assertion of the two calls, [m_bndry == 0], holds whenever the third
    does.  When the three checks hold on an object with a level and a base
    level not below zero, the fields are live and a general variant has its
    four sub-values, both calls return. *)
Theorem solver_handle_lifecycle (s : FMultiGrid) (st : Store)
    (Hreach : reachable s) :
  (∀ c, is_solve_or_residual c = true →
     (initilized (m_bc s) = false →
      run_call s st c = Fail (AssertionFailed "m_bc.initilized"))
     ∧ (initilized (m_bc s) = true → eq_type (m_coeff s) = invalid_eq →
        run_call s st c
        = Fail (AssertionFailed "m_coeff.eq_type != invalid_eq"))
     ∧ (is_Some (m_mgt_solver s) →
        run_call s st c = Fail (AssertionFailed "m_mgt_solver == 0")))
  ∧ (∀ c s' st', is_solve_or_residual c = true →
       run_call s st c = Ok (s', st') →
       initilized (m_bc s) = true ∧ eq_type (m_coeff s) ≠ invalid_eq
       ∧ m_mgt_solver s = None ∧ is_Some (m_mgt_solver s'))
  ∧ (∀ c s' st', is_solve_or_residual c = false →
       run_call s st c = Ok (s', st') →
       m_mgt_solver s' = m_mgt_solver s)
  ∧ (∀ c s' st', is_Some (m_mgt_solver s) →
       run_call s st c = Ok (s', st') →
       m_mgt_solver s' = m_mgt_solver s)
  ∧ (m_mgt_solver s = None → m_bndry s = None)
  ∧ (∀ phi rhs rel_tol abs_tol bnorm need verbose,
       ready_to_solve s st phi → fields_live st rhs (m_nlevels s) →
       ∃ s' st' resnorm,
         solve_PArray s st phi rhs rel_tol abs_tol bnorm need verbose
         = Ok (s', st', resnorm)
         ∧ is_Some (m_mgt_solver s'))
  ∧ (∀ phi rhs res,
       ready_to_solve s st phi → fields_live st rhs (m_nlevels s) →
       fields_live st res (m_nlevels s) →
       ∃ s' st',
         compute_residual_PArray s st phi rhs res = Ok (s', st')
         ∧ is_Some (m_mgt_solver s')).
Proof.
  pose proof (reachable_consistent s Hreach) as Hs.
  assert (Hpre : ∀ c, is_solve_or_residual c = true →
     (initilized (m_bc s) = false →
      run_call s st c = Fail (AssertionFailed "m_bc.initilized"))
     ∧ (initilized (m_bc s) = true → eq_type (m_coeff s) = invalid_eq →
        run_call s st c
        = Fail (AssertionFailed "m_coeff.eq_type != invalid_eq"))
     ∧ (is_Some (m_mgt_solver s) →
        run_call s st c = Fail (AssertionFailed "m_mgt_solver == 0"))).
  { intros c Hc. split_and!.
    - intros Hi. destruct c; try discriminate Hc; simpl;
        unfold solve_MultiFab, compute_residual_MultiFab, solve_PArray,
          compute_residual_PArray; rewrite Hi; reflexivity.
    - intros Hi Ht. destruct c; try discriminate Hc; simpl;
        unfold solve_MultiFab, compute_residual_MultiFab, solve_PArray,
          compute_residual_PArray; rewrite Hi, Ht; reflexivity.
    - intros [mgt Hm].
      destruct Hs as (_ & _ & _ & _ & _ & _ & Hinv).
      destruct Hinv as [Hi Ht]; [eauto|].
      apply (bool_decide_eq_false_2 (eq_type (m_coeff s) = invalid_eq)) in Ht.
      destruct c; try discriminate Hc; simpl;
        unfold solve_MultiFab, compute_residual_MultiFab, solve_PArray,
          compute_residual_PArray; rewrite Hi, Ht, Hm; reflexivity. }
  assert (Hpost : ∀ c s' st', is_solve_or_residual c = true →
       run_call s st c = Ok (s', st') →
       initilized (m_bc s) = true ∧ eq_type (m_coeff s) ≠ invalid_eq
       ∧ m_mgt_solver s = None ∧ is_Some (m_mgt_solver s')).
  { intros c s' st' Hc H. destruct c; try discriminate Hc; simpl in H;
      unfold solve_MultiFab, compute_residual_MultiFab in H; inv_ok; subst;
      repeat match goal with
      | Hr : solve_PArray _ _ _ _ _ _ _ _ _ = Ok _ |- _ =>
          apply solve_PArray_Ok in Hr as (? & ? & ? & _ & _ & ? & _)
      | Hr : compute_residual_PArray _ _ _ _ _ = Ok _ |- _ =>
          apply compute_residual_PArray_Ok in Hr
            as (? & ? & ? & _ & _ & ? & _)
      end; auto. }
  split_and!.
  - exact Hpre.
  - exact Hpost.
  - intros c s' st'. apply run_call_keeps_solver.
  - intros c s' st' Hsome H.
    destruct (is_solve_or_residual c) eqn:Hc.
    + destruct (Hpre c Hc) as (_ & _ & Hfail).
      rewrite Hfail in H by exact Hsome. discriminate H.
    + eapply run_call_keeps_solver; eauto.
  - intros Hnone. destruct Hs as (_ & _ & _ & _ & _ & Hh & _).
    destruct (m_bndry s) eqn:Hbd; [|reflexivity].
    destruct (proj2 Hh) as [? Hsome]; [eauto | congruence].
  - intros phi_ rhs rel_tol abs_tol bnorm need verbose Hready Hrhs.
    destruct (solve_PArray_returns s st phi_ rhs rel_tol abs_tol bnorm need
                verbose Hs Hready Hrhs) as (s' & st' & r & Hrun).
    exists s', st', r. split; [exact Hrun|].
    apply solve_PArray_Ok in Hrun. tauto.
  - intros phi_ rhs res Hready Hrhs Hres.
    destruct (compute_residual_PArray_returns s st phi_ rhs res
                Hs Hready Hrhs Hres) as (s' & st' & Hrun).
    exists s', st'. split; [exact Hrun|].
    apply compute_residual_PArray_Ok in Hrun. tauto.
Qed.

(** ** Level counts (C9) *)

(** A loop fails only where its body fails. *)
Lemma for_each_failure {S : Type} (idx : list nat)
    (body : nat → S → result S) (s : S) (f : failure) :
  for_each idx body s = Fail f → ∃ i s', body i s' = Fail f.
Proof.
  revert s. induction idx as [|i idx IH]; intros s H; simpl in H.
  - discriminate H.
  - destruct (body i s) as [s1|f1] eqn:Hb; simpl in H.
    + eapply IH, H.
    + injection H as ->. eauto.
Qed.

Lemma get_fluxes_loop_returns (s : FMultiGrid) (st : Store) (mgt : MGT_Solver)
    (arg : nat → result (PArray addr)) :
  length (m_geom s) = m_nlevels s → m_mgt_solver s = Some mgt →
  (∀ i, i < m_nlevels s → ∃ gp, arg i = Ok gp) →
  ∃ st', for_loop (m_nlevels s) (λ ilev st,
           g ← Array_at (m_geom s) ilev;
           let dx := CellSize g in
           gp ← arg ilev;
           mgt ← ptr_deref (m_mgt_solver s);
           mret (kernel_get_fluxes mgt st ilev gp dx)) st = Ok st'.
Proof.
  intros Hgeom Hm Harg.
  match goal with |- context [for_loop ?n ?body ?s0] =>
    destruct (for_loop_total (λ _ _, True) n body s0) as (x & Hx & _)
  end; [exact I | | eauto].
  intros i st0 Hi _.
  rewrite (Array_at_nth _ _ Geometry_default) by lia. simpl.
  destruct (Harg i Hi) as (gp & ->). simpl. rewrite Hm. simpl. eauto.
Qed.

(** C9, amended.  The single-level overloads [set_acoef(MultiFab&)],
    [set_bcoef(MultiFab* b)], [set_bcoef(PArray<MultiFab>&)],
    [set_gravity_coeffs(PArray<MultiFab>&)] and
    [get_grad_phi(PArray<MultiFab>&)] fail an assertion on an object that
    has not exactly one level, the assertion [m_nlevels == 1] when the
    variant is still Uninitialized.  The multi-level setters
    [set_acoef(PArray<MultiFab>&)], [set_bcoef(Array<PArray<MultiFab> >&)]
    and [set_gravity_coeffs(Array<PArray<MultiFab> >&)] fail an assertion
    when the size of their array is not [m_nlevels].  The two multi-level
    overloads of [get_grad_phi] assert nothing about the size of their
    array: they never fail an assertion, and on an object with a handle
    they return for every array that has an entry for each level. *)
Theorem level_count_preconditions (s : FMultiGrid) (st : Store)
    (Hreach : reachable s) :
  (∀ c, is_single_level c = true → m_nlevels s ≠ 1%nat →
     assertion_failed (run_call s st c)
     ∧ (eq_type (m_coeff s) = invalid_eq →
        run_call s st c = Fail (AssertionFailed "m_nlevels == 1")))
  ∧ (∀ a_ : PArray addr, length a_ ≠ m_nlevels s →
       assertion_failed (set_acoef_PArray s a_))
  ∧ (∀ b_ : Array (PArray addr), length b_ ≠ m_nlevels s →
       assertion_failed (set_bcoef_Array s b_))
  ∧ (∀ b_ : Array (PArray addr), length b_ ≠ m_nlevels s →
       assertion_failed (set_gravity_coeffs_Array s b_))
  ∧ (∀ gp, ¬ assertion_failed (get_grad_phi_Array s st gp))
  ∧ (∀ gp, ¬ assertion_failed (get_grad_phi_PArray_PArray s st gp))
  ∧ (∀ gp : Array (PArray addr),
       is_Some (m_mgt_solver s) → (m_nlevels s ≤ length gp)%nat →
       ∃ st', get_grad_phi_Array s st gp = Ok st')
  ∧ (∀ gp, is_Some (m_mgt_solver s) →
       (∀ i, i < m_nlevels s → ∃ g, gp !! i = Some (Some g)) →
       ∃ st', get_grad_phi_PArray_PArray s st gp = Ok st').
Proof.
  pose proof (reachable_consistent s Hreach) as (Hgeom & Hco & _).
  unfold coeff_consistent in Hco.
  split_and!.
  - intros c Hc Hn.
    apply (bool_decide_eq_false_2 (m_nlevels s = 1%nat)) in Hn.
    split.
    + destruct c; try discriminate Hc; simpl; unfold_setters;
        unfold get_grad_phi_PArray; rewrite ?Hn;
        repeat match goal with
        | |- context [BL_ASSERT ?b _] =>
            lazymatch b with
            | false => fail
            | true => fail
            | _ => destruct b
            end
        end; simpl; exact I.
    + intros Ht. rewrite Ht in Hco. destruct Hco as (_ & Ha & _ & Hb).
      destruct c; try discriminate Hc; simpl; unfold_setters;
        unfold get_grad_phi_PArray; rewrite ?Ht, ?Ha, ?Hb, ?Hn; reflexivity.
  - intros a_ Hn. unfold set_acoef_PArray.
    rewrite (bool_decide_eq_false_2 (m_nlevels s = length a_)) by congruence.
    destruct (is_invalid_or_general _), (a_set _); exact I.
  - intros b_ Hn. unfold set_bcoef_Array.
    rewrite (bool_decide_eq_false_2 (m_nlevels s = length b_)) by congruence.
    destruct (is_invalid_or_general _), (b_set _); exact I.
  - intros b_ Hn. unfold set_gravity_coeffs_Array.
    rewrite (bool_decide_eq_false_2 (length b_ = m_nlevels s)) by congruence.
    destruct (bool_decide _); exact I.
  - intros gp. unfold get_grad_phi_Array, for_loop.
    destruct (for_each _ _ _) as [st'|f] eqn:Hrun; [auto|].
    apply for_each_failure in Hrun as (i & st0 & Hbody).
    unfold Array_at, ptr_deref in Hbody.
    repeat (case_match; simpl in Hbody; try discriminate Hbody);
      injection Hbody as <-; auto.
  - intros gp. unfold get_grad_phi_PArray_PArray, for_loop.
    destruct (for_each _ _ _) as [st'|f] eqn:Hrun; [auto|].
    apply for_each_failure in Hrun as (i & st0 & Hbody).
    unfold Array_at, PArray_at, ptr_deref in Hbody.
    repeat (case_match; simpl in Hbody; try discriminate Hbody);
      injection Hbody as <-; auto.
  - intros gp [mgt Hm] Hlen. unfold get_grad_phi_Array.
    apply (get_fluxes_loop_returns s st mgt (Array_at gp) Hgeom Hm).
    intros i Hi. destruct (lookup_lt_is_Some_2 gp i) as [g Hg]; [lia|].
    exists g. apply Array_at_Ok. exact Hg.
  - intros gp [mgt Hm] Hall. unfold get_grad_phi_PArray_PArray.
    apply (get_fluxes_loop_returns s st mgt (PArray_at gp) Hgeom Hm).
    intros i Hi. destruct (Hall i Hi) as [g Hg].
    exists g. apply PArray_at_Ok. exact Hg.
Qed.

(** * Further properties of the code *)

(** ** More on the loops *)

Lemma for_each_ext {S : Type} (idx : list nat)
    (body1 body2 : nat → S → result S) (s : S) :
  (∀ i s, i ∈ idx → body1 i s = body2 i s) →
  for_each idx body1 s = for_each idx body2 s.
Proof.
  revert s. induction idx as [|i idx IH]; intros s H; simpl; [reflexivity|].
  rewrite H by left. destruct (body2 i s) as [s1|f]; simpl; [|reflexivity].
  apply IH. intros j s2 Hj. apply H. right. exact Hj.
Qed.

Lemma foldl_set_length {A : Type} (v : nat → A) (l : list nat) (r : list A) :
  length (foldl (λ r n, <[n := v n]> r) r l) = length r.
Proof.
  revert r. induction l as [|m l IH]; intros r; simpl; [reflexivity|].
  rewrite IH. apply length_insert.
Qed.

Lemma foldl_set_other {A : Type} (v : nat → A) (l : list nat) (r : list A)
    (n : nat) :
  n ∉ l → foldl (λ r n, <[n := v n]> r) r l !! n = r !! n.
Proof.
  revert r. induction l as [|m l IH]; intros r Hn; simpl; [reflexivity|].
  apply not_elem_of_cons in Hn as [Hne Hn].
  rewrite IH by exact Hn. apply list_lookup_insert_ne. congruence.
Qed.

Lemma foldl_set_lookup {A : Type} (v : nat → A) (l : list nat) (r : list A)
    (n : nat) :
  n ∈ l → n < length r →
  foldl (λ r n, <[n := v n]> r) r l !! n = Some (v n).
Proof.
  revert r. induction l as [|m l IH]; intros r Hn Hlen; simpl.
  - apply elem_of_nil in Hn. contradiction.
  - destruct (decide (n ∈ l)) as [Hin|Hout].
    + apply IH; [exact Hin | rewrite length_insert; exact Hlen].
    + apply elem_of_cons in Hn as [->|Hin]; [|contradiction].
      rewrite foldl_set_other by exact Hout.
      apply list_lookup_insert_eq. exact Hlen.
Qed.

Lemma foldl_alter_row {A : Type} (g : nat → list A → list A) (l : list nat)
    (k : nat) (d : list (list A)) :
  foldl (λ d i, alter (g i) k d) d l
  = alter (λ row, foldl (λ r i, g i r) row l) k d.
Proof.
  revert d. induction l as [|i l IH]; intros d; simpl.
  - symmetry. apply list_alter_id. reflexivity.
  - rewrite IH, list_alter_alter_eq. reflexivity.
Qed.

Lemma live_slot {A : Type} (l : PArray A) (i : nat) :
  Forall is_Some l → i < length l → ∃ p, l !! i = Some (Some p).
Proof.
  intros Hall Hi. destruct (lookup_lt_is_Some_2 l i Hi) as [o Ho].
  destruct (Forall_lookup_1 _ _ _ _ Hall Ho) as [p ->]. eauto.
Qed.

(** The loop of [Copy] over one row: slot by slot, in place. *)
Lemma copy_slots_returns (src : PArray addr) (n : nat) (dst : PArray addr) :
  length dst = n → (n ≤ length src)%nat → Forall is_Some (take n src) →
  for_loop n (λ i dst, p ← PArray_at src i; mret (PArray_set i p dst)) dst
  = Ok (take n src).
Proof.
  intros Hlen Hn Hall.
  match goal with |- for_loop ?n ?body ?s0 = _ =>
    destruct (for_loop_total
      (λ k d, length d = n ∧ ∀ i, i < k → d !! i = src !! i) n body s0)
      as (d & -> & Hd & Hsame)
  end.
  - split; [exact Hlen | intros i Hi; lia].
  - intros i d Hi [Hd Hsame].
    destruct (live_slot (take n src) i Hall) as [p Hp].
    { rewrite length_take. lia. }
    rewrite lookup_take_lt in Hp by exact Hi.
    rewrite (PArray_at_Ok _ _ _ Hp). simpl. eexists. split; [reflexivity|].
    unfold PArray_set. split; [rewrite length_insert; exact Hd|].
    intros j Hj. destruct (decide (j = i)) as [->|Hne].
    + rewrite list_lookup_insert_eq by lia. symmetry. exact Hp.
    + rewrite list_lookup_insert_ne by congruence. apply Hsame. lia.
  - f_equal. apply list_eq. intros i.
    destruct (decide (i < n)) as [Hi|Hi].
    + rewrite lookup_take_lt by exact Hi. apply Hsame. exact Hi.
    + rewrite !lookup_ge_None_2; [reflexivity | rewrite length_take | ]; lia.
Qed.

(** ** [Copy] *)

Lemma Copy_PArray_live (dst src : PArray addr) :
  Forall is_Some src → Copy_PArray dst src = Ok src.
Proof.
  intros Hall. unfold Copy_PArray. rewrite copy_slots_returns.
  - rewrite firstn_all. reflexivity.
  - apply Array_resize_length.
  - lia.
  - rewrite firstn_all. exact Hall.
Qed.

Lemma Copy_PArray_null (dst src : PArray addr) :
  ¬ Forall is_Some src → Copy_PArray dst src = Fail NullDereference.
Proof.
  intros Hnull. unfold Copy_PArray.
  apply (slots_loop_null src (λ ilev p d, PArray_set ilev p d)). exact Hnull.
Qed.

(** X1.  [Copy(PArray<MultiFab>&, PArray<MultiFab>&)] into a destination
    that holds no field (empty, or of any length with every slot null, as
    every destination in this file is): the destination becomes the source,
    slot for slot, when no slot of the source is null; the copy
    dereferences a null slot otherwise. *)
Theorem Copy_PArray_into_empty (dst src : PArray addr)
    (Hdst : Forall (λ o, o = None) dst) :
  (Forall is_Some src → Copy_PArray dst src = Ok src)
  ∧ (¬ Forall is_Some src → Copy_PArray dst src = Fail NullDereference).
Proof.
  split; [apply Copy_PArray_live | apply Copy_PArray_null].
Qed.


Lemma Array_resize_one {A : Type} (d : A) (l : list A) :
  ∃ x, Array_resize 1 d l = [x].
Proof. destruct l as [|x l]; simpl; eauto. Qed.

(** The loop of [Copy] into row [k] of an array of rows. *)
Lemma copy_row_returns (src : PArray addr) (n k : nat)
    (d : list (PArray addr)) (row : PArray addr) :
  d !! k = Some row → length row = n → (n ≤ length src)%nat →
  Forall is_Some (take n src) →
  for_loop n (λ i d, p ← PArray_at src i;
                     mret (alter (PArray_set i p) k d)) d
  = Ok (<[k := take n src]> d).
Proof.
  intros Hk Hlen Hn Hall.
  match goal with |- for_loop ?n ?body ?s0 = _ =>
    destruct (for_loop_total
      (λ m d', ∃ row', d' = <[k := row']> d ∧ length row' = n
                        ∧ ∀ i, i < m → row' !! i = src !! i) n body s0)
      as (d' & -> & row' & -> & Hlen' & Hsame)
  end.
  - exists row. split; [symmetry; apply list_insert_id; exact Hk|].
    split; [exact Hlen | intros i Hi; lia].
  - intros i d' Hi (row' & -> & Hlen' & Hsame).
    destruct (live_slot (take n src) i Hall) as [p Hp].
    { rewrite length_take. lia. }
    rewrite lookup_take_lt in Hp by exact Hi.
    rewrite (PArray_at_Ok _ _ _ Hp). simpl. eexists. split; [reflexivity|].
    exists (PArray_set i p row'). split.
    + rewrite !list_insert_alter, list_alter_alter_eq. reflexivity.
    + unfold PArray_set. split; [rewrite length_insert; exact Hlen'|].
      intros j Hj. destruct (decide (j = i)) as [->|Hne].
      * rewrite list_lookup_insert_eq by lia. symmetry. exact Hp.
      * rewrite list_lookup_insert_ne by congruence. apply Hsame. lia.
  - do 2 f_equal. apply list_eq. intros i.
    destruct (decide (i < n)) as [Hi|Hi].
    + rewrite lookup_take_lt by exact Hi. apply Hsame. exact Hi.
    + rewrite !lookup_ge_None_2; [reflexivity | rewrite length_take | ]; lia.
Qed.

Lemma Copy_Array_PArray_live (dst : Array (PArray addr))
    (src : PArray addr) :
  Forall is_Some src → Copy_Array_PArray dst src = Ok [src].
Proof.
  intros Hall. unfold Copy_Array_PArray.
  destruct (Array_resize_one [] dst) as [row ->]. simpl.
  rewrite (copy_row_returns src (length src) 0 _
             (PArray_resize (length src) row)).
  - rewrite firstn_all. reflexivity.
  - reflexivity.
  - apply Array_resize_length.
  - lia.
  - rewrite firstn_all. exact Hall.
Qed.

Lemma Copy_Array_PArray_null (dst : Array (PArray addr))
    (src : PArray addr) :
  ¬ Forall is_Some src → Copy_Array_PArray dst src = Fail NullDereference.
Proof.
  intros Hnull. unfold Copy_Array_PArray.
  destruct (Array_resize_one [] dst) as [row ->]. simpl.
  apply (slots_loop_null src (λ i p d, alter (PArray_set i p) 0%nat d)).
  exact Hnull.
Qed.

(** X2.  [Copy(Array<PArray<MultiFab> >&, PArray<MultiFab>&)] into a
    destination that holds no field (no row, or rows whose slots are all
    null): the destination becomes the one-row array holding the source
    when no slot of the source is null; the copy dereferences a null slot
    otherwise. *)
Theorem Copy_Array_PArray_into_empty (dst : Array (PArray addr))
    (src : PArray addr)
    (Hdst : Forall (Forall (λ o, o = None)) dst) :
  (Forall is_Some src → Copy_Array_PArray dst src = Ok [src])
  ∧ (¬ Forall is_Some src →
     Copy_Array_PArray dst src = Fail NullDereference).
Proof.
  split; [apply Copy_Array_PArray_live | apply Copy_Array_PArray_null].
Qed.

(** [Copy(Array<PArray<MultiFab> >&, MultiFab* src, int ndim)] makes the
    destination the one-row array of the addresses of the [ndim]
    consecutive fields from [src] on, whatever the destination held. *)
Lemma Copy_Array_ptr_consecutive (dst : Array (PArray addr)) (src : addr)
    (ndim : nat) :
  Copy_Array_ptr dst src ndim = [(λ idim, Some (src + idim)) <$> seq 0 ndim].
Proof.
  unfold Copy_Array_ptr.
  destruct (Array_resize_one [] dst) as [row ->]. simpl.
  rewrite (foldl_alter_row (λ idim, PArray_set idim (src + idim))). simpl.
  f_equal. unfold PArray_set. apply list_eq. intros i.
  rewrite list_lookup_fmap.
  destruct (decide (i < ndim)) as [Hi|Hi].
  - rewrite (foldl_set_lookup (λ idim, Some (src + idim))).
    + rewrite lookup_seq_lt by exact Hi. reflexivity.
    + apply elem_of_seq. lia.
    + unfold PArray_resize. rewrite Array_resize_length. exact Hi.
  - rewrite lookup_ge_None_2.
    + rewrite lookup_seq_ge by lia. reflexivity.
    + rewrite foldl_set_length. unfold PArray_resize.
      rewrite Array_resize_length. lia.
Qed.

Lemma Copy_Array_Array_cut (dst src : Array (PArray addr))
    (src0 : PArray addr) :
  src !! 0%nat = Some src0 →
  Forall (λ row, (length src0 ≤ length row)%nat
                 ∧ Forall is_Some (take (length src0) row)) src →
  Copy_Array_Array dst src = Ok (take (length src0) <$> src).
Proof.
  intros H0 Hrows. unfold Copy_Array_Array.
rewrite (proj2 (Array_at_Ok _ _ _) H0). simpl.
set (ndim := length src0).
match goal with |- for_loop ?n ?body ?s0 = _ =>
  destruct (for_loop_total
    (λ k d, length d = length src
            ∧ ∀ i, i < k → d !! i = take ndim <$> src !! i) n body s0)
    as (d & -> & Hlen & Hsame)
end.
- split; [apply Array_resize_length | intros i Hi; lia].
- intros ilev d Hi [Hlen Hsame].
  destruct (lookup_lt_is_Some_2 src ilev Hi) as [src_lev Hlev].
  destruct (Forall_lookup_1 _ _ _ _ Hrows Hlev) as [Hn Hall].
  destruct (lookup_lt_is_Some_2 d ilev) as [row Hrow]; [lia|].
  unfold for_loop.
  rewrite (for_each_ext _ _
    (λ idim d, p ← PArray_at src_lev idim;
               mret (alter (PArray_set idim p) ilev d))).
  2:{ intros i s _. rewrite (proj2 (Array_at_Ok _ _ _) Hlev).
      reflexivity. }
  fold (for_loop ndim
    (λ idim d, p ← PArray_at src_lev idim;
               mret (alter (PArray_set idim p) ilev d))
    (alter (PArray_resize ndim) ilev d)).
  rewrite (copy_row_returns src_lev ndim ilev _ (PArray_resize ndim row)).
  + eexists. split; [reflexivity|]. split.
    * rewrite length_insert, length_alter. exact Hlen.
    * intros j Hj. destruct (decide (j = ilev)) as [->|Hne].
      -- rewrite list_lookup_insert_eq
           by (rewrite length_alter; lia).
         rewrite Hlev. reflexivity.
      -- rewrite list_lookup_insert_ne by congruence.
         rewrite list_lookup_alter_ne by congruence.
         apply Hsame. lia.
  + rewrite list_lookup_alter_eq, Hrow. reflexivity.
  + apply Array_resize_length.
  + exact Hn.
  + exact Hall.
- f_equal. apply list_eq. intros i. rewrite list_lookup_fmap.
  destruct (decide (i < length src)) as [Hi|Hi].
  + apply Hsame. exact Hi.
  + rewrite !lookup_ge_None_2; [reflexivity | | ]; lia.
Qed.

Lemma Copy_Array_Array_rectangular (dst src : Array (PArray addr))
    (src0 : PArray addr) :
  src !! 0%nat = Some src0 →
  Forall (λ row, length row = length src0 ∧ Forall is_Some row) src →
  Copy_Array_Array dst src = Ok src.
Proof.
  intros H0 Hrows. rewrite (Copy_Array_Array_cut dst src src0 H0).
  - f_equal. apply list_eq. intros i. rewrite list_lookup_fmap.
    destruct (src !! i) as [row|] eqn:Hi; [|reflexivity]. simpl.
    destruct (Forall_lookup_1 _ _ _ _ Hrows Hi) as [<- _].
    rewrite firstn_all. reflexivity.
  - eapply Forall_impl; [exact Hrows|]. intros row [Hn Hall].
    rewrite <- Hn, firstn_all. split; [lia | exact Hall].
Qed.

(** X3.  [Copy(Array<PArray<MultiFab> >&, Array<PArray<MultiFab> >&)] takes
    the row length [ndim] from the first row of the source: on an empty
    source it indexes past the end; when every row has [ndim] non-null
    slots or more, the destination becomes the source with every row cut to
    its first [ndim] slots, whatever the destination held; so a source whose
    rows all have the length of the first and no null slot is copied as it
    is. *)
Theorem Copy_Array_Array_rows (dst src : Array (PArray addr)) :
  (src = [] → Copy_Array_Array dst src = Fail OutOfBounds)
  ∧ (∀ src0, src !! 0%nat = Some src0 →
       Forall (λ row, (length src0 ≤ length row)%nat
                      ∧ Forall is_Some (take (length src0) row)) src →
       Copy_Array_Array dst src = Ok (take (length src0) <$> src))
  ∧ (∀ src0, src !! 0%nat = Some src0 →
       Forall (λ row, length row = length src0 ∧ Forall is_Some row) src →
       Copy_Array_Array dst src = Ok src).
Proof.
  split_and!.
  - intros ->. reflexivity.
  - apply Copy_Array_Array_cut.
  - apply Copy_Array_Array_rectangular.
Qed.


(** ** Constructors *)

(** X4.  The three constructors agree: the one for a single geometry builds
    what the [std::vector] one builds from the one-element vector, and the
    [PArray] one builds what the [std::vector] one builds from the
    geometries its slots point to.  On a [PArray] with a null slot the
    constructor dereferences the null slot, before it comes to the check of
    the ratio. *)
Theorem constructors_agree (baselevel : Z) (crse_ratio : IntVect) :
  (∀ geom, FMultiGrid_Geometry geom baselevel crse_ratio
           = FMultiGrid_vector [geom] baselevel crse_ratio)
  ∧ (∀ geom : list Geometry,
       FMultiGrid_PArray (Some <$> geom) baselevel crse_ratio
       = FMultiGrid_vector geom baselevel crse_ratio)
  ∧ (∀ geom : PArray Geometry, ¬ Forall is_Some geom →
       FMultiGrid_PArray geom baselevel crse_ratio = Fail NullDereference).
Proof.
  split_and!.
  - intros geom. reflexivity.
  - intros geom. unfold FMultiGrid_PArray, FMultiGrid_vector. simpl.
    rewrite length_fmap.
    match goal with |- context [for_loop ?n ?body ?s0] =>
      destruct (for_loop_total
        (λ k g, length g = length geom ∧ ∀ i, i < k → g !! i = geom !! i)
        n body s0) as (g & -> & Hlen & Hsame)
    end.
    + split; [apply length_replicate | intros i Hi; lia].
    + intros i g Hi [Hlen Hsame].
      destruct (lookup_lt_is_Some_2 geom i Hi) as [gi Hgi].
      rewrite (PArray_at_Ok _ _ gi)
        by (rewrite list_lookup_fmap, Hgi; reflexivity).
      simpl. eexists. split; [reflexivity|].
      split; [rewrite length_insert; exact Hlen|].
      intros j Hj. destruct (decide (j = i)) as [->|Hne].
      * rewrite list_lookup_insert_eq by lia. symmetry. exact Hgi.
      * rewrite list_lookup_insert_ne by congruence. apply Hsame. lia.
    + simpl. replace g with geom; [reflexivity|].
      apply list_eq. intros i. destruct (decide (i < length geom)) as [Hi|Hi].
      * symmetry. apply Hsame. exact Hi.
      * rewrite !lookup_ge_None_2; [reflexivity | | ]; lia.
  - intros geom Hnull. unfold FMultiGrid_PArray. simpl.
    apply null_slot in Hnull as (i & Hi & Hnone).
    unfold for_loop.
    destruct (for_each _ _ _) as [d|f] eqn:Hrun.
    + eapply for_each_Ok_bodies with (i := i) in Hrun
        as (si & si' & Hbody); [|apply elem_of_seq; lia].
      unfold PArray_at in Hbody. rewrite Hnone in Hbody. discriminate Hbody.
    + apply for_each_fails_at in Hrun as (j & s' & Hj & Hbody).
      apply elem_of_seq in Hj.
      destruct (lookup_lt_is_Some_2 geom j) as [o Ho]; [lia|].
      unfold PArray_at in Hbody. rewrite Ho in Hbody.
      destruct o; simpl in Hbody; [discriminate Hbody|].
      injection Hbody as <-. reflexivity.
Qed.

(** ** What the array setters store *)

Lemma Copy_MultiFab_one (dst : PArray addr) (src : addr) :
  Copy_MultiFab dst src = [Some src].
Proof.
  unfold Copy_MultiFab, PArray_resize.
  destruct (Array_resize_one None dst) as [x ->]. reflexivity.
Qed.

(** A field member that is not marked holds nothing: the constructors
    leave both members empty, and every setter that writes one marks it. *)
Lemma unmarked_fields_empty (s : FMultiGrid) :
  reachable s →
  (a_set (m_coeff s) = false → a (m_coeff s) = [])
  ∧ (b_set (m_coeff s) = false → b (m_coeff s) = []).
Proof.
  induction 1 as [g bl r s H | g bl r s H | g bl r s H | s st c s' st' _ IH H].
  - unfold FMultiGrid_Geometry in H. case_match; [discriminate|].
    injection H as <-. simpl. auto.
  - unfold FMultiGrid_vector in H. case_match; [discriminate|].
    injection H as <-. simpl. auto.
  - unfold FMultiGrid_PArray in H. apply bind_Ok in H as (g' & _ & H).
    case_match; [discriminate|]. injection H as <-. simpl. auto.
  - destruct IH as [IHa IHb].
    destruct c; simpl in H;
      unfold_setters;
      unfold set_bc, set_bc_phi, set_bc_crse_phi, solve_MultiFab,
        compute_residual_MultiFab in H;
      inv_ok; subst;
      repeat match goal with
      | Hr : solve_PArray _ _ _ _ _ _ _ _ _ = Ok _ |- _ =>
          apply solve_PArray_Ok in Hr
            as (_ & _ & _ & _ & (_ & _ & _ & _ & _ & _ & _ & ->) & _)
      | Hr : compute_residual_PArray _ _ _ _ _ = Ok _ |- _ =>
          apply compute_residual_PArray_Ok in Hr
            as (_ & _ & _ & _ & (_ & _ & _ & _ & _ & _ & _ & ->) & _)
      end;
      simpl; split; intros; auto; discriminate.
Qed.

(** X5.  On an object a program can hold, a field member not yet marked
    holds nothing, and a setter of the [A] or [B] fields whose checks pass
    stores the fields it reads, with the variant general (gravity for the
    gravity setters), the sub-value marked and nothing else changed:
    [set_acoef] on one field stores [[a]]; [set_bcoef] on a field pointer
    stores the [BL_SPACEDIM] consecutive fields from the pointer on; the
    overloads on one pointer array store the array given when no slot of it
    is null, and dereference a null slot otherwise, the checks having
    passed; the overloads on an array of pointer arrays, when every row has
    [BL_SPACEDIM] slots or more and no null slot among its first
    [BL_SPACEDIM], store every row cut to its first [BL_SPACEDIM] slots. *)
Theorem array_setters_store (s : FMultiGrid) (Hreach : reachable s) :
  let c := m_coeff s in
  let first_slots (b_ : Array (PArray addr)) :=
    Forall (λ row, (BL_SPACEDIM ≤ length row)%nat
                   ∧ Forall is_Some (take BL_SPACEDIM row)) b_ in
  (a_set c = false → a c = [])
  ∧ (b_set c = false → b c = [])
  ∧ (is_invalid_or_general (eq_type c) = true →
     (∀ a_, a_set c = false → m_nlevels s = 1%nat →
        set_acoef_MultiFab s a_
        = Ok (with_coeff s (coeff_with_a c [Some a_])))
     ∧ (∀ a_ : PArray addr, a_set c = false → m_nlevels s = length a_ →
          (Forall is_Some a_ →
           set_acoef_PArray s a_ = Ok (with_coeff s (coeff_with_a c a_)))
          ∧ (¬ Forall is_Some a_ →
             set_acoef_PArray s a_ = Fail NullDereference))
     ∧ (∀ b_, b_set c = false → m_nlevels s = 1%nat →
          set_bcoef_ptr s b_
          = Ok (with_coeff s
                  (coeff_with_b c general_eq
                     [(λ idim, Some (b_ + idim)) <$> seq 0 BL_SPACEDIM])))
     ∧ (∀ b_ : PArray addr, b_set c = false → m_nlevels s = 1%nat →
          length b_ = BL_SPACEDIM →
          (Forall is_Some b_ →
           set_bcoef_PArray s b_
           = Ok (with_coeff s (coeff_with_b c general_eq [b_])))
          ∧ (¬ Forall is_Some b_ →
             set_bcoef_PArray s b_ = Fail NullDereference))
     ∧ (∀ (b_ : Array (PArray addr)) b0, b_set c = false →
          m_nlevels s = length b_ →
          b_ !! 0%nat = Some b0 → length b0 = BL_SPACEDIM →
          first_slots b_ →
          set_bcoef_Array s b_
          = Ok (with_coeff s
                  (coeff_with_b c general_eq (take BL_SPACEDIM <$> b_)))))
  ∧ (eq_type c = invalid_eq →
     (∀ b_ : PArray addr, m_nlevels s = 1%nat → length b_ = BL_SPACEDIM →
        (Forall is_Some b_ →
         set_gravity_coeffs_PArray s b_
         = Ok (with_coeff s (coeff_with_b c gravity_eq [b_])))
        ∧ (¬ Forall is_Some b_ →
           set_gravity_coeffs_PArray s b_ = Fail NullDereference))
     ∧ (∀ (b_ : Array (PArray addr)) b0, length b_ = m_nlevels s →
          b_ !! 0%nat = Some b0 → length b0 = BL_SPACEDIM →
          first_slots b_ →
          set_gravity_coeffs_Array s b_
          = Ok (with_coeff s
                  (coeff_with_b c gravity_eq (take BL_SPACEDIM <$> b_))))).
Proof.
  intros c first_slots.
  destruct (unmarked_fields_empty s Hreach) as [Hea Heb].
  assert (Hrows : ∀ (dst b_ : Array (PArray addr)) b0,
    b_ !! 0%nat = Some b0 → length b0 = BL_SPACEDIM → first_slots b_ →
    Copy_Array_Array dst b_ = Ok (take BL_SPACEDIM <$> b_)).
  { intros dst b_ b0 Hb0 Hlen0 Hall.
    rewrite (Copy_Array_Array_cut dst b_ b0 Hb0); rewrite Hlen0;
      [reflexivity | exact Hall]. }
  split; [exact Hea|]. split; [exact Heb|]. split.
  - intros Htag. split_and!.
    + intros a_ Ha Hn. unfold set_acoef_MultiFab. fold c.
      rewrite Htag, Ha, Hn, Copy_MultiFab_one. reflexivity.
    + intros a_ Ha Hn. unfold set_acoef_PArray. fold c.
      rewrite Htag, Ha, Hn. simpl.
      rewrite bool_decide_eq_true_2 by reflexivity. simpl.
      split; intros Hall.
      * rewrite (Copy_PArray_live (a c) a_ Hall). reflexivity.
      * rewrite (Copy_PArray_null (a c) a_ Hall). reflexivity.
    + intros b_ Hb Hn. unfold set_bcoef_ptr. fold c.
      rewrite Htag, Hb, Hn, Copy_Array_ptr_consecutive. reflexivity.
    + intros b_ Hb Hn Hlen. unfold set_bcoef_PArray. fold c.
      rewrite Htag, Hb, Hn, Hlen. simpl.
      rewrite bool_decide_eq_true_2 by reflexivity. simpl.
      split; intros Hall.
      * rewrite (Copy_Array_PArray_live (b c) b_ Hall). reflexivity.
      * rewrite (Copy_Array_PArray_null (b c) b_ Hall). reflexivity.
    + intros b_ b0 Hb Hn Hb0 Hlen0 Hall. unfold set_bcoef_Array. fold c.
      rewrite Htag, Hb, Hn. simpl.
      rewrite bool_decide_eq_true_2 by reflexivity. simpl.
      rewrite (proj2 (Array_at_Ok _ _ _) Hb0). simpl.
      rewrite bool_decide_eq_true_2 by exact Hlen0. simpl.
      rewrite (Hrows (b c) b_ b0 Hb0 Hlen0 Hall). reflexivity.
  - intros Htag. split_and!.
    + intros b_ Hn Hlen. unfold set_gravity_coeffs_PArray. fold c.
      rewrite Htag, Hn, Hlen. simpl.
      rewrite bool_decide_eq_true_2 by reflexivity. simpl.
      split; intros Hall.
      * rewrite (Copy_Array_PArray_live (b c) b_ Hall). reflexivity.
      * rewrite (Copy_Array_PArray_null (b c) b_ Hall). reflexivity.
    + intros b_ b0 Hn Hb0 Hlen0 Hall. unfold set_gravity_coeffs_Array. fold c.
      rewrite Htag, Hn. simpl.
      rewrite bool_decide_eq_true_2 by reflexivity. simpl.
      rewrite (proj2 (Array_at_Ok _ _ _) Hb0). simpl.
      rewrite bool_decide_eq_true_2 by exact Hlen0. simpl.
      rewrite (Hrows (b c) b_ b0 Hb0 Hlen0 Hall). reflexivity.
Qed.


(** ** What the calls leave alone *)

(** X6.  A call that returns leaves the number of levels, the base level,
    the ratio, the stencil, the verbosity and the geometries as the
    constructor set them; only [set_bc] changes the boundary descriptor,
    and only the coefficient setters change the coefficient descriptor. *)
Theorem calls_keep_configuration (s : FMultiGrid) (st : Store) (c : Call)
    (s' : FMultiGrid) (st' : Store)
    (Hrun : run_call s st c = Ok (s', st')) :
  m_nlevels s' = m_nlevels s ∧ m_baselevel s' = m_baselevel s
  ∧ m_crse_ratio s' = m_crse_ratio s ∧ m_stencil s' = m_stencil s
  ∧ m_verbose s' = m_verbose s ∧ m_geom s' = m_geom s
  ∧ (is_set_bc c = false → m_bc s' = m_bc s)
  ∧ (is_coeff_setter c = false → m_coeff s' = m_coeff s).
Proof.
  destruct c; simpl in Hrun;
    unfold_setters;
    unfold set_bc, set_bc_phi, set_bc_crse_phi, solve_MultiFab,
      compute_residual_MultiFab in Hrun;
    inv_ok; subst;
    repeat match goal with
    | Hr : solve_PArray _ _ _ _ _ _ _ _ _ = Ok _ |- _ =>
        apply solve_PArray_Ok in Hr
          as (_ & _ & _ & _ & (? & ? & ? & ? & ? & ? & ? & ?) & _)
    | Hr : compute_residual_PArray _ _ _ _ _ = Ok _ |- _ =>
        apply compute_residual_PArray_Ok in Hr
          as (_ & _ & _ & _ & (? & ? & ? & ? & ? & ? & ? & ?) & _)
    end;
    simpl; split_and!; auto; discriminate.
Qed.

(** ** The order of the general setters *)

(** X7.  Two setters of different sub-values of the general variant can be
    called in either order: both orders return or neither does, and when
    they return they leave the same object. *)
Theorem general_setters_commute (s : FMultiGrid) (st : Store)
    (c1 c2 : Call) (v1 v2 : SubValue) (r : FMultiGrid * Store)
    (H1 : general_sub_value c1 = Some v1)
    (H2 : general_sub_value c2 = Some v2)
    (Hne : v1 ≠ v2) :
  run_calls s st [c1; c2] = Ok r ↔ run_calls s st [c2; c1] = Ok r.
Proof.
  destruct c1; try discriminate H1; destruct c2; try discriminate H2;
    simpl in H1, H2; try (exfalso; congruence); clear H1 H2 Hne;
    unfold run_calls, run_call; unfold_setters;
    repeat (first
      [ match goal with
        | H : ?b = _ |- context [BL_ASSERT ?b _] => rewrite H
        | H : Array_at ?l ?i = _ |- context [Array_at ?l ?i] => rewrite H
        | H : Copy_PArray ?d ?l = _ |- context [Copy_PArray ?d ?l] =>
            rewrite H
        | H : Copy_Array_PArray ?d ?l = _
          |- context [Copy_Array_PArray ?d ?l] => rewrite H
        | H : Copy_Array_Array ?d ?l = _
          |- context [Copy_Array_Array ?d ?l] => rewrite H
        end
      | match goal with
        | |- context [BL_ASSERT ?b _] =>
            lazymatch b with
            | true => fail
            | false => fail
            | _ => destruct b eqn:?
            end
        | |- context [Array_at ?l ?i] => destruct (Array_at l i) eqn:?
        | |- context [Copy_PArray ?d ?l] => destruct (Copy_PArray d l) eqn:?
        | |- context [Copy_Array_PArray ?d ?l] =>
            destruct (Copy_Array_PArray d l) eqn:?
        | |- context [Copy_Array_Array ?d ?l] =>
            destruct (Copy_Array_Array d l) eqn:?
        end ];
      simpl);
    try (split; intros Hf; discriminate Hf);
    try reflexivity.
Qed.


(** ** What [solve] hands to the kernel *)

(** As [inv_ok], keeping the equation of a destructured pair. *)
Ltac inv_ok_eq :=
  repeat first
    [ match goal with
      | H : match ?p with pair _ _ => _ end = Ok _ |- _ =>
          let Hp := fresh "Hpair" in destruct p eqn:Hp
      end
    | inv_ok_step ].

Lemma PArray_at_inv {A : Type} (l : PArray A) (i : nat) (x : A) :
  PArray_at l i = Ok x → l !! i = Some (Some x).
Proof.
  unfold PArray_at. destruct (l !! i) as [[y|]|]; intros H;
    try discriminate H. injection H as ->. reflexivity.
Qed.

Lemma deref_inv (st : Store) (p : addr) (mf : MultiFab) :
  deref st p = Ok mf → st !! p = Some mf.
Proof.
  unfold deref. destruct (st !! p); intros H; [|discriminate H].
  injection H as ->. reflexivity.
Qed.

(** The pointer arrays of [solve]: the addresses in the first [n] slots. *)
Lemma pointer_arrays_inv (n : nat) (l1 l2 : PArray addr) (pp rp : list addr) :
  for_loop n (λ ilev '(phi_p, rhs_p),
    p ← PArray_at l1 ilev;
    r ← PArray_at l2 ilev;
    mret (phi_p ++ [p], rhs_p ++ [r])) ([], []) = Ok (pp, rp) →
  take n l1 = Some <$> pp ∧ take n l2 = Some <$> rp.
Proof.
  apply (for_loop_inv
    (λ k x, take k l1 = Some <$> x.1 ∧ take k l2 = Some <$> x.2)).
  - split; reflexivity.
  - intros i [pp0 rp0] [pp1 rp1] _ [H1 H2] Hbody. simpl in *. inv_ok.
    subst.
    repeat match goal with
    | H : PArray_at _ _ = Ok _ |- _ => apply PArray_at_inv in H
    end.
    split; erewrite take_S_r by eassumption; rewrite fmap_app;
      f_equal; assumption.
Qed.

Lemma pointer_arrays3_inv (n : nat) (l1 l2 l3 : PArray addr)
    (pp rp qp : list addr) :
  for_loop n (λ ilev '(phi_p, rhs_p, res_p),
    p ← PArray_at l1 ilev;
    r ← PArray_at l2 ilev;
    q ← PArray_at l3 ilev;
    mret (phi_p ++ [p], rhs_p ++ [r], res_p ++ [q])) ([], [], [])
  = Ok (pp, rp, qp) →
  take n l1 = Some <$> pp ∧ take n l2 = Some <$> rp
  ∧ take n l3 = Some <$> qp.
Proof.
  apply (for_loop_inv
    (λ k x, take k l1 = Some <$> x.1.1 ∧ take k l2 = Some <$> x.1.2
            ∧ take k l3 = Some <$> x.2)).
  - split_and!; reflexivity.
  - intros i [[pp0 rp0] qp0] [[pp1 rp1] qp1] _ (H1 & H2 & H3) Hbody.
    simpl in *. inv_ok. subst.
    repeat match goal with
    | H : PArray_at _ _ = Ok _ |- _ => apply PArray_at_inv in H
    end.
    split_and!; erewrite take_S_r by eassumption; rewrite fmap_app;
      f_equal; assumption.
Qed.

(** The layout vectors of [init_mgt_solver]: those of the fields of the
    first [n] levels. *)
Lemma layouts_inv (n : nat) (st : Store) (fields : PArray addr)
    (dmap : list DistributionMapping) (ba : list BoxArray) :
  for_loop n (λ ilev '(dmap, ba),
    p ← PArray_at fields ilev;
    mf ← deref st p;
    mret (dmap ++ [DistributionMap mf], ba ++ [boxArray mf])) ([], [])
  = Ok (dmap, ba) →
  ∃ mfs, Forall2 (λ o mf, ∃ p, o = Some p ∧ st !! p = Some mf)
                 (take n fields) mfs
         ∧ dmap = DistributionMap <$> mfs ∧ ba = boxArray <$> mfs.
Proof.
  apply (for_loop_inv
    (λ k x, ∃ mfs, Forall2 (λ o mf, ∃ p, o = Some p ∧ st !! p = Some mf)
                           (take k fields) mfs
                   ∧ x.1 = DistributionMap <$> mfs
                   ∧ x.2 = boxArray <$> mfs)).
  - exists []. split_and!; [constructor | reflexivity..].
  - intros i [dm0 ba0] [dm1 ba1] _ (mfs & HF & Hd & Hb) Hbody.
    simpl in *. inv_ok. subst.
    match goal with
    | Hp : PArray_at _ _ = Ok ?p, Hm : deref _ ?p = Ok ?mf |- _ =>
        apply PArray_at_inv in Hp; apply deref_inv in Hm;
        exists (mfs ++ [mf]); split_and!;
          [ erewrite take_S_r by exact Hp; apply Forall2_app; [exact HF|];
            constructor; [eauto | constructor]
          | rewrite fmap_app; reflexivity
          | rewrite fmap_app; reflexivity ]
    end.
Qed.

Lemma set_bndry_values_frame (bc : Boundary) (st : Store)
    (bndry bndry' : MacBndry) (crse_ratio : IntVect) :
  set_bndry_values bc st bndry crse_ratio = Ok bndry' →
  ∃ v, bndry' = MacBndry_set bndry v.
Proof.
  unfold set_bndry_values. intros H.
  destruct (crse_phi bc), (phi bc); inv_ok; try discriminate H; subst; eauto.
Qed.

Lemma set_coeffs_frame (c : ABecCoeff) (mgt mgt' : MGT_Solver)
    (fmg : FMultiGrid) :
  set_coeffs c mgt fmg = Ok mgt' → ∃ k, mgt' = MGT_with_coeffs mgt k.
Proof.
  unfold set_coeffs. intros H. inv_ok.
  repeat case_bool_decide; inv_ok; try discriminate H; subst; eauto.
Qed.

(** The handle and the boundary object [init_mgt_solver] leaves. *)
Lemma init_mgt_solver_builds (s : FMultiGrid) (st : Store)
    (fields : PArray addr) (s' : FMultiGrid) :
  init_mgt_solver s st fields = Ok s' →
  ∃ mfs mf0 g0 k v,
    Forall2 (λ o mf, ∃ p, o = Some p ∧ st !! p = Some mf)
            (take (m_nlevels s) fields) mfs
    ∧ mfs !! 0%nat = Some mf0 ∧ m_geom s !! 0%nat = Some g0
    ∧ m_mgt_solver s'
      = Some (MGT_with_coeffs
                (MGT_Solver_new (m_geom s) (mg_bc (m_bc s))
                   (boxArray <$> mfs) (DistributionMap <$> mfs) false
                   (m_stencil s) false 0 (nComp mf0) (m_verbose s)) k)
    ∧ m_bndry s'
      = Some (MacBndry_set (MacBndry_new (boxArray mf0) (nComp mf0) g0) v).
Proof.
  unfold init_mgt_solver. intros H. inv_ok. subst s'. simpl in *.
  repeat match goal with
  | Hl : for_loop _ _ _ = Ok _ |- _ =>
      apply layouts_inv in Hl as (mfs & HF & -> & ->)
  | Hb : set_bndry_values _ _ _ _ = Ok _ |- _ =>
      apply set_bndry_values_frame in Hb as (v & ->)
  | Hc : set_coeffs _ _ _ = Ok _ |- _ =>
      apply set_coeffs_frame in Hc as (k & ->)
  | Ha : Array_at _ _ = Ok _ |- _ => apply Array_at_Ok in Ha
  | Hp : PArray_at _ _ = Ok _ |- _ => apply PArray_at_inv in Hp
  | Hd : deref _ _ = Ok _ |- _ => apply deref_inv in Hd
  end.
  match goal with
  | Hba : (boxArray <$> mfs) !! 0%nat = Some ?ba0 |- _ =>
      rewrite list_lookup_fmap in Hba;
      destruct (mfs !! 0%nat) as [mf0|] eqn:Hmf0; [|discriminate Hba];
      injection Hba as <-
  end.
  assert (Hn : 0 < m_nlevels s).
  { destruct (m_nlevels s); [|lia]. rewrite take_0 in HF.
    apply Forall2_nil_inv_l in HF. subst mfs. discriminate Hmf0. }
  match goal with
  | Hp : fields !! 0%nat = Some (Some ?p0), Hd : st !! ?p0 = Some ?mf |- _ =>
      assert (mf = mf0) as ->
  end.
  { destruct (Forall2_lookup_r _ _ _ _ _ HF Hmf0) as (o & Ho & p & -> & Hp).
    rewrite lookup_take_lt in Ho by exact Hn. congruence. }
  exists mfs, mf0. eauto 10.
Qed.

(** X8.  A [solve] that returns has built the handle from the geometries of
    the object, the boundary codes given to [set_bc], and the box arrays
    and distribution maps of the fields [phi] of the levels, with the
    component count of the level-0 field, no nodal flag, the stencil and
    verbosity of the object, and the coefficient form; the boundary object
    is over the box array of the level-0 field and the level-0 geometry.
    The kernel is then called once, on the addresses held in the first
    [m_nlevels] slots of [phi] and [rhs], with the tolerances and flags as
    given; the residual norm returned and the fields written are the
    kernel's. *)
Theorem solve_hands_layouts_to_kernel (s : FMultiGrid) (st : Store)
    (phi_ rhs : PArray addr) (rel_tol abs_tol : Real)
    (bnorm need verbose : Z) (s' : FMultiGrid) (st' : Store) (resnorm : Real)
    (Hrun : solve_PArray s st phi_ rhs rel_tol abs_tol bnorm need verbose
            = Ok (s', st', resnorm)) :
  ∃ phi_p rhs_p mfs mf0 g0 k v ks,
    take (m_nlevels s) phi_ = Some <$> phi_p
    ∧ take (m_nlevels s) rhs = Some <$> rhs_p
    ∧ Forall2 (λ p mf, st !! p = Some mf) phi_p mfs
    ∧ mfs !! 0%nat = Some mf0 ∧ m_geom s !! 0%nat = Some g0
    ∧ let mgt :=
        MGT_with_coeffs
          (MGT_Solver_new (m_geom s) (mg_bc (m_bc s))
             (boxArray <$> mfs) (DistributionMap <$> mfs) false
             (m_stencil s) false 0 (nComp mf0) (m_verbose s)) k in
      let bndry :=
        MacBndry_set (MacBndry_new (boxArray mf0) (nComp mf0) g0) v in
      kernel_solve mgt st phi_p rhs_p bndry rel_tol abs_tol bnorm need
      = (ks, st', resnorm)
      ∧ m_mgt_solver s' = Some (MGT_with_state mgt ks)
      ∧ m_bndry s' = Some bndry.
Proof.
  unfold solve_PArray in Hrun. inv_ok_eq. subst.
  match goal with
  | Hp : for_loop _ _ _ = Ok (?pp, ?rp) |- _ =>
      apply pointer_arrays_inv in Hp as [Hphi Hrhs]
  end.
  match goal with
  | Hi : init_mgt_solver _ _ _ = Ok _ |- _ =>
      apply init_mgt_solver_builds in Hi
        as (mfs & mf0 & g0 & kc & v & HF & Hmf0 & Hg0 & Hm & Hb)
  end.
  repeat match goal with
  | Hd : ptr_deref ?o = Ok _ |- _ =>
      (rewrite Hm in Hd || rewrite Hb in Hd); injection Hd as <-
  end.
  rewrite Hphi in HF. apply Forall2_fmap_l in HF.
  do 8 eexists. split_and!; try eassumption.
  - eapply Forall2_impl; [exact HF|]. intros p mf (p' & [= <-] & Hp).
    exact Hp.
  - simpl. split_and!; [eassumption | reflexivity | exact Hb].
Qed.


(** X9.  A [compute_residual] that returns has built the handle and the
    boundary object as [solve] does, and has called the kernel once, on
    the addresses held in the first [m_nlevels] slots of [phi], [rhs] and
    [res]; the fields written are the kernel's. *)
Theorem compute_residual_hands_layouts_to_kernel (s : FMultiGrid)
    (st : Store) (phi_ rhs res : PArray addr) (s' : FMultiGrid) (st' : Store)
    (Hrun : compute_residual_PArray s st phi_ rhs res = Ok (s', st')) :
  ∃ phi_p rhs_p res_p mfs mf0 g0 k v ks,
    take (m_nlevels s) phi_ = Some <$> phi_p
    ∧ take (m_nlevels s) rhs = Some <$> rhs_p
    ∧ take (m_nlevels s) res = Some <$> res_p
    ∧ Forall2 (λ p mf, st !! p = Some mf) phi_p mfs
    ∧ mfs !! 0%nat = Some mf0 ∧ m_geom s !! 0%nat = Some g0
    ∧ let mgt :=
        MGT_with_coeffs
          (MGT_Solver_new (m_geom s) (mg_bc (m_bc s))
             (boxArray <$> mfs) (DistributionMap <$> mfs) false
             (m_stencil s) false 0 (nComp mf0) (m_verbose s)) k in
      let bndry :=
        MacBndry_set (MacBndry_new (boxArray mf0) (nComp mf0) g0) v in
      kernel_compute_residual mgt st phi_p rhs_p res_p bndry = (ks, st')
      ∧ m_mgt_solver s' = Some (MGT_with_state mgt ks)
      ∧ m_bndry s' = Some bndry.
Proof.
  unfold compute_residual_PArray in Hrun. inv_ok_eq. subst.
  match goal with
  | Hp : for_loop _ _ _ = Ok _ |- _ =>
      apply pointer_arrays3_inv in Hp as (Hphi & Hrhs & Hres)
  end.
  match goal with
  | Hi : init_mgt_solver _ _ _ = Ok _ |- _ =>
      apply init_mgt_solver_builds in Hi
        as (mfs & mf0 & g0 & kc & v & HF & Hmf0 & Hg0 & Hm & Hb)
  end.
  repeat match goal with
  | Hd : ptr_deref ?o = Ok _ |- _ =>
      (rewrite Hm in Hd || rewrite Hb in Hd); injection Hd as <-
  end.
  rewrite Hphi in HF. apply Forall2_fmap_l in HF.
  do 9 eexists. split_and!; try eassumption.
  - eapply Forall2_impl; [exact HF|]. intros p mf (p' & [= <-] & Hp).
    exact Hp.
  - simpl. split_and!; [eassumption | reflexivity | exact Hb].
Qed.

(** ** [get_grad_phi] *)

Lemma for_each_pure {S : Type} (idx : list nat) (f : nat → S → S) (s : S) :
  for_each idx (λ i s, Ok (f i s)) s = Ok (foldl (λ s i, f i s) s idx).
Proof.
  revert s. induction idx as [|i idx IH]; intros s; simpl; [reflexivity|].
  apply IH.
Qed.

(** X10.  The overloads of [get_grad_phi] agree: on an object with one
    level the two multi-level overloads on a one-entry array do what the
    single-level overload does on that entry, and on every object the
    [PArray<PArray<MultiFab> >] overload on an array without null slot does
    what the [Array<PArray<MultiFab> >] overload does on the entries the
    slots point to. *)
Theorem get_grad_phi_overloads_agree (s : FMultiGrid) (st : Store) :
  (∀ gp, m_nlevels s = 1%nat →
     get_grad_phi_Array s st [gp] = get_grad_phi_PArray s st gp
     ∧ get_grad_phi_PArray_PArray s st [Some gp]
       = get_grad_phi_PArray s st gp)
  ∧ (∀ gp : list (PArray addr),
       get_grad_phi_PArray_PArray s st (Some <$> gp)
       = get_grad_phi_Array s st gp).
Proof.
  split.
  - intros gp Hn.
    unfold get_grad_phi_Array, get_grad_phi_PArray_PArray,
      get_grad_phi_PArray, for_loop.
    rewrite Hn. simpl.
    destruct (Array_at (m_geom s) 0) as [g|f]; simpl; [|auto].
    destruct (m_mgt_solver s); simpl; auto.
  - intros gp. unfold get_grad_phi_PArray_PArray, get_grad_phi_Array, for_loop.
    apply for_each_ext. intros i st0 _.
    destruct (Array_at (m_geom s) i) as [g|f]; simpl; [|reflexivity].
    unfold PArray_at, Array_at. rewrite list_lookup_fmap.
    destruct (gp !! i); reflexivity.
Qed.

(** X11.  On an object with a handle whose geometry array has one entry
    per level, the multi-level [get_grad_phi] returns for every array with
    an entry per level: it asks the kernel for the fluxes of the levels in
    increasing order, each with the cell size of its own level and its own
    entry of [grad_phi], each on the fields as the level before left
    them. *)
Theorem get_grad_phi_visits_levels (s : FMultiGrid) (st : Store)
    (gp : Array (PArray addr)) (mgt : MGT_Solver)
    (Hgeom : length (m_geom s) = m_nlevels s)
    (Hmgt : m_mgt_solver s = Some mgt)
    (Hlen : (m_nlevels s ≤ length gp)%nat) :
  get_grad_phi_Array s st gp
  = Ok (foldl (λ st ilev,
                 kernel_get_fluxes mgt st ilev (nth ilev gp [])
                                   (cell_size_of_level s ilev))
              st (seq 0 (m_nlevels s))).
Proof.
  unfold get_grad_phi_Array, for_loop.
  rewrite <- (for_each_pure (seq 0 (m_nlevels s))
    (λ ilev st, kernel_get_fluxes mgt st ilev (nth ilev gp [])
                                  (cell_size_of_level s ilev))).
  apply for_each_ext. intros i st0 Hi. apply elem_of_seq in Hi.
  rewrite (Array_at_nth _ _ Geometry_default) by lia. simpl.
  rewrite (Array_at_nth gp i []) by lia. simpl.
  rewrite Hmgt. reflexivity.
Qed.


(** ** Failures that show only at [solve] *)



(** ** No call aborts *)

Lemma no_abort_Ok {A : Type} (x : A) : no_abort (Ok x).
Proof. intros msg H. discriminate H. Qed.

Lemma no_abort_bind {A B : Type} (m : result A) (k : A → result B) :
  no_abort m → (∀ x, m = Ok x → no_abort (k x)) → no_abort (m ≫= k).
Proof.
  intros Hm Hk. destruct m as [x|f]; simpl.
  - apply Hk. reflexivity.
  - intros msg H. injection H as ->. exact (Hm msg eq_refl).
Qed.

Lemma no_abort_assert {A : Type} (cond : bool) (expr : string)
    (k : result A) :
  (cond = true → no_abort k) → no_abort (BL_ASSERT cond expr;; k).
Proof.
  intros Hk. destruct cond; simpl; [auto|]. intros msg H. discriminate H.
Qed.

Lemma no_abort_Array_at {A : Type} (l : Array A) (i : nat) :
  no_abort (Array_at l i).
Proof. unfold Array_at. destruct (l !! i); intros msg H; discriminate H. Qed.

Lemma no_abort_PArray_at {A : Type} (l : PArray A) (i : nat) :
  no_abort (PArray_at l i).
Proof.
  unfold PArray_at. destruct (l !! i) as [[x|]|]; intros msg H;
    discriminate H.
Qed.

Lemma no_abort_deref (st : Store) (p : addr) : no_abort (deref st p).
Proof. unfold deref. destruct (st !! p); intros msg H; discriminate H. Qed.

Lemma no_abort_ptr_deref {A : Type} (p : option A) : no_abort (ptr_deref p).
Proof. destruct p; intros msg H; discriminate H. Qed.

Lemma no_abort_for_each {S : Type} (idx : list nat)
    (body : nat → S → result S) (s : S) :
  (∀ i s, no_abort (body i s)) → no_abort (for_each idx body s).
Proof.
  intros Hbody msg H. apply for_each_fails_at in H as (i & s' & _ & H).
  exact (Hbody i s' msg H).
Qed.

(** Takes a chain of binds apart, step by step. *)
Ltac no_abort_step :=
  first
    [ apply no_abort_Ok
    | apply no_abort_Array_at
    | apply no_abort_PArray_at
    | apply no_abort_deref
    | apply no_abort_ptr_deref
    | apply no_abort_assert; intros ?
    | apply no_abort_for_each; intros ? ?
    | apply no_abort_bind; [|intros ? ?]
    | match goal with
      | |- no_abort (mret _) => apply no_abort_Ok
      | |- no_abort (for_loop _ _ _) => unfold for_loop
      | |- no_abort (let '(_, _) := ?p in _) => destruct p
      | |- no_abort (match ?p with pair _ _ => _ end) => destruct p
      end ].

Lemma no_abort_Copy_PArray (dst src : PArray addr) :
  no_abort (Copy_PArray dst src).
Proof. unfold Copy_PArray. repeat no_abort_step. Qed.

Lemma no_abort_Copy_Array_PArray (dst : Array (PArray addr))
    (src : PArray addr) :
  no_abort (Copy_Array_PArray dst src).
Proof. unfold Copy_Array_PArray. repeat no_abort_step. Qed.

Lemma no_abort_Copy_Array_Array (dst src : Array (PArray addr)) :
  no_abort (Copy_Array_Array dst src).
Proof. unfold Copy_Array_Array. repeat no_abort_step. Qed.

Lemma no_abort_transition_distances (fmg : FMultiGrid) :
  no_abort (transition_distances fmg).
Proof.
  unfold transition_distances. repeat no_abort_step.
  repeat case_match; repeat no_abort_step.
Qed.

Lemma no_abort_set_coeffs (c : ABecCoeff) (mgt : MGT_Solver)
    (fmg : FMultiGrid) :
  eq_type c ≠ invalid_eq → no_abort (set_coeffs c mgt fmg).
Proof.
  intros Ht. unfold set_coeffs. do 2 no_abort_step.
  apply no_abort_bind; [apply no_abort_transition_distances|].
  intros [xa xb] _.
  repeat case_bool_decide; repeat no_abort_step.
  destruct (eq_type c); congruence.
Qed.

Lemma no_abort_set_bndry_values (bc : Boundary) (st : Store)
    (bndry : MacBndry) (crse_ratio : IntVect) :
  bc_consistent bc → no_abort (set_bndry_values bc st bndry crse_ratio).
Proof.
  intros [Hb _]. unfold set_bndry_values.
  destruct (crse_phi bc), (phi bc); repeat no_abort_step.
  destruct Hb as [? [=]]. eauto.
Qed.

Lemma no_abort_init_mgt_solver (s : FMultiGrid) (st : Store)
    (fields : PArray addr) :
  bc_consistent (m_bc s) → no_abort (init_mgt_solver s st fields).
Proof.
  intros Hbc. unfold init_mgt_solver.
  no_abort_step. no_abort_step.
  match goal with
  | H : negb (bool_decide _) = true |- _ =>
      apply negb_true_iff, bool_decide_eq_false in H
  end.
  repeat first
    [ apply no_abort_set_bndry_values; assumption
    | apply no_abort_set_coeffs; assumption
    | no_abort_step ].
Qed.

(** X13.  No public call on an object a program can hold ends in
    [BoxLib::Abort]: the two "How did we get here?" branches, of
    [Boundary::set_bndry_values] and of [ABecCoeff::set_coeffs], are never
    taken. *)
Theorem public_calls_never_abort (s : FMultiGrid) (st : Store) (c : Call)
    (Hreach : reachable s) :
  no_abort (run_call s st c).
Proof.
  pose proof (reachable_consistent s Hreach) as (_ & _ & Hbc & _).
  destruct c; simpl; unfold_setters;
    unfold set_bc, set_bc_phi, set_bc_crse_phi, solve_MultiFab,
      compute_residual_MultiFab, solve_PArray, compute_residual_PArray,
      get_grad_phi_PArray, get_grad_phi_Array, get_grad_phi_PArray_PArray;
    repeat first
      [ apply no_abort_Copy_PArray
      | apply no_abort_Copy_Array_PArray
      | apply no_abort_Copy_Array_Array
      | apply no_abort_init_mgt_solver; assumption
      | no_abort_step ].
Qed.


(** ** What holds of every object *)

(** X14.  On every object a program can hold: the geometry array has one
    entry per level; a base level above zero comes with a ratio that is not
    the zero vector; a coarse boundary field comes with a fine one and with
    a ratio that is not the zero vector, and no boundary field is held
    before [set_bc]; the handle and the boundary object exist together, and
    only on an object whose boundary is set and whose variant is chosen;
    the Uninitialized and constant-gravity variants have no sub-value
    marked, and the gravity variant has [B] marked and nothing else. *)
Theorem reachable_objects_are_consistent (s : FMultiGrid)
    (Hreach : reachable s) :
  length (m_geom s) = m_nlevels s
  ∧ ((0 < m_baselevel s)%Z →
     ∃ n, n < BL_SPACEDIM ∧ IntVect_at (m_crse_ratio s) n ≠ 0%Z)
  ∧ (∀ c, crse_phi (m_bc s) = Some c →
       is_Some (phi (m_bc s))
       ∧ ∃ n, n < BL_SPACEDIM ∧ IntVect_at (m_crse_ratio s) n ≠ 0%Z)
  ∧ (initilized (m_bc s) = false →
     crse_phi (m_bc s) = None ∧ phi (m_bc s) = None)
  ∧ (is_Some (m_mgt_solver s) ↔ is_Some (m_bndry s))
  ∧ (is_Some (m_mgt_solver s) →
     initilized (m_bc s) = true ∧ eq_type (m_coeff s) ≠ invalid_eq)
  ∧ (eq_type (m_coeff s) = invalid_eq
     ∨ eq_type (m_coeff s) = const_gravity_eq →
     alpha_set (m_coeff s) = false ∧ a_set (m_coeff s) = false
     ∧ beta_set (m_coeff s) = false ∧ b_set (m_coeff s) = false)
  ∧ (eq_type (m_coeff s) = gravity_eq →
     alpha_set (m_coeff s) = false ∧ a_set (m_coeff s) = false
     ∧ beta_set (m_coeff s) = false ∧ b_set (m_coeff s) = true).
Proof.
  destruct (reachable_consistent s Hreach)
    as (Hgeom & Hco & [Hb1 Hb2] & Hr & Hcr & Hh & Hs).
  assert (Hnz : IntVect_eqb (m_crse_ratio s) TheZeroVector = false →
            ∃ n, n < BL_SPACEDIM ∧ IntVect_at (m_crse_ratio s) n ≠ 0%Z).
  { intros Hf. unfold IntVect_eqb in Hf.
    apply not_true_iff_false in Hf. rewrite forallb_forall in Hf.
    destruct (decide (Forall (λ n, IntVect_at (m_crse_ratio s) n = 0%Z)
                        (seq 0 BL_SPACEDIM))) as [Hall|Hex].
    - exfalso. apply Hf. intros n Hn. rewrite TheZeroVector_at.
      apply Z.eqb_eq. rewrite Forall_forall in Hall. apply Hall.
      apply list_elem_of_In. exact Hn.
    - apply not_Forall_Exists in Hex; [|apply _].
      apply Exists_exists in Hex as (n & Hn & Hne).
      apply elem_of_seq in Hn. exists n. split; [lia | exact Hne]. }
  unfold coeff_consistent in Hco.
  split_and!.
  - exact Hgeom.
  - intros Hpos. apply Hnz, Hr, Hpos.
  - intros c Hc. split; [apply Hb1; eauto | apply Hnz, Hcr; eauto].
  - exact Hb2.
  - exact Hh.
  - exact Hs.
  - intros [Ht|Ht]; rewrite Ht in Hco; exact Hco.
  - intros Ht. rewrite Ht in Hco. exact Hco.
Qed.

(** ** The general variant from construction to [solve] *)

Lemma fill_row_zero :
  fill_row (λ _, 0%float) (Array_resize BL_SPACEDIM 0%float [])
  = replicate BL_SPACEDIM 0%float.
Proof.
  apply list_eq. intros n. destruct (decide (n < BL_SPACEDIM)) as [Hlt|Hge].
  - rewrite fill_row_lookup by (rewrite ?Array_resize_length; exact Hlt).
    symmetry. apply lookup_replicate. auto.
  - rewrite !lookup_ge_None_2; [reflexivity | |].
    + rewrite length_replicate. lia.
    + rewrite fill_row_length, Array_resize_length. lia.
Qed.

Lemma transition_distances_same (s s1 : FMultiGrid) :
  m_nlevels s1 = m_nlevels s → m_baselevel s1 = m_baselevel s →
  m_crse_ratio s1 = m_crse_ratio s → m_geom s1 = m_geom s →
  transition_distances s1 = transition_distances s.
Proof.
  unfold transition_distances. intros -> -> -> ->. reflexivity.
Qed.

(** The coefficient form [init_mgt_solver] leaves in the handle. *)
Lemma init_mgt_solver_form (s : FMultiGrid) (st : Store)
    (fields : PArray addr) (s1 : FMultiGrid) :
  init_mgt_solver s st fields = Ok s1 →
  ∃ mgt xa xb,
    m_mgt_solver s1 = Some mgt
    ∧ transition_distances s = Ok (xa, xb)
    ∧ (eq_type (m_coeff s) = const_gravity_eq →
       mgt_coeffs mgt = Some (ConstGravityCoeffs xa xb))
    ∧ (eq_type (m_coeff s) = gravity_eq →
       b_set (m_coeff s) = true
       ∧ mgt_coeffs mgt = Some (GravityCoeffs (b (m_coeff s)) xa xb))
    ∧ (eq_type (m_coeff s) = general_eq →
       alpha_set (m_coeff s) && a_set (m_coeff s) && beta_set (m_coeff s)
       && b_set (m_coeff s) = true
       ∧ mgt_coeffs mgt
         = Some (ABecLapCoeffs (alpha (m_coeff s)) (a (m_coeff s))
                   (beta (m_coeff s)) (b (m_coeff s)) xa xb)).
Proof.
  unfold init_mgt_solver. intros H. inv_ok. subst s1. simpl in *.
  match goal with
  | Hc : set_coeffs _ _ _ = Ok _ |- _ => unfold set_coeffs in Hc
  end.
  inv_ok.
  match goal with
  | Ht : transition_distances _ = Ok (?xa, ?xb) |- _ =>
      rewrite transition_distances_same with (s := s) in Ht
        by reflexivity;
      eexists; exists xa, xb; split; [reflexivity|]; split; [exact Ht|]
  end.
  repeat case_bool_decide; inv_ok;
    try match goal with Hf : Fail _ = Ok _ |- _ => discriminate Hf end;
    subst; simpl;
    split_and!; intros Ht; try congruence; auto.
Qed.

(** A [solve] that returns went through [init_mgt_solver], and keeps the
    handle it built but for the state of the kernel. *)
Lemma solve_PArray_init (s : FMultiGrid) (st : Store)
    (phi_ rhs : PArray addr) (rel_tol abs_tol : Real)
    (bnorm need verbose : Z) (s' : FMultiGrid) (st' : Store) (resnorm : Real) :
  solve_PArray s st phi_ rhs rel_tol abs_tol bnorm need verbose
  = Ok (s', st', resnorm) →
  ∃ s1 mgt ks,
    init_mgt_solver s st phi_ = Ok s1
    ∧ m_mgt_solver s1 = Some mgt
    ∧ m_mgt_solver s' = Some (MGT_with_state mgt ks).
Proof.
  unfold solve_PArray. intros H. inv_ok. subst.
  match goal with
  | Hi : init_mgt_solver _ _ _ = Ok ?s1,
    Hd : ptr_deref (m_mgt_solver ?s1) = Ok ?mgt |- _ =>
      exists s1, mgt; eexists; split; [exact Hi|];
      unfold ptr_deref in Hd; destruct (m_mgt_solver s1);
        [injection Hd as -> | discriminate Hd];
      split; reflexivity
  end.
Qed.

Lemma compute_residual_PArray_init (s : FMultiGrid) (st : Store)
    (phi_ rhs res : PArray addr) (s' : FMultiGrid) (st' : Store) :
  compute_residual_PArray s st phi_ rhs res = Ok (s', st') →
  ∃ s1 mgt ks,
    init_mgt_solver s st phi_ = Ok s1
    ∧ m_mgt_solver s1 = Some mgt
    ∧ m_mgt_solver s' = Some (MGT_with_state mgt ks).
Proof.
  unfold compute_residual_PArray. intros H. inv_ok. subst.
  match goal with
  | Hi : init_mgt_solver _ _ _ = Ok ?s1,
    Hd : ptr_deref (m_mgt_solver ?s1) = Ok ?mgt |- _ =>
      exists s1, mgt; eexists; split; [exact Hi|];
      unfold ptr_deref in Hd; destruct (m_mgt_solver s1);
        [injection Hd as -> | discriminate Hd];
      split; reflexivity
  end.
Qed.

(** X15.  The lazy construction applies the stored coefficient model: when
    [init_mgt_solver] returns, the handle holds the form of the stored
    variant, on the stored sub-values and on the transition distances of
    the object: the constant-gravity form; or the gravity form on the
    stored [B], which is marked; or the general form on the stored
    [alpha], [A], [beta] and [B], which are all marked.  A [solve] or a
    [compute_residual] that returns on the same object and fields leaves a
    handle with that form. *)
Theorem lazy_construction_applies_stored_model (s : FMultiGrid) (st : Store)
    (fields : PArray addr) (s1 : FMultiGrid)
    (Hrun : init_mgt_solver s st fields = Ok s1) :
  ∃ mgt xa xb,
    m_mgt_solver s1 = Some mgt
    ∧ transition_distances s = Ok (xa, xb)
    ∧ (eq_type (m_coeff s) = const_gravity_eq →
       mgt_coeffs mgt = Some (ConstGravityCoeffs xa xb))
    ∧ (eq_type (m_coeff s) = gravity_eq →
       b_set (m_coeff s) = true
       ∧ mgt_coeffs mgt = Some (GravityCoeffs (b (m_coeff s)) xa xb))
    ∧ (eq_type (m_coeff s) = general_eq →
       alpha_set (m_coeff s) && a_set (m_coeff s) && beta_set (m_coeff s)
       && b_set (m_coeff s) = true
       ∧ mgt_coeffs mgt
         = Some (ABecLapCoeffs (alpha (m_coeff s)) (a (m_coeff s))
                   (beta (m_coeff s)) (b (m_coeff s)) xa xb))
    ∧ (∀ rhs rel_tol abs_tol bnorm need verbose s' st' resnorm,
         solve_PArray s st fields rhs rel_tol abs_tol bnorm need verbose
         = Ok (s', st', resnorm) →
         ∃ mgt', m_mgt_solver s' = Some mgt'
                 ∧ mgt_coeffs mgt' = mgt_coeffs mgt)
    ∧ (∀ rhs res s' st',
         compute_residual_PArray s st fields rhs res = Ok (s', st') →
         ∃ mgt', m_mgt_solver s' = Some mgt'
                 ∧ mgt_coeffs mgt' = mgt_coeffs mgt).
Proof.
  destruct (init_mgt_solver_form s st fields s1 Hrun)
    as (mgt & xa & xb & Hm & Hd & Hc & Hg & Ha).
  exists mgt, xa, xb. split_and!; try assumption.
  - intros rhs rel_tol abs_tol bnorm need verbose s' st' resnorm Hs.
    apply solve_PArray_init in Hs as (s2 & mgt2 & ks & Hi & Hm2 & Hs').
    rewrite Hrun in Hi. injection Hi as <-.
    rewrite Hm in Hm2. injection Hm2 as <-.
    eexists. split; [exact Hs' | reflexivity].
  - intros rhs res s' st' Hs.
    apply compute_residual_PArray_init in Hs
      as (s2 & mgt2 & ks & Hi & Hm2 & Hs').
    rewrite Hrun in Hi. injection Hi as <-.
    rewrite Hm in Hm2. injection Hm2 as <-.
    eexists. split; [exact Hs' | reflexivity].
Qed.


(** ** The general variant from construction to [solve] *)

Lemma run_calls_app (s : FMultiGrid) (st : Store) (l1 l2 : list Call) :
  run_calls s st (l1 ++ l2)
  = ('(s1, st1) ← run_calls s st l1; run_calls s1 st1 l2).
Proof.
  revert s st. induction l1 as [|c l1 IH]; intros s st; simpl;
    [reflexivity|].
  destruct (run_call s st c) as [[s1 st1]|f]; simpl; [apply IH | reflexivity].
Qed.

Lemma root_distances (fmg : FMultiGrid) :
  m_nlevels fmg = 1%nat → m_baselevel fmg = 0%Z →
  transition_distances fmg
  = Ok ([replicate BL_SPACEDIM 0%float], [replicate BL_SPACEDIM 0%float]).
Proof.
  intros Hn Hb. unfold transition_distances, for_loop.
  rewrite Hn, Hb. simpl. rewrite fill_level_alter. simpl.
  exact (f_equal (λ r, Ok ([r], [r])) fill_row_zero).
Qed.

(** The five setters of the general variant on a fresh one-level object. *)
Lemma general_setters_run (geom : Geometry) (baselevel : Z)
    (crse_ratio : IntVect) (mg_bc_ : list Z) (alpha_ beta_ : Real)
    (a_ b_ : addr) (st : Store) :
  let s0 := with_geom (FMultiGrid_members 1 baselevel crse_ratio) [geom] in
  run_calls s0 st
    [call_set_bc mg_bc_; call_set_alpha alpha_;
     call_set_acoef_MultiFab a_; call_set_beta beta_; call_set_bcoef_ptr b_]
  = Ok (with_coeff (with_bc s0 (Boundary_new mg_bc_ None None))
          {| eq_type := general_eq; alpha := alpha_; beta := beta_;
             a := [Some a_];
             b := [(λ idim, Some (b_ + idim)) <$> seq 0 BL_SPACEDIM];
             alpha_set := true; a_set := true; beta_set := true;
             b_set := true |}, st).
Proof.
  intros s0. unfold run_calls, run_call, keep_store.
  unfold set_bc. simpl.
  unfold set_alpha. simpl.
  unfold set_acoef_MultiFab. simpl. rewrite Copy_MultiFab_one.
  unfold set_beta. simpl.
  unfold set_bcoef_ptr. simpl. rewrite Copy_Array_ptr_consecutive.
  reflexivity.
Qed.

(** X16.  From construction to [solve] on the general variant: on one level
    at the root, [set_bc], [set_alpha], [set_acoef], [set_beta] and
    [set_bcoef] on a field pointer, then [solve] on live fields, all
    return; the handle is configured with the general form on exactly the
    scalars and field addresses given, with [B] the [BL_SPACEDIM]
    consecutive fields from the pointer on, and with transition distances
    that are all zero. *)
Theorem general_variant_end_to_end (geom : Geometry) (crse_ratio : IntVect)
    (mg_bc_ : list Z) (alpha_ beta_ : Real) (a_ b_ phi_ rhs : addr)
    (rel_tol abs_tol : Real) (bnorm need verbose : Z) (st : Store)
    (Hphi : is_Some (st !! phi_)) (Hrhs : is_Some (st !! rhs)) :
  ∃ s0 s' st',
    FMultiGrid_Geometry geom 0 crse_ratio = Ok s0
    ∧ run_calls s0 st
        [call_set_bc mg_bc_; call_set_alpha alpha_;
         call_set_acoef_MultiFab a_; call_set_beta beta_;
         call_set_bcoef_ptr b_;
         call_solve_MultiFab phi_ rhs rel_tol abs_tol bnorm need verbose]
      = Ok (s', st')
    ∧ ∃ mgt, m_mgt_solver s' = Some mgt
             ∧ mgt_coeffs mgt
               = Some (ABecLapCoeffs alpha_ [Some a_] beta_
                         [(λ idim, Some (b_ + idim)) <$> seq 0 BL_SPACEDIM]
                         [replicate BL_SPACEDIM 0%float]
                         [replicate BL_SPACEDIM 0%float]).
Proof.
  destruct Hphi as [mf Hmf]. destruct Hrhs as [mf' Hmf'].
  pose proof (general_setters_run geom 0 crse_ratio mg_bc_ alpha_ beta_
                a_ b_ st) as Hset.
  cbv zeta in Hset.
  remember (with_geom (FMultiGrid_members 1 0 crse_ratio) [geom]) as s0
    eqn:Hs0.
  remember (with_coeff (with_bc s0 (Boundary_new mg_bc_ None None)) _)
    as s5 eqn:Hs5 in Hset.
  assert (Hcons : consistent s5).
  { subst s5 s0. unfold consistent, coeff_consistent, bc_consistent. simpl.
    split_and!; auto; try (intros []; discriminate); try lia.
    split; intros []; discriminate. }
  assert (Hready : ready_to_solve s5 st [Some phi_]).
  { subst s5 s0. unfold ready_to_solve, fields_live. simpl.
    split_and!; auto; try discriminate; try lia.
    intros [|i] Hi; [eauto | lia]. }
  assert (Hlive : fields_live st [Some rhs] (m_nlevels s5)).
  { subst s5 s0. simpl. intros [|i] Hi; [eauto | simpl in Hi; lia]. }
  destruct (solve_PArray_returns s5 st [Some phi_] [Some rhs] rel_tol abs_tol
              bnorm need verbose Hcons Hready Hlive)
    as (s' & st' & resnorm & Hsolve).
  exists s0, s', st'. split; [subst s0; reflexivity|]. split.
  - change [call_set_bc mg_bc_; call_set_alpha alpha_;
            call_set_acoef_MultiFab a_; call_set_beta beta_;
            call_set_bcoef_ptr b_;
            call_solve_MultiFab phi_ rhs rel_tol abs_tol bnorm need verbose]
      with ([call_set_bc mg_bc_; call_set_alpha alpha_;
             call_set_acoef_MultiFab a_; call_set_beta beta_;
             call_set_bcoef_ptr b_]
            ++ [call_solve_MultiFab phi_ rhs rel_tol abs_tol bnorm need
                  verbose]).
    rewrite run_calls_app, Hset. simpl. unfold solve_MultiFab.
    rewrite !Copy_MultiFab_one, Hsolve. reflexivity.
  - apply solve_PArray_init in Hsolve as (s1 & mgt & ks & Hi & Hm & Hs').
    apply init_mgt_solver_form in Hi
      as (mgt2 & xa & xb & Hm2 & Hd & _ & _ & Hgen).
    rewrite Hm in Hm2. injection Hm2 as <-.
    rewrite root_distances in Hd by (subst s5 s0; reflexivity).
    injection Hd as <- <-.
    destruct Hgen as [_ Hk]; [subst s5; reflexivity|].
    eexists. split; [exact Hs'|]. simpl. rewrite Hk. subst s5. reflexivity.
Qed.


(** ** What is stored stays *)

(** One call: a variant once chosen, a sub-value once marked and a
    boundary descriptor once set come out of the call as they went in. *)
Lemma run_call_write_once (s : FMultiGrid) (st : Store) (c : Call)
    (s' : FMultiGrid) (st' : Store) :
  consistent s → run_call s st c = Ok (s', st') →
  (eq_type (m_coeff s) ≠ invalid_eq →
   eq_type (m_coeff s') = eq_type (m_coeff s))
  ∧ (alpha_set (m_coeff s) = true →
     alpha_set (m_coeff s') = true ∧ alpha (m_coeff s') = alpha (m_coeff s))
  ∧ (a_set (m_coeff s) = true →
     a_set (m_coeff s') = true ∧ a (m_coeff s') = a (m_coeff s))
  ∧ (beta_set (m_coeff s) = true →
     beta_set (m_coeff s') = true ∧ beta (m_coeff s') = beta (m_coeff s))
  ∧ (b_set (m_coeff s) = true →
     b_set (m_coeff s') = true ∧ b (m_coeff s') = b (m_coeff s))
  ∧ (initilized (m_bc s) = true → m_bc s' = m_bc s).
Proof.
  intros (_ & Hco & _) Hrun. unfold coeff_consistent in Hco.
  destruct c; simpl in Hrun;
    unfold_setters;
    unfold set_bc, set_bc_phi, set_bc_crse_phi, solve_MultiFab,
      compute_residual_MultiFab in Hrun;
    inv_ok; subst;
    repeat match goal with
    | Hr : solve_PArray _ _ _ _ _ _ _ _ _ = Ok _ |- _ =>
        apply solve_PArray_Ok in Hr
          as (_ & _ & _ & _ & (_ & _ & _ & _ & _ & _ & -> & ->) & _)
    | Hr : compute_residual_PArray _ _ _ _ _ = Ok _ |- _ =>
        apply compute_residual_PArray_Ok in Hr
          as (_ & _ & _ & _ & (_ & _ & _ & _ & _ & _ & -> & ->) & _)
    | Hd : bool_decide _ = true |- _ => apply bool_decide_eq_true in Hd
    | Ho : _ || _ = true |- _ => apply orb_true_iff in Ho
    | Hn : negb _ = true |- _ => apply negb_true_iff in Hn
    end;
    simpl; split_and!; intros; auto; try congruence;
    try match goal with
    | Ho : bool_decide _ = true ∨ bool_decide _ = true |- _ =>
        rewrite !bool_decide_eq_true in Ho; destruct Ho as [Ht|Ht];
          try congruence; rewrite Ht in Hco; destruct Hco as (?&?&?&?);
          congruence
    | Ht : eq_type (m_coeff s) = invalid_eq |- _ =>
        try congruence; rewrite Ht in Hco; destruct Hco as (?&?&?&?);
          congruence
    end.
Qed.

(** X17.  What is stored stays: through any sequence of calls that
    returns on an object a program can hold, a variant once chosen is the
    variant of the object from then on, every sub-value once marked stays
    marked with the value stored then, and the boundary descriptor once
    set is never changed. *)
Theorem stored_values_are_write_once (s : FMultiGrid) (st : Store)
    (cs : list Call) (s' : FMultiGrid) (st' : Store)
    (Hreach : reachable s) (Hrun : run_calls s st cs = Ok (s', st')) :
  (eq_type (m_coeff s) ≠ invalid_eq →
   eq_type (m_coeff s') = eq_type (m_coeff s))
  ∧ (alpha_set (m_coeff s) = true →
     alpha_set (m_coeff s') = true ∧ alpha (m_coeff s') = alpha (m_coeff s))
  ∧ (a_set (m_coeff s) = true →
     a_set (m_coeff s') = true ∧ a (m_coeff s') = a (m_coeff s))
  ∧ (beta_set (m_coeff s) = true →
     beta_set (m_coeff s') = true ∧ beta (m_coeff s') = beta (m_coeff s))
  ∧ (b_set (m_coeff s) = true →
     b_set (m_coeff s') = true ∧ b (m_coeff s') = b (m_coeff s))
  ∧ (initilized (m_bc s) = true → m_bc s' = m_bc s).
Proof.
  apply reachable_consistent in Hreach. clear -Hreach Hrun.
  revert s st Hreach Hrun.
  induction cs as [|c cs IH]; intros s st Hs H; simpl in H.
  - injection H as <- <-. split_and!; auto.
  - apply bind_Ok in H as ([s1 st1] & H1 & H).
    pose proof (run_call_consistent _ _ _ _ _ Hs H1) as Hs1.
    destruct (run_call_write_once _ _ _ _ _ Hs H1)
      as (Ht & Hal & Ha & Hbe & Hb & Hbc).
    destruct (IH _ _ Hs1 H) as (Ht' & Hal' & Ha' & Hbe' & Hb' & Hbc').
    split_and!.
    + intros Hne. rewrite <- (Ht Hne). apply Ht'. rewrite (Ht Hne). exact Hne.
    + intros Hset. destruct (Hal Hset) as [H1' H2'].
      destruct (Hal' H1') as [H3' H4']. split; congruence.
    + intros Hset. destruct (Ha Hset) as [H1' H2'].
      destruct (Ha' H1') as [H3' H4']. split; congruence.
    + intros Hset. destruct (Hbe Hset) as [H1' H2'].
      destruct (Hbe' H1') as [H3' H4']. split; congruence.
    + intros Hset. destruct (Hb Hset) as [H1' H2'].
      destruct (Hb' H1') as [H3' H4']. split; congruence.
    + intros Hset. rewrite <- (Hbc Hset). apply Hbc'.
      rewrite (Hbc Hset). exact Hset.
Qed.

End Properties.

(** * The properties on the two-dimensional instance *)

Section Instance2D.

#[local] Existing Instance layout2D.
#[local] Existing Instance kernel2D.

(** The two transition-distance examples of C1, on objects built by the
    constructor. *)
Lemma transition_distances_examples :
  ∃ s s',
    FMultiGrid_Geometry geom_tenth 0 [0; 0]%Z = Ok s
    ∧ transition_distances s = Ok ([[0; 0]%float], [[0; 0]%float])
    ∧ FMultiGrid_Geometry geom_twentieth 1 [2; 2]%Z = Ok s'
    ∧ transition_distances s'
      = Ok ([[0.05; 0.05]%float], [[0.05; 0.05]%float]).
Proof.
  eexists. eexists.
  split; [reflexivity|].
  split.
  { match goal with |- transition_distances ?s = _ =>
      destruct (transition_distances_as_specified s eq_refl)
        as (_ & H & _ & _);
      exact (H eq_refl eq_refl eq_refl eq_refl)
    end. }
  split; [reflexivity|].
  match goal with |- transition_distances ?s = _ =>
    destruct (transition_distances_as_specified s eq_refl)
      as (_ & _ & H & _);
    exact (H eq_refl eq_refl eq_refl eq_refl eq_refl)
  end.
Defined.

(** Against C2 as stated: on a fresh one-level object, which holds no
    handle, [get_grad_phi] runs into the null handle; no precondition check
    stops it. *)
Lemma get_grad_phi_unchecked :
  ∃ s,
    FMultiGrid_Geometry geom_tenth 0 [0; 0]%Z = Ok s
    ∧ m_mgt_solver s = None
    ∧ get_grad_phi_PArray s fields2D [Some 0%nat; Some 1%nat]
      = Fail NullDereference
    ∧ ¬ assertion_failed
          (get_grad_phi_PArray s fields2D [Some 0%nat; Some 1%nat]).
Proof.
  eexists. split; [reflexivity|]. split; [reflexivity|].
  split; [reflexivity|]. intros H. exact H.
Defined.

(** C2 as amended, on a fresh one-level object: the single-level overload
    and the multi-level overloads with entry 0 present run into the null
    handle; the multi-level overloads on an empty array index past its end,
    and the [PArray] one with a null slot 0 dereferences that slot. *)
Lemma get_grad_phi_before_solve_witness :
  ∃ s,
    FMultiGrid_Geometry geom_tenth 0 [0; 0]%Z = Ok s
    ∧ get_grad_phi_PArray s fields2D [Some 0%nat; Some 1%nat]
      = Fail NullDereference
    ∧ get_grad_phi_Array s fields2D [[Some 0%nat; Some 1%nat]]
      = Fail NullDereference
    ∧ get_grad_phi_PArray_PArray s fields2D [Some [Some 0%nat; Some 1%nat]]
      = Fail NullDereference
    ∧ get_grad_phi_Array s fields2D [] = Fail OutOfBounds
    ∧ get_grad_phi_PArray_PArray s fields2D [] = Fail OutOfBounds
    ∧ get_grad_phi_PArray_PArray s fields2D [None] = Fail NullDereference.
Proof.
  eexists. split; [reflexivity|].
  match goal with |- get_grad_phi_PArray ?s ?st _ = _ ∧ _ =>
    assert (Hreach : reachable s)
      by exact (reach_Geometry geom_tenth 0 [0; 0]%Z _ eq_refl);
    destruct (get_grad_phi_before_solve s st Hreach eq_refl)
      as (_ & H1 & _ & _ & H2 & H3 & H4 & H5 & H6)
  end.
  split_and!.
  - apply H1. reflexivity.
  - eapply H2; [simpl; lia | reflexivity].
  - eapply H3; [simpl; lia | reflexivity].
  - apply H4; [simpl; lia | reflexivity].
  - apply H5; [simpl; lia | reflexivity].
  - apply H6; [simpl; lia | reflexivity].
Defined.

(** Against C3 as stated: base level 1 and the ratio (2, 0), which is zero
    in the second dimension; the constructor returns. *)
Lemma constructor_accepts_partly_zero_ratio :
  (0 < 1)%Z
  ∧ IntVect_at [2; 0]%Z 1 = 0%Z
  ∧ ∃ s, FMultiGrid_Geometry geom_twentieth 1 [2; 0]%Z = Ok s.
Proof.
  split; [lia|]. split; [reflexivity|]. eexists. reflexivity.
Defined.

(** C3 as amended: base level 1 with the zero vector aborts, base level 1
    with (2, 0) and base level 0 with the zero vector return; the [PArray]
    constructor returns at base level 0 when both slots are set, and fails
    on a null slot at base level 0 as at base level 1 with the zero
    vector. *)
Lemma constructors_reject_zero_vector_witness :
  FMultiGrid_Geometry geom_twentieth 1 [0; 0]%Z
  = Fail (Aborted "FMultiGrid: must set crse_ratio if baselevel > 0")
  ∧ (∃ s, FMultiGrid_Geometry geom_twentieth 1 [2; 0]%Z = Ok s)
  ∧ (∃ s, FMultiGrid_vector [geom_tenth; geom_twentieth] 0 [0; 0]%Z = Ok s)
  ∧ (∃ s, FMultiGrid_PArray [Some geom_tenth; Some geom_twentieth] 0
            [0; 0]%Z = Ok s)
  ∧ FMultiGrid_PArray [Some geom_tenth; None] 0 [5; 5]%Z
    = Fail NullDereference
  ∧ FMultiGrid_PArray [Some geom_tenth; None] 1 [0; 0]%Z
    = Fail NullDereference.
Proof.
  assert (Hnull : ¬ Forall is_Some [Some geom_tenth; None]).
  { intros H. apply Forall_cons_1 in H as [_ H].
    apply Forall_cons_1 in H as [[x Hx] _]. discriminate Hx. }
  split_and!.
  - destruct (constructors_reject_zero_vector 1 [0; 0]%Z) as (H & _ & _).
    apply H. split; [lia|]. intros [|[|n]] Hn; [reflexivity.. | simpl in Hn; lia].
  - destruct (constructors_reject_zero_vector 1 [2; 0]%Z) as (_ & H & _).
    apply H. intros [_ Hz]. specialize (Hz 0%nat). simpl in Hz.
    assert (2 = 0)%Z by (apply Hz; lia). discriminate.
  - destruct (constructors_reject_zero_vector 0 [0; 0]%Z)
      as (_ & H & H0 & _).
    apply H, H0. reflexivity.
  - destruct (constructors_reject_zero_vector 0 [0; 0]%Z)
      as (_ & H & H0 & _).
    destruct (H (H0 eq_refl)) as (_ & _ & Hp).
    apply Hp. repeat (apply Forall_cons_2; [eexists; reflexivity|]).
    apply Forall_nil_2.
  - destruct (constructors_reject_zero_vector 0 [5; 5]%Z) as (_ & _ & _ & H).
    apply H, Hnull.
  - destruct (constructors_reject_zero_vector 1 [0; 0]%Z) as (_ & _ & _ & H).
    apply H, Hnull.
Defined.

(** C4 on the constant-gravity variant, and on an object left
    Uninitialized. *)
Lemma set_coeffs_dispatch_witness :
  ∃ s xa xb,
    configured2D = Ok s
    ∧ transition_distances s = Ok (xa, xb)
    ∧ set_coeffs (m_coeff s) solver2D s
      = Ok (MGT_with_coeffs solver2D (ConstGravityCoeffs xa xb))
    ∧ set_coeffs ABecCoeff_default solver2D s
      = Fail (Aborted
                "FMultiGrid::ABecCoeff::set_coeffs: How did we get here?").
Proof.
  eexists. 
  match goal with |- ∃ xa xb, ?r = Ok ?s ∧ _ =>
    assert (Hs : r = Ok s) by reflexivity
  end.
  match type of Hs with _ = Ok ?s =>
    destruct (set_coeffs_dispatch (m_coeff s) solver2D s)
      as (xa & xb & Hrun & Hconst & _);
      [simpl; lia | left; reflexivity | reflexivity |];
    destruct (set_coeffs_dispatch ABecCoeff_default solver2D s)
      as (xa' & xb' & Hrun' & _ & _ & _ & Hinvalid & _);
      [simpl; lia | left; reflexivity | reflexivity |]
  end.
  exists xa, xb. split_and!.
  - exact Hs.
  - exact Hrun.
  - apply Hconst. reflexivity.
  - apply Hinvalid. reflexivity.
Defined.

(** C5 on the three kinds of descriptor over [fields2D], with the coarse
    field at address 3 and the fine field at address 0. *)
Lemma set_bndry_values_cases_witness :
  let phys_bc := mkBCRec [0; 0]%Z [0; 0]%Z in
  set_bndry_values Boundary_default fields2D bndry2D [0; 0]%Z
  = Ok (MacBndry_set bndry2D (HomogValues phys_bc [0; 0]%Z))
  ∧ set_bndry_values (Boundary_new mg_bc2D None (Some 0%nat))
                     fields2D bndry2D [0; 0]%Z
    = Ok (MacBndry_set bndry2D (FineValues 0%nat 0 0 1 phys_bc))
  ∧ set_bndry_values (Boundary_new mg_bc2D (Some 3%nat) (Some 0%nat))
                     fields2D bndry2D [2; 2]%Z
    = Ok (MacBndry_set bndry2D
            (CrseFineValues
               {| br_grids := [([0; 0]%Z, [3; 3]%Z)] : @BoxArray layout2D;
                  br_in_rad := 0; br_out_rad := 1; br_extent_rad := 2;
                  br_ncomp := 1;
                  br_copied := Some (3%nat, 1%Z, 0%Z, 0%Z, 1%Z) |}
               0 0%nat 0 0 1 [2; 2]%Z phys_bc))
  ∧ set_bndry_values (Boundary_new mg_bc2D (Some 3%nat) (Some 0%nat))
                     fields2D bndry2D [0; 0]%Z
    = Fail (AssertionFailed "crse_ratio != IntVect::TheZeroVector()")
  ∧ set_bndry_values (Boundary_new mg_bc2D (Some 3%nat) None)
                     fields2D bndry2D [2; 2]%Z
    = Fail (Aborted
              "FMultiGrid::Boundary::build_bndry: How did we get here?").
Proof.
  cbv zeta. split_and!.
  - destruct (set_bndry_values_cases Boundary_default fields2D bndry2D
                [0; 0]%Z) as (H & _).
    apply H; reflexivity.
  - destruct (set_bndry_values_cases
                (Boundary_new mg_bc2D None (Some 0%nat)) fields2D bndry2D
                [0; 0]%Z) as (_ & H & _).
    apply (H 0%nat field2D); reflexivity.
  - destruct (set_bndry_values_cases
                (Boundary_new mg_bc2D (Some 3%nat) (Some 0%nat)) fields2D
                bndry2D [2; 2]%Z) as (_ & _ & _ & H & _).
    apply (H 3%nat 0%nat field2D field2D); reflexivity.
  - destruct (set_bndry_values_cases
                (Boundary_new mg_bc2D (Some 3%nat) (Some 0%nat)) fields2D
                bndry2D [0; 0]%Z) as (_ & _ & H & _).
    apply (H 3%nat 0%nat); reflexivity.
  - destruct (set_bndry_values_cases
                (Boundary_new mg_bc2D (Some 3%nat) None) fields2D
                bndry2D [2; 2]%Z) as (_ & _ & _ & _ & H & _).
    apply (H 3%nat); reflexivity.
Defined.

(** The objects of the program are objects a program can hold. *)
Lemma fresh2D_reachable (s : FMultiGrid) : fresh2D = Ok s → reachable s.
Proof. apply reach_Geometry. Qed.

Lemma configured2D_reachable (s : FMultiGrid) :
  configured2D = Ok s → reachable s.
Proof.
  unfold configured2D. intros H.
  apply bind_Ok in H as (s0 & H0 & H). apply bind_Ok in H as (s1 & H1 & H2).
  apply (reach_call s1 [] call_set_const_gravity_coeffs s []).
  - apply (reach_call s0 [] (call_set_bc mg_bc2D) s1 []).
    + apply fresh2D_reachable, H0.
    + simpl. rewrite H1. reflexivity.
  - simpl. rewrite H2. reflexivity.
Qed.

Lemma solved2D_reachable (s : FMultiGrid) (st : Store) (r : Real) :
  solved2D = Ok (s, st, r) → reachable s.
Proof.
  unfold solved2D. intros H. apply bind_Ok in H as (s0 & H0 & H).
  apply (reach_call s0 fields2D
           (call_solve_PArray [Some 0%nat] [Some 1%nat]
              1e-10%float 1e-10%float 0 1 0) s st).
  - apply configured2D_reachable, H0.
  - simpl. rewrite H. reflexivity.
Qed.

(** C6 on the program: the second [set_bc] fails, and the coarse-field
    overload fails on the unset ratio of the fresh object. *)
Lemma set_bc_at_most_once_witness :
  ∃ s s1,
    fresh2D = Ok s
    ∧ run_call s fields2D (call_set_bc mg_bc2D) = Ok (s1, fields2D)
    ∧ set_bc s1 mg_bc2D = Fail (AssertionFailed "!m_bc.initilized")
    ∧ assertion_failed
        (run_call s1 fields2D (call_set_bc_phi mg_bc2D 0%nat))
    ∧ set_bc_crse_phi s mg_bc2D 3%nat 0%nat
      = Fail (AssertionFailed "m_crse_ratio != IntVect::TheZeroVector()").
Proof.
  eexists. eexists. split; [reflexivity|]. split; [reflexivity|].
  match goal with |- set_bc ?s1 _ = _ ∧ _ =>
    destruct (set_bc_at_most_once s1 fields2D) as (_ & _ & Hset & _)
  end.
  match goal with |- _ ∧ _ ∧ set_bc_crse_phi ?s _ _ _ = _ =>
    destruct (set_bc_at_most_once s fields2D) as (_ & _ & _ & Hzero & Hseq)
  end.
  split_and!.
  - apply Hset. reflexivity.
  - apply (Hseq (call_set_bc mg_bc2D) _ fields2D
             (call_set_bc_phi mg_bc2D 0%nat) fields2D); reflexivity.
  - apply Hzero. reflexivity.
Defined.

(** C7 on the program: [set_alpha] after [set_const_gravity_coeffs], and
    [set_acoef] twice. *)
Lemma coefficient_setters_guarded_witness :
  ∃ s s1 s2,
    fresh2D = Ok s
    ∧ set_const_gravity_coeffs s = Ok s1
    ∧ set_alpha s1 1%float
      = Fail (AssertionFailed
          "m_coeff.eq_type == invalid_eq || m_coeff.eq_type == general_eq")
    ∧ set_acoef_MultiFab s 2%nat = Ok s2
    ∧ set_acoef_MultiFab s2 2%nat = Fail (AssertionFailed "!m_coeff.a_set")
    ∧ assertion_failed
        (run_call s2 fields2D (call_set_const_gravity_coeffs)).
Proof.
  eexists. eexists. eexists.
  split; [reflexivity|]. split; [reflexivity|].
  match goal with |- _ ∧ ?r = Ok ?s2 ∧ _ =>
    assert (Hs2 : r = Ok s2) by reflexivity
  end.
  match type of Hs2 with set_acoef_MultiFab ?s _ = Ok ?s2 =>
    pose proof (fresh2D_reachable s eq_refl) as Hreach;
    destruct (coefficient_setters_guarded s fields2D Hreach)
      as (_ & _ & Halpha & Hacoef & _);
    assert (Hreach2 : reachable s2)
      by (apply (reach_call s fields2D (call_set_acoef_MultiFab 2%nat)
                   s2 fields2D Hreach); reflexivity);
    destruct (coefficient_setters_guarded s2 fields2D Hreach2)
      as (Hguard & _)
  end.
  split_and!.
  - apply Halpha. reflexivity.
  - exact Hs2.
  - eapply Hacoef. reflexivity.
  - apply Hguard; [reflexivity|]. left. split; discriminate.
Defined.

(** C8 on the program: the configured object is ready, [solve] returns and
    leaves a handle, and a second [solve] or a [compute_residual] on the
    solved object fails the assertion on the handle. *)
Lemma solver_handle_lifecycle_witness :
  ∃ s0 s1 st r,
    configured2D = Ok s0
    ∧ m_mgt_solver s0 = None
    ∧ (∃ s' st' r',
         solve_PArray s0 fields2D [Some 0%nat] [Some 1%nat]
                      1e-10%float 1e-10%float 0 1 0 = Ok (s', st', r')
         ∧ is_Some (m_mgt_solver s'))
    ∧ solved2D = Ok (s1, st, r)
    ∧ run_call s1 st (call_solve_MultiFab 0%nat 1%nat
                        1e-10%float 1e-10%float 0 1 0)
      = Fail (AssertionFailed "m_mgt_solver == 0")
    ∧ run_call s1 st (call_compute_residual_MultiFab 0%nat 1%nat 2%nat)
      = Fail (AssertionFailed "m_mgt_solver == 0").
Proof.
  eexists. eexists. eexists. eexists.
  split; [reflexivity|]. split; [reflexivity|].
  match goal with |- _ ∧ ?r = Ok (?s1, ?st, ?n) ∧ _ =>
    assert (Hs1 : r = Ok (s1, st, n)) by reflexivity
  end.
  match type of Hs1 with _ = Ok (?s1, ?st, ?n) =>
    pose proof (solved2D_reachable s1 st n Hs1) as Hreach1;
    destruct (solver_handle_lifecycle s1 st Hreach1) as (Hpre & _)
  end.
  match goal with |- (∃ s' st' r', solve_PArray ?s0 _ _ _ _ _ _ _ _ = _ ∧ _)
                     ∧ _ =>
    pose proof (configured2D_reachable s0 eq_refl) as Hreach0;
    destruct (solver_handle_lifecycle s0 fields2D Hreach0)
      as (_ & _ & _ & _ & _ & Hreturns & _)
  end.
  split_and!.
  - apply Hreturns.
    + unfold ready_to_solve, fields_live. simpl. split_and!;
        try reflexivity; try discriminate; try lia.
      intros [|i] Hi; [|lia]. exists 0%nat, field2D. split; reflexivity.
    + intros [|i] Hi; [|simpl in Hi; lia].
      exists 1%nat, field2D. split; reflexivity.
  - exact Hs1.
  - apply Hpre; [reflexivity|]. simpl. eauto.
  - apply Hpre; [reflexivity|]. simpl. eauto.
Defined.

(** Against C9 as stated: on the solved one-level object the multi-level
    [get_grad_phi] takes an array of two entries and returns. *)
Lemma get_grad_phi_accepts_longer_array :
  ∃ s st r st',
    solved2D = Ok (s, st, r)
    ∧ m_nlevels s = 1%nat
    ∧ length [[Some 2%nat; Some 3%nat]; [Some 2%nat; Some 3%nat]] = 2%nat
    ∧ get_grad_phi_Array s st
        [[Some 2%nat; Some 3%nat]; [Some 2%nat; Some 3%nat]] = Ok st'
    ∧ get_grad_phi_PArray_PArray s st
        [Some [Some 2%nat; Some 3%nat]; Some [Some 2%nat; Some 3%nat]]
      = Ok st'.
Proof.
  eexists. eexists. eexists. eexists.
  split; [reflexivity|]. split; [reflexivity|]. split; [reflexivity|].
  split; reflexivity.
Defined.

(** C9 as amended, on a fresh object with two levels and on the solved
    object with one. *)
Lemma level_count_preconditions_witness :
  ∃ s s1 st r,
    fresh_two_levels2D = Ok s
    ∧ run_call s fields2D (call_set_acoef_MultiFab 2%nat)
      = Fail (AssertionFailed "m_nlevels == 1")
    ∧ run_call s fields2D (call_get_grad_phi_PArray [Some 2%nat; Some 3%nat])
      = Fail (AssertionFailed "m_nlevels == 1")
    ∧ assertion_failed (set_acoef_PArray s [Some 2%nat])
    ∧ solved2D = Ok (s1, st, r)
    ∧ ∃ st', get_grad_phi_Array s1 st
               [[Some 2%nat; Some 3%nat]; [Some 2%nat; Some 3%nat]]
             = Ok st'.
Proof.
  eexists. eexists. eexists. eexists.
  split; [reflexivity|].
  match goal with |- run_call ?s _ _ = _ ∧ _ =>
    assert (Hreach : reachable s)
      by exact (reach_vector [geom_tenth; geom_twentieth] 0 [0; 0]%Z _
                  eq_refl);
    destruct (level_count_preconditions s fields2D Hreach)
      as (Hsingle & Hacoef & _)
  end.
  match goal with |- _ ∧ _ ∧ _ ∧ ?r = Ok (?s1, ?st, ?n) ∧ _ =>
    assert (Hs1 : r = Ok (s1, st, n)) by reflexivity
  end.
  match type of Hs1 with _ = Ok (?s1, ?st, ?n) =>
    pose proof (solved2D_reachable s1 st n Hs1) as Hreach1;
    destruct (level_count_preconditions s1 st Hreach1)
      as (_ & _ & _ & _ & _ & _ & Hlong & _)
  end.
  split_and!.
  - apply Hsingle; [reflexivity | simpl; lia | reflexivity].
  - apply Hsingle; [reflexivity | simpl; lia | reflexivity].
  - apply Hacoef. simpl. lia.
  - exact Hs1.
  - apply Hlong; [simpl; eauto | simpl; lia].
Defined.


(** ** The further properties on the program *)

Ltac all_some :=
  repeat first
    [ apply Forall_nil_2
    | apply Forall_cons_2; [eexists; reflexivity|] ].

Ltac all_null :=
  repeat first
    [ apply Forall_nil_2
    | apply Forall_cons_2; [reflexivity|] ].

(** X1 into an empty destination, into a longer and into a shorter
    destination of null slots, and from a source with a null slot. *)
Lemma Copy_PArray_into_empty_witness :
  Copy_PArray [] [Some 0%nat; Some 1%nat] = Ok [Some 0%nat; Some 1%nat]
  ∧ Copy_PArray [None; None; None] [Some 0%nat; Some 1%nat]
    = Ok [Some 0%nat; Some 1%nat]
  ∧ Copy_PArray [None] [Some 0%nat; Some 1%nat]
    = Ok [Some 0%nat; Some 1%nat]
  ∧ Copy_PArray [None] [Some 0%nat; None] = Fail NullDereference.
Proof.
  split_and!.
  - apply (Copy_PArray_into_empty [] [Some 0%nat; Some 1%nat]);
      [all_null | all_some].
  - apply (Copy_PArray_into_empty [None; None; None]
             [Some 0%nat; Some 1%nat]); [all_null | all_some].
  - apply (Copy_PArray_into_empty [None] [Some 0%nat; Some 1%nat]);
      [all_null | all_some].
  - apply (Copy_PArray_into_empty [None] [Some 0%nat; None]); [all_null|].
    intros H.
    apply Forall_cons_1 in H as [_ H]. apply Forall_cons_1 in H as [[x Hx] _].
    discriminate Hx.
Defined.

(** X2 into an empty destination and into a destination of two rows of
    null slots, and from a source with a null slot. *)
Lemma Copy_Array_PArray_into_empty_witness :
  Copy_Array_PArray [] [Some 0%nat; Some 1%nat]
  = Ok [[Some 0%nat; Some 1%nat]]
  ∧ Copy_Array_PArray [[None; None; None]; []] [Some 0%nat; Some 1%nat]
    = Ok [[Some 0%nat; Some 1%nat]]
  ∧ Copy_Array_PArray [] [None; Some 1%nat] = Fail NullDereference.
Proof.
  split_and!.
  - apply (Copy_Array_PArray_into_empty [] [Some 0%nat; Some 1%nat]);
      [apply Forall_nil_2 | all_some].
  - apply (Copy_Array_PArray_into_empty [[None; None; None]; []]
             [Some 0%nat; Some 1%nat]); [|all_some].
    apply Forall_cons_2; [all_null|].
    apply Forall_cons_2; [all_null | apply Forall_nil_2].
  - apply (Copy_Array_PArray_into_empty [] [None; Some 1%nat]);
      [apply Forall_nil_2|].
    intros H. apply Forall_cons_1 in H as [[x Hx] _]. discriminate Hx.
Defined.

(** X3 on an empty source, on a source whose second row is longer than the
    first, and on a rectangular source. *)
Lemma Copy_Array_Array_rows_witness :
  Copy_Array_Array [] [] = Fail OutOfBounds
  ∧ Copy_Array_Array []
      [[Some 0%nat; Some 1%nat]; [Some 2%nat; Some 3%nat; None]]
    = Ok [[Some 0%nat; Some 1%nat]; [Some 2%nat; Some 3%nat]]
  ∧ Copy_Array_Array [[None]]
      [[Some 0%nat; Some 1%nat]; [Some 2%nat; Some 3%nat]]
    = Ok [[Some 0%nat; Some 1%nat]; [Some 2%nat; Some 3%nat]].
Proof.
  split_and!.
  - apply (Copy_Array_Array_rows [] []). reflexivity.
  - destruct (Copy_Array_Array_rows []
                [[Some 0%nat; Some 1%nat]; [Some 2%nat; Some 3%nat; None]])
      as (_ & H & _).
    apply (H [Some 0%nat; Some 1%nat] eq_refl).
    repeat first
      [ apply Forall_nil_2
      | apply Forall_cons_2; [split; [simpl; lia | simpl; all_some]|] ].
  - destruct (Copy_Array_Array_rows [[None]]
                [[Some 0%nat; Some 1%nat]; [Some 2%nat; Some 3%nat]])
      as (_ & _ & H).
    apply (H [Some 0%nat; Some 1%nat] eq_refl).
    repeat first
      [ apply Forall_nil_2
      | apply Forall_cons_2; [split; [reflexivity | all_some]|] ].
Defined.

(** X4 on the program's geometry, and on an array with a null slot. *)
Lemma constructors_agree_witness :
  FMultiGrid_Geometry geom_tenth 0 [0; 0]%Z
  = FMultiGrid_vector [geom_tenth] 0 [0; 0]%Z
  ∧ FMultiGrid_PArray [Some geom_tenth; Some geom_twentieth] 0 [0; 0]%Z
    = FMultiGrid_vector [geom_tenth; geom_twentieth] 0 [0; 0]%Z
  ∧ FMultiGrid_PArray [Some geom_tenth; None] 0 [0; 0]%Z
    = Fail NullDereference.
Proof.
  destruct (constructors_agree 0 [0; 0]%Z) as (H1 & H2 & H3).
  split_and!.
  - apply H1.
  - apply (H2 [geom_tenth; geom_twentieth]).
  - apply H3. intros H.
    apply Forall_cons_1 in H as [_ H]. apply Forall_cons_1 in H as [[x Hx] _].
    discriminate Hx.
Defined.

(** X5 on the fresh object: [set_bcoef] on the pointer to address 2 stores
    the fields at addresses 2 and 3, the gravity setter stores the array
    given, and [set_acoef] on an array with a null slot passes its checks
    and fails; on the fresh object with two levels, [set_bcoef] on rows of
    two and of three fields stores both rows cut to two. *)
Lemma array_setters_store_witness :
  ∃ s t,
    fresh2D = Ok s
    ∧ fresh_two_levels2D = Ok t
    ∧ a (m_coeff s) = [] ∧ b (m_coeff s) = []
    ∧ set_bcoef_ptr s 2%nat
      = Ok (with_coeff s
              (coeff_with_b (m_coeff s) general_eq
                 [[Some 2%nat; Some 3%nat]]))
    ∧ set_gravity_coeffs_PArray s [Some 2%nat; Some 3%nat]
      = Ok (with_coeff s
              (coeff_with_b (m_coeff s) gravity_eq
                 [[Some 2%nat; Some 3%nat]]))
    ∧ set_acoef_PArray s [None] = Fail NullDereference
    ∧ set_bcoef_Array t
        [[Some 0%nat; Some 1%nat]; [Some 2%nat; Some 3%nat; Some 1%nat]]
      = Ok (with_coeff t
              (coeff_with_b (m_coeff t) general_eq
                 [[Some 0%nat; Some 1%nat]; [Some 2%nat; Some 3%nat]])).
Proof.
  eexists. eexists. split; [reflexivity|]. split; [reflexivity|].
  match goal with |- a (m_coeff ?s) = _ ∧ _ =>
    destruct (array_setters_store s
                (reach_Geometry geom_tenth 0 [0; 0]%Z _ eq_refl))
      as (Hea & Heb & Hgen & Hgrav)
  end.
  match goal with |- _ ∧ _ ∧ _ ∧ _ ∧ _ ∧ set_bcoef_Array ?t _ = _ =>
    destruct (array_setters_store t
                (reach_vector [geom_tenth; geom_twentieth] 0 [0; 0]%Z _
                   eq_refl))
      as (_ & _ & Hgen2 & _)
  end.
  split_and!.
  - apply Hea. reflexivity.
  - apply Heb. reflexivity.
  - destruct Hgen as (_ & _ & H & _); [reflexivity|].
    apply (H 2%nat); reflexivity.
  - destruct Hgrav as (H & _); [reflexivity|].
    apply (H [Some 2%nat; Some 3%nat]); [reflexivity | reflexivity | all_some].
  - destruct Hgen as (_ & H & _); [reflexivity|].
    apply (H [None]); [reflexivity | reflexivity |].
    intros Hall. apply Forall_cons_1 in Hall as [[x Hx] _]. discriminate Hx.
  - destruct Hgen2 as (_ & _ & _ & _ & H); [reflexivity|].
    apply (H [[Some 0%nat; Some 1%nat]; [Some 2%nat; Some 3%nat; Some 1%nat]]
             [Some 0%nat; Some 1%nat]);
      [reflexivity | reflexivity | reflexivity | reflexivity |].
    repeat first
      [ apply Forall_nil_2
      | apply Forall_cons_2; [split; [simpl; lia | simpl; all_some]|] ].
Defined.

(** X6 on the first call of the program. *)
Lemma calls_keep_configuration_witness :
  ∃ s s',
    fresh2D = Ok s
    ∧ run_call s fields2D (call_set_bc mg_bc2D) = Ok (s', fields2D)
    ∧ m_nlevels s' = m_nlevels s ∧ m_geom s' = m_geom s
    ∧ m_coeff s' = m_coeff s.
Proof.
  eexists. eexists. split; [reflexivity|].
  match goal with |- ?r = Ok (?s', ?st') ∧ _ =>
    assert (Hrun : r = Ok (s', st')) by reflexivity;
    destruct (calls_keep_configuration _ _ _ _ _ Hrun)
      as (Hn & _ & _ & _ & _ & Hg & _ & Hc)
  end.
  split_and!; [exact Hrun | exact Hn | exact Hg | apply Hc; reflexivity].
Defined.

(** X7 on the fresh object: [set_alpha] and [set_beta] in either order. *)
Lemma general_setters_commute_witness :
  ∃ s r,
    fresh2D = Ok s
    ∧ run_calls s fields2D [call_set_alpha 1%float; call_set_beta 2%float]
      = Ok r
    ∧ run_calls s fields2D [call_set_beta 2%float; call_set_alpha 1%float]
      = Ok r.
Proof.
  eexists. eexists. split; [reflexivity|].
  match goal with |- ?m = Ok ?r ∧ _ =>
    assert (Hrun : m = Ok r) by reflexivity
  end.
  split; [exact Hrun|].
  apply (general_setters_commute _ fields2D (call_set_alpha 1%float)
           (call_set_beta 2%float) sv_alpha sv_beta _ eq_refl eq_refl).
  - discriminate.
  - exact Hrun.
Defined.

(** X8 on the program: the handle of the solved object carries the
    geometry, the boundary codes and the layout of the field at address
    0. *)
Lemma solve_hands_layouts_to_kernel_witness :
  ∃ s s' st' r,
    configured2D = Ok s
    ∧ solve_PArray s fields2D [Some 0%nat] [Some 1%nat]
                   1e-10%float 1e-10%float 0 1 0 = Ok (s', st', r)
    ∧ ∃ mgt, m_mgt_solver s' = Some mgt
             ∧ mgt_geom mgt = [geom_tenth] ∧ mgt_bc mgt = mg_bc2D
             ∧ mgt_stencil mgt = CC_CROSS_STENCIL.
Proof.
  eexists. eexists. eexists. eexists. split; [reflexivity|].
  match goal with |- ?m = Ok ?x ∧ _ =>
    assert (Hrun : m = Ok x) by reflexivity;
    destruct (solve_hands_layouts_to_kernel _ _ _ _ _ _ _ _ _ _ _ _ Hrun)
      as (phi_p & rhs_p & mfs & mf0 & g0 & k & v & ks & _ & _ & _ & _ & _
          & _ & Hm & _)
  end.
  split; [exact Hrun|]. eexists.
  split; [exact Hm|]. split_and!; reflexivity.
Defined.

(** X9 on the configured object of the program. *)
Lemma compute_residual_hands_layouts_to_kernel_witness :
  ∃ s s' st',
    configured2D = Ok s
    ∧ compute_residual_PArray s fields2D [Some 0%nat] [Some 1%nat]
                              [Some 2%nat] = Ok (s', st')
    ∧ ∃ mgt, m_mgt_solver s' = Some mgt
             ∧ mgt_geom mgt = [geom_tenth] ∧ mgt_bc mgt = mg_bc2D
             ∧ mgt_stencil mgt = CC_CROSS_STENCIL.
Proof.
  eexists. eexists. eexists. split; [reflexivity|].
  match goal with |- ?m = Ok ?x ∧ _ =>
    assert (Hrun : m = Ok x) by reflexivity;
    destruct (compute_residual_hands_layouts_to_kernel _ _ _ _ _ _ _ Hrun)
      as (phi_p & rhs_p & res_p & mfs & mf0 & g0 & k & v & ks & _ & _ & _
          & _ & _ & _ & _ & Hm & _)
  end.
  split; [exact Hrun|]. eexists.
  split; [exact Hm|]. split_and!; reflexivity.
Defined.

(** X10 on the solved object of the program. *)
Lemma get_grad_phi_overloads_agree_witness :
  ∃ s st r,
    solved2D = Ok (s, st, r)
    ∧ get_grad_phi_Array s st [[Some 2%nat; Some 3%nat]]
      = get_grad_phi_PArray s st [Some 2%nat; Some 3%nat]
    ∧ get_grad_phi_PArray_PArray s st [Some [Some 2%nat; Some 3%nat]]
      = get_grad_phi_Array s st [[Some 2%nat; Some 3%nat]].
Proof.
  eexists. eexists. eexists. split; [reflexivity|].
  match goal with |- get_grad_phi_Array ?s ?st _ = _ ∧ _ =>
    destruct (get_grad_phi_overloads_agree s st) as [H1 H2]
  end.
  split.
  - apply (H1 [Some 2%nat; Some 3%nat]). reflexivity.
  - apply (H2 [[Some 2%nat; Some 3%nat]]).
Defined.

(** X11 on the solved object of the program, with an array of two
    entries. *)
Lemma get_grad_phi_visits_levels_witness :
  ∃ s st r mgt,
    solved2D = Ok (s, st, r)
    ∧ m_mgt_solver s = Some mgt
    ∧ get_grad_phi_Array s st
        [[Some 2%nat; Some 3%nat]; [Some 2%nat; Some 3%nat]]
      = Ok (kernel_get_fluxes mgt st 0%nat [Some 2%nat; Some 3%nat]
              [0.1; 0.1]%float).
Proof.
  eexists. eexists. eexists. eexists.
  split; [reflexivity|]. split; [reflexivity|].
  match goal with |- get_grad_phi_Array ?s ?st ?gp = Ok (_ ?mgt _ _ _ _) =>
    rewrite (get_grad_phi_visits_levels s st gp mgt eq_refl eq_refl
               (le_S 1 1 (le_n 1)))
  end.
  reflexivity.
Defined.



(** X13 where the two branches are closest: on an object at base level 1
    with a coarse and a fine boundary field, [solve] goes through both
    dispatches and returns; on an object of the general variant with
    [alpha] alone it goes through [set_bndry_values] and fails the
    assertion of [set_coeffs]. *)
Lemma public_calls_never_abort_witness :
  ∃ s0 s1 s2 s' st' t0 t1 t2,
    FMultiGrid_Geometry geom_twentieth 1 [2; 2]%Z = Ok s0
    ∧ set_bc_crse_phi s0 mg_bc2D 3%nat 0%nat = Ok s1
    ∧ set_const_gravity_coeffs s1 = Ok s2
    ∧ run_call s2 fields2D
        (call_solve_MultiFab 0%nat 1%nat 1e-10%float 1e-10%float 0 1 0)
      = Ok (s', st')
    ∧ no_abort (run_call s2 fields2D
                  (call_solve_MultiFab 0%nat 1%nat
                     1e-10%float 1e-10%float 0 1 0))
    ∧ fresh2D = Ok t0
    ∧ set_bc t0 mg_bc2D = Ok t1
    ∧ set_alpha t1 1%float = Ok t2
    ∧ run_call t2 fields2D
        (call_solve_MultiFab 0%nat 1%nat 1e-10%float 1e-10%float 0 1 0)
      = Fail (AssertionFailed "alpha_set && a_set && beta_set && b_set")
    ∧ no_abort (run_call t2 fields2D
                  (call_solve_MultiFab 0%nat 1%nat
                     1e-10%float 1e-10%float 0 1 0)).
Proof.
  do 8 eexists.
  split; [reflexivity|]. split; [reflexivity|]. split; [reflexivity|].
  split; [reflexivity|]. split.
  { apply public_calls_never_abort.
    eapply (reach_call _ fields2D call_set_const_gravity_coeffs _ fields2D).
    - eapply (reach_call _ fields2D (call_set_bc_crse_phi mg_bc2D 3%nat 0%nat)
                _ fields2D).
      + exact (reach_Geometry geom_twentieth 1 [2; 2]%Z _ eq_refl).
      + reflexivity.
    - reflexivity. }
  split; [reflexivity|]. split; [reflexivity|]. split; [reflexivity|].
  split; [reflexivity|].
  apply public_calls_never_abort.
  eapply (reach_call _ fields2D (call_set_alpha 1%float) _ fields2D).
  - eapply (reach_call _ fields2D (call_set_bc mg_bc2D) _ fields2D).
    + exact (reach_Geometry geom_tenth 0 [0; 0]%Z _ eq_refl).
    + reflexivity.
  - reflexivity.
Defined.

(** X14 on the solved object of the program. *)
Lemma reachable_objects_are_consistent_witness :
  ∃ s st r,
    solved2D = Ok (s, st, r)
    ∧ length (m_geom s) = m_nlevels s
    ∧ is_Some (m_bndry s)
    ∧ initilized (m_bc s) = true.
Proof.
  eexists. eexists. eexists.
  match goal with |- ?m = Ok (?s, ?st, ?r) ∧ _ =>
    assert (Hs : m = Ok (s, st, r)) by reflexivity;
    destruct (reachable_objects_are_consistent s
                (solved2D_reachable s st r Hs))
      as (Hg & _ & _ & _ & Hh & Hi & _)
  end.
  split; [exact Hs|]. split; [exact Hg|].
  split; [apply Hh | apply Hi]; eexists; reflexivity.
Defined.

(** X15 on the configured object of the program. *)
Lemma lazy_construction_applies_stored_model_witness :
  ∃ s s1,
    configured2D = Ok s
    ∧ init_mgt_solver s fields2D [Some 0%nat] = Ok s1
    ∧ ∃ mgt xa xb,
        m_mgt_solver s1 = Some mgt
        ∧ transition_distances s = Ok (xa, xb)
        ∧ mgt_coeffs mgt = Some (ConstGravityCoeffs xa xb).
Proof.
  eexists. eexists. split; [reflexivity|].
  match goal with |- ?m = Ok ?s1 ∧ _ =>
    assert (Hrun : m = Ok s1) by reflexivity;
    destruct (lazy_construction_applies_stored_model _ _ _ _ Hrun)
      as (mgt & xa & xb & Hm & Hd & Hc & _)
  end.
  split; [exact Hrun|]. exists mgt, xa, xb.
  split; [exact Hm|]. split; [exact Hd|]. apply Hc. reflexivity.
Defined.

(** X16 over [fields2D], with [A] at address 2 and [B] at addresses 2 and
    3. *)
Lemma general_variant_end_to_end_witness :
  ∃ s0 s' st',
    FMultiGrid_Geometry geom_tenth 0 [0; 0]%Z = Ok s0
    ∧ run_calls s0 fields2D
        [call_set_bc mg_bc2D; call_set_alpha 1%float;
         call_set_acoef_MultiFab 2%nat; call_set_beta 2%float;
         call_set_bcoef_ptr 2%nat;
         call_solve_MultiFab 0%nat 1%nat 1e-10%float 1e-10%float 0 1 0]
      = Ok (s', st')
    ∧ ∃ mgt, m_mgt_solver s' = Some mgt
             ∧ mgt_coeffs mgt
               = Some (ABecLapCoeffs 1%float [Some 2%nat] 2%float
                         [[Some 2%nat; Some 3%nat]]
                         [[0%float; 0%float]] [[0%float; 0%float]]).
Proof.
  exact (general_variant_end_to_end geom_tenth [0; 0]%Z mg_bc2D
           1%float 2%float 2%nat 2%nat 0%nat 1%nat 1e-10%float 1e-10%float
           0 1 0 fields2D
           (ex_intro _ field2D eq_refl) (ex_intro _ field2D eq_refl)).
Defined.

(** X17 on the program: [solve], then [get_grad_phi]. *)
Lemma stored_values_are_write_once_witness :
  ∃ s s' st',
    configured2D = Ok s
    ∧ run_calls s fields2D
        [call_solve_PArray [Some 0%nat] [Some 1%nat]
           1e-10%float 1e-10%float 0 1 0;
         call_get_grad_phi_PArray [Some 2%nat; Some 3%nat]]
      = Ok (s', st')
    ∧ eq_type (m_coeff s') = const_gravity_eq
    ∧ m_bc s' = m_bc s.
Proof.
  eexists. eexists. eexists. split; [reflexivity|].
  match goal with |- run_calls ?s ?st ?cs = Ok (?s', ?st') ∧ _ =>
    assert (Hrun : run_calls s st cs = Ok (s', st')) by reflexivity;
    destruct (stored_values_are_write_once s st cs s' st'
                (configured2D_reachable s eq_refl) Hrun)
      as (Ht & _ & _ & _ & _ & Hbc)
  end.
  split; [exact Hrun|]. split.
  - rewrite Ht; [reflexivity | discriminate].
  - apply Hbc. reflexivity.
Defined.

End Instance2D.
